(** * xmindmd: the XMind <-> Markdown conversion engine of server.js

    A shallow embedding of the conversion functions of [server.js]
    ([convertMdToMd], [parseMarkdownToStructure],
    [buildXMindZipFromStructure], [xmindZipToMarkdown], [parseXMindXML],
    [parseXMLTopic]) and the properties the specification states about them.

    Modelling conventions.
    - A JavaScript string is the list of its UTF-16 code units ([N]).
    - A regular expression literal is a value of [regex], run by a
      backtracking matcher that tries alternatives in ECMAScript order.
    - Objects mutated through several references (the nodes reachable from
      [pathStack]) live in an explicit store, addressed by index.
    - [JSON.parse], [JSON.stringify], [crypto.randomUUID] and the JSZip
      container are library code: they are parameters of the model. *)

From Stdlib Require Import NArith Ascii String Lia.
From stdpp Require Import base option list gmap.

Set Warnings "-register-all".

Local Open Scope N_scope.
Local Open Scope nat_scope.

(** ** Strings *)

Module Str.

Abbreviation char := N (only parsing).
Abbreviation str := (list N) (only parsing).

(** An ASCII literal as code units. *)
Definition lit (s : string) : str :=
  map N_of_ascii (list_ascii_of_string s).

Definition LF : char := 10%N.
Definition CR : char := 13%N.
Definition SPACE : char := 32%N.
Definition HASH : char := 35%N.
Definition LT : char := 60%N.
Definition GT : char := 62%N.

(** The code units ECMAScript calls WhiteSpace or LineTerminator: what
    [\s] matches and what [trim] removes. *)
Definition is_ws (c : char) : bool :=
  (N.leb 9 c && N.leb c 13) || N.eqb c 32 || N.eqb c 160 || N.eqb c 5760
  || (N.leb 8192 c && N.leb c 8202) || N.eqb c 8232 || N.eqb c 8233
  || N.eqb c 8239 || N.eqb c 8287 || N.eqb c 12288 || N.eqb c 65279.

(** LineTerminator: what [.] refuses. *)
Definition is_lt (c : char) : bool :=
  N.eqb c 10 || N.eqb c 13 || N.eqb c 8232 || N.eqb c 8233.

Fixpoint trimStart (s : str) : str :=
  match s with
  | c :: s' => if is_ws c then trimStart s' else s
  | [] => []
  end.

Definition trimEnd (s : str) : str := rev (trimStart (rev s)).

Definition trim (s : str) : str := trimEnd (trimStart s).

(** [s.split(sep)] for a one-unit separator: never the empty array. *)
Fixpoint str_split (sep : char) (s : str) : list str :=
  match s with
  | [] => [[]]
  | c :: s' =>
      if N.eqb c sep then [] :: str_split sep s'
      else match str_split sep s' with
           | l :: ls => (c :: l) :: ls
           | [] => [[c]]
           end
  end.

(** [a.join(sep)]. *)
Fixpoint str_join (sep : str) (a : list str) : str :=
  match a with
  | [] => []
  | x :: a' =>
      match a' with
      | [] => x
      | _ :: _ => x ++ sep ++ str_join sep a'
      end
  end.

(** [s.repeat(n)]. *)
Fixpoint str_repeat (s : str) (n : nat) : str :=
  match n with
  | 0 => []
  | S n' => s ++ str_repeat s n'
  end.

(** Truthiness of a string: [''] is the only falsy one. *)
Definition truthy (s : str) : bool :=
  match s with [] => false | _ :: _ => true end.

(** [a || b] on strings. *)
Definition or_else (a b : str) : str := if truthy a then a else b.

End Str.
Export Str.

(** ** Regular expressions

    The fragment of ECMAScript regular expressions the program uses: every
    quantifier is applied to a single character class, groups are not
    nested.  [^] is expressed by the entry point ([exec_here] is anchored
    at the start, [exec] searches), the [g] flag by [match_all] and
    [replace_all], the [i] flag by the class [ci]. *)

Module Regex.

Inductive regex : Type :=
| RClass (p : char -> bool)
| RRep (p : char -> bool) (lo : nat) (hi : option nat) (greedy : bool)
| RSeq (r1 r2 : regex)
| RGroup (r : regex)
| REmpty
| REnd.

(** Bounds of a quantifier after one more iteration. *)
Definition hi_pred (hi : option nat) : option nat :=
  match hi with Some h => Some (pred h) | None => None end.

Definition hi_zero (hi : option nat) : bool :=
  match hi with Some 0 => true | _ => false end.

Section Run.
Context {A : Type}.

(** Greedy [p{lo,hi}]: as many as possible first, then one less, ... *)
Fixpoint rep_greedy (p : char -> bool) (lo : nat) (hi : option nat)
    (s : str) (k : str -> option A) : option A :=
  let stop := match lo with 0 => k s | S _ => None end in
  if hi_zero hi then stop
  else match s with
       | c :: s' =>
           if p c then
             match rep_greedy p (pred lo) (hi_pred hi) s' k with
             | Some r => Some r
             | None => stop
             end
           else stop
       | [] => stop
       end.

(** Lazy [p{lo,hi}?]: as few as possible first, then one more, ... *)
Fixpoint rep_lazy (p : char -> bool) (lo : nat) (hi : option nat)
    (s : str) (k : str -> option A) : option A :=
  let more :=
    if hi_zero hi then None
    else match s with
         | c :: s' =>
             if p c then rep_lazy p (pred lo) (hi_pred hi) s' k else None
         | [] => None
         end in
  match lo with
  | 0 => match k s with Some r => Some r | None => more end
  | S _ => more
  end.

(** The matcher in continuation-passing style: [k] receives the rest of
    the input and the captures made so far. *)
Fixpoint run (r : regex) (s : str) (caps : list str)
    (k : str -> list str -> option A) : option A :=
  match r with
  | RClass p =>
      match s with
      | c :: s' => if p c then k s' caps else None
      | [] => None
      end
  | RRep p lo hi greedy =>
      (if greedy then rep_greedy else rep_lazy) p lo hi s
        (fun s' => k s' caps)
  | RSeq r1 r2 => run r1 s caps (fun s1 caps1 => run r2 s1 caps1 k)
  | RGroup r1 =>
      run r1 s caps
        (fun s' caps' => k s' (caps' ++ [take (length s - length s') s]))
  | REmpty => k s caps
  | REnd => match s with [] => k s caps | _ :: _ => None end
  end.
End Run.

(** The result of a match: [m[0]], the groups [m[1..]], and the input that
    follows the match. *)
Record rmatch : Type := RMatch {
  whole : str;
  groups : list str;
  after : str
}.

(** A match that starts at the first code unit of [s]. *)
Definition exec_here (r : regex) (s : str) : option rmatch :=
  run r s [] (fun s' caps =>
    Some (RMatch (take (length s - length s') s) caps s')).

(** [s.match(r)] without the [g] flag: the leftmost match; the first
    component is the input before it. *)
Fixpoint exec (r : regex) (s : str) : option (str * rmatch) :=
  match exec_here r s with
  | Some m => Some ([], m)
  | None =>
      match s with
      | [] => None
      | c :: s' =>
          match exec r s' with
          | Some (pre, m) => Some (c :: pre, m)
          | None => None
          end
      end
  end.

(** [s.match(r)] with the [g] flag: every [m[0]], left to right, each
    search starting where the previous match ended (one unit further after
    an empty match).  [skip] counts the units of the current match still
    to pass. *)
Fixpoint match_from (r : regex) (skip : nat) (s : str) : list str :=
  match skip with
  | S n => match s with [] => [] | _ :: s' => match_from r n s' end
  | 0 =>
      match exec_here r s with
      | Some m =>
          whole m ::
          match s with
          | [] => []
          | _ :: s' => match_from r (pred (length (whole m))) s'
          end
      | None => match s with [] => [] | _ :: s' => match_from r 0 s' end
      end
  end.

Definition match_all (r : regex) (s : str) : list str := match_from r 0 s.

(** [s.replace(r, repl)] with the [g] flag and a constant replacement. *)
Fixpoint replace_from (r : regex) (repl : str) (skip : nat) (s : str) : str :=
  match skip with
  | S n => match s with [] => [] | _ :: s' => replace_from r repl n s' end
  | 0 =>
      match exec_here r s with
      | Some m =>
          repl ++
          match s with
          | [] => []
          | c :: s' =>
              match whole m with
              | [] => c :: replace_from r repl 0 s'
              | _ :: w => replace_from r repl (length w) s'
              end
          end
      | None =>
          match s with [] => [] | c :: s' => c :: replace_from r repl 0 s' end
      end
  end.

Definition replace_all (r : regex) (repl : str) (s : str) : str :=
  replace_from r repl 0 s.

(** *** Character classes *)

Definition chr (c0 : char) : char -> bool := fun c => N.eqb c c0.
Definition chr_not (c0 : char) : char -> bool := fun c => negb (N.eqb c c0).
Definition any : char -> bool := fun _ => true.          (* [\s\S] *)
Definition dot : char -> bool := fun c => negb (is_lt c). (* . *)

(** Canonicalisation under the [i] flag.  Exact on ASCII; a code unit
    above 127 never canonicalises to an ASCII one, so comparing it with
    the ASCII pattern characters used here is decided by identity. *)
Definition canon (c : char) : char :=
  if N.leb 97 c && N.leb c 122 then (c - 32)%N else c.

Definition ci (c0 : char) : char -> bool := fun c => N.eqb (canon c) (canon c0).

(** A literal run of characters, each matched by [cls]. *)
Fixpoint rlit (cls : char -> char -> bool) (l : str) : regex :=
  match l with
  | [] => REmpty
  | c :: l' => RSeq (RClass (cls c)) (rlit cls l')
  end.

Definition star (p : char -> bool) : regex := RRep p 0 None true.
Definition plus (p : char -> bool) : regex := RRep p 1 None true.
Definition star_lazy (p : char -> bool) : regex := RRep p 0 None false.

Fixpoint rseq (rs : list regex) : regex :=
  match rs with
  | [] => REmpty
  | r :: rs' => RSeq r (rseq rs')
  end.

(** [matches r s s' caps]: [r] can consume [s] down to [s'], capturing
    [caps].  Priorities between alternatives are left out. *)
Fixpoint matches (r : regex) (s s' : str) (caps : list str) : Prop :=
  match r with
  | RClass p => (exists c, s = c :: s' /\ p c = true) /\ caps = []
  | RRep p lo hi _ =>
      (exists m, s = m ++ s' /\ forallb p m = true /\ lo <= length m /\
                 match hi with Some h => length m <= h | None => True end)
      /\ caps = []
  | RSeq r1 r2 =>
      exists s1 c1 c2,
        matches r1 s s1 c1 /\ matches r2 s1 s' c2 /\ caps = c1 ++ c2
  | RGroup r1 =>
      exists c1 m, matches r1 s s' c1 /\ s = m ++ s' /\ caps = c1 ++ [m]
  | REmpty => s = s' /\ caps = []
  | REnd => (s = [] /\ s' = []) /\ caps = []
  end.

End Regex.
Export Regex.

(** ** The tree model *)

Module Tree.

(** A node of the document tree: [{ title, note, children }].  [note] is
    [''] when the property is absent: the program only ever tests it for
    truthiness. *)
Inductive node : Type :=
  Node { title : str; note : str; children : list node }.

(** U+672A U+5206 U+7C7B *)
Definition default_label : str := [26410; 20998; 31867]%N.

(** U+672A U+547D U+540D U+4E3B U+9898 *)
Definition unnamed_topic : str := [26410; 21629; 21517; 20027; 39064]%N.

(** U+601D U+7EF4 U+5BFC U+56FE *)
Definition mind_map : str := [24605; 32500; 23548; 22270]%N.

(** ['Markdown '] followed by [mind_map]. *)
Definition default_root_title : str := lit "Markdown " ++ mind_map.

End Tree.
Export Tree.

(** ** Markdown: line patterns *)

Module Lines.

(** [/^(#{1,6})\s+(.+)$/] *)
Definition heading_re : regex :=
  rseq [RGroup (RRep (chr HASH) 1 (Some 6) true); plus is_ws;
        RGroup (plus dot); REnd].

(** [h = s.match(heading_re)] as the pair [(h[1].length, h[2])]. *)
Definition match_heading (s : str) : option (nat * str) :=
  match exec_here heading_re s with
  | Some m =>
      match groups m with
      | [h1; h2] => Some (length h1, h2)
      | _ => None
      end
  | None => None
  end.

Definition is_marker (c : char) : bool :=
  N.eqb c 45 || N.eqb c 42 || N.eqb c 43.

(** [/^( \s* )([-*+])\s+(.+)$/], without the blanks in the first group. *)
Definition bullet_re : regex :=
  rseq [RGroup (star is_ws); RGroup (RClass is_marker); plus is_ws;
        RGroup (plus dot); REnd].

(** [lm = s.match(bullet_re)] as the pair [(lm[1].length, lm[3])]. *)
Definition match_bullet (s : str) : option (nat * str) :=
  match exec_here bullet_re s with
  | Some m =>
      match groups m with
      | [l1; _; l3] => Some (length l1, l3)
      | _ => None
      end
  | None => None
  end.

(** [/\r$/] *)
Definition cr_end_re : regex := rseq [RClass (chr CR); REnd].

(** [s.replace(r, repl)] without the [g] flag. *)
Definition replace_first (r : regex) (repl : str) (s : str) : str :=
  match exec r s with
  | Some (pre, m) => pre ++ repl ++ after m
  | None => s
  end.

End Lines.
Export Lines.

(** ** convertMdToMd: the heading restructurer *)

Module Restructure.

(** An entry [[lineIndex, level, title]] of [headers]. *)
Definition header : Type := nat * nat * str.

(** [lines.forEach((line, i) => ...)], from index [i] on. *)
Fixpoint collect_headers (i : nat) (lines : list str) : list header :=
  match lines with
  | [] => []
  | line :: rest =>
      match match_heading (trim line) with
      | Some (level, t) => (i, level, trim t) :: collect_headers (S i) rest
      | None => collect_headers (S i) rest
      end
  end.

(** [findParentH2]: [i] runs from [h3IndexInHeaders - 1] down to [0].  The
    index is always in range at the call site; the last branch is only
    there to make the function total. *)
Fixpoint findParentH2 (headers : list header) (h3IndexInHeaders : nat) : str :=
  match h3IndexInHeaders with
  | 0 => default_label
  | S i =>
      match headers !! i with
      | Some (_, level, title) =>
          if level =? 2 then title else findParentH2 headers i
      | None => findParentH2 headers i
      end
  end.

(** The inner [for (j ...)] loop over [headers], from index [j] on, which
    stops at the first entry of line [i]: [(isH2, isH3, parentH2)]. *)
Fixpoint classify (headers : list header) (j : nat) (rest : list header)
    (i : nat) : bool * bool * str :=
  match rest with
  | [] => (false, false, [])
  | (lineNum, level, _) :: rest' =>
      if lineNum =? i then
        (level =? 2, level =? 3,
         if level =? 3 then findParentH2 headers j else [])
      else classify headers (S j) rest' i
  end.

Definition h2_prefix : str := Eval cbv in lit "## ".

(** The outer [for (i ...)] loop, from line [i] on: what it pushes to
    [result]. *)
Fixpoint rebuild (headers : list header) (i : nat) (lines : list str)
    : list str :=
  match lines with
  | [] => []
  | line :: rest =>
      match classify headers 0 headers i with
      | (isH2, isH3, parentH2) =>
          if isH2 then rebuild headers (S i) rest
          else if isH3 then
            (h2_prefix ++ parentH2) :: line :: rebuild headers (S i) rest
          else line :: rebuild headers (S i) rest
      end
  end.

Definition convertMdToMd (content : str) : str :=
  let lines := str_split LF content in
  let headers := collect_headers 0 lines in
  str_join [LF] (rebuild headers 0 lines).

(** *** The restructurer in the words of its specification *)

(** The section label at a line, from the lines before it, nearest first:
    the title of the nearest level-2 heading line, [default_label] when
    there is none. *)
Fixpoint section_label (before_rev : list str) : str :=
  match before_rev with
  | [] => default_label
  | line :: older =>
      match match_heading (trim line) with
      | Some (level, t) =>
          if level =? 2 then trim t else section_label older
      | None => section_label older
      end
  end.

(** What a line becomes, given the lines before it: a level-2 heading
    line is dropped, a level-3 heading line is preceded by a level-2
    heading line made of the section label, any other line is kept. *)
Definition restructure_line (before : list str) (line : str) : list str :=
  match match_heading (trim line) with
  | Some (level, _) =>
      if level =? 2 then []
      else if level =? 3 then
        [h2_prefix ++ section_label (rev before); line]
      else [line]
  | None => [line]
  end.

Fixpoint restructure_lines (before : list str) (lines : list str)
    : list str :=
  match lines with
  | [] => []
  | line :: rest =>
      restructure_line before line ++ restructure_lines (before ++ [line]) rest
  end.

Definition restructureHeadings_spec (content : str) : str :=
  str_join [LF] (restructure_lines [] (str_split LF content)).

(** The same pass with the current section label carried along. *)
Fixpoint relabel (cur : str) (lines : list str) : list str :=
  match lines with
  | [] => []
  | line :: rest =>
      match match_heading (trim line) with
      | Some (level, t) =>
          if level =? 2 then relabel (trim t) rest
          else if level =? 3 then
            (h2_prefix ++ cur) :: line :: relabel cur rest
          else line :: relabel cur rest
      | None => line :: relabel cur rest
      end
  end.

(** The label the entries of [headers] leave, read in order. *)
Definition label_after (headers : list header) : str :=
  foldl (fun cur h => if snd (fst h) =? 2 then snd h else cur)
        default_label headers.

(** A section label a heading line can be rebuilt from: not empty, its
    own [trim], free of line terminators. *)
Definition good_label (l : str) : Prop :=
  l <> [] /\ trim l = l /\ forallb dot l = true.

End Restructure.
Export Restructure.

(** ** parseMarkdownToStructure: the Markdown parser

    The nodes are JavaScript objects shared between the tree and
    [pathStack]; [push] on the [children] of a stack entry is seen through
    the tree.  They are kept in a store: a node reference is an index into
    [heap], [structure] is the reference [0]. *)

Module Parser.

(** A node object in the store; its children are references. *)
Record cell : Type := Cell {
  c_title : str;
  c_note : str;
  c_children : list nat
}.

Record pstate : Type := PState {
  heap : list cell;
  pathStack : list nat;
  firstH1Found : bool
}.

(** The reference of [structure]. *)
Definition structure : nat := 0.

Definition initial : pstate :=
  PState [Cell default_root_title [] []] [structure] false.

Definition set_title (t : str) (c : cell) : cell :=
  Cell t (c_note c) (c_children c).

Definition set_note (n : str) (c : cell) : cell :=
  Cell (c_title c) n (c_children c).

Definition push_child (r : nat) (c : cell) : cell :=
  Cell (c_title c) (c_note c) (c_children c ++ [r]).

(** [pathStack[pathStack.length - 1]]; the stack is never empty where
    this is evaluated. *)
Definition top (stack : list nat) : nat := default structure (last stack).

(** The insertion both headings and bullets end with:
    [[
      const node = { title, children: [] };
      while (pathStack.length > adjustedLevel) pathStack.pop();
      if (pathStack.length === 0) pathStack.push(structure);
      (pathStack[pathStack.length - 1].children).push(node);
      pathStack.push(node);
    ]]
    The loop removes entries from the end until at most [adjustedLevel]
    are left: it keeps the first [adjustedLevel] entries. *)
Definition insert_node (adjustedLevel : nat) (t : str) (st : pstate) : pstate :=
  let node := length (heap st) in
  let popped := take adjustedLevel (pathStack st) in
  let stack := match popped with [] => [structure] | _ :: _ => popped end in
  PState (alter (push_child node) (top stack) (heap st ++ [Cell t [] []]))
         (stack ++ [node])
         (firstH1Found st).

(** The depth a heading of [level] asks for. *)
Definition heading_depth (level : nat) : nat :=
  let adjustedLevel := if level =? 1 then 1 else level - 1 in
  if adjustedLevel <? 1 then 1 else adjustedLevel.

(** The [if (h)] branch. *)
Definition on_heading (level : nat) (t : str) (st : pstate) : pstate :=
  if (level =? 1) && negb (firstH1Found st) then
    PState (alter (set_title t) structure (heap st))
           (take 1 (pathStack st))
           true
  else insert_node (heading_depth level) t st.

(** The [if (lm)] branch. *)
Definition on_bullet (indent : nat) (t : str) (st : pstate) : pstate :=
  let level := indent / 2 + 1 in
  let adjustedLevel := level in
  insert_node adjustedLevel t st.

(** The plain text branch. *)
Definition on_text (line : str) (st : pstate) : pstate :=
  if 1 <? length (pathStack st) then
    let current := top (pathStack st) in
    match heap st !! current with
    | Some c =>
        match c_children c with
        | [] =>
            let n := if truthy (c_note c) then c_note c ++ [LF] ++ line
                     else line in
            PState (alter (set_note n) current (heap st))
                   (pathStack st) (firstH1Found st)
        | _ :: _ =>
            let node := length (heap st) in
            PState (alter (push_child node) current
                      (heap st ++ [Cell line [] []]))
                   (pathStack st) (firstH1Found st)
        end
    | None => st
    end
  else st.

(** [raw.replace(/\r$/, '').trimEnd()] *)
Definition clean (raw : str) : str := trimEnd (replace_first cr_end_re [] raw).

(** One iteration of [for (let raw of lines)]. *)
Definition step (st : pstate) (raw : str) : pstate :=
  let line := clean raw in
  if negb (truthy (trim line)) then st
  else
    match match_heading (trim line) with
    | Some (level, h2) => on_heading level (trim h2) st
    | None =>
        match match_bullet line with
        | Some (indent, l3) => on_bullet indent (trim l3) st
        | None => on_text line st
        end
    end.

(** The store when the loop ends; the function returns [structure]. *)
Definition parse (content : str) : pstate :=
  foldl step initial (str_split LF content).

(** The tree under a reference.  [fuel] bounds the depth; references only
    point to younger cells, so the size of the store is always enough. *)
Fixpoint reify (fuel : nat) (h : list cell) (r : nat) : option node :=
  match fuel with
  | 0 => None
  | S fuel' =>
      match h !! r with
      | Some c =>
          match mapM (reify fuel' h) (c_children c) with
          | Some kids => Some (Node (c_title c) (c_note c) kids)
          | None => None
          end
      | None => None
      end
  end.

Definition parseMarkdownToStructure (content : str) : option node :=
  let st := parse content in
  reify (length (heap st)) (heap st) structure.

(** *** Vocabulary for the properties of the parser *)

(** A raw line is a level-1 heading line. *)
Definition is_h1 (raw : str) : bool :=
  match match_heading (trim (clean raw)) with
  | Some (1, _) => true
  | _ => false
  end.

(** What holds of every state the loop reaches: the stack starts with
    [structure], its entries are references into the store, and the
    children of a cell are younger than the cell. *)
Definition wf_state (st : pstate) : Prop :=
  (exists rest, pathStack st = structure :: rest) /\
  Forall (fun r => r < length (heap st)) (pathStack st) /\
  (forall i c, heap st !! i = Some c ->
     Forall (fun j => i < j < length (heap st)) (c_children c)).

(** The title of [structure] in a state. *)
Definition root_title (st : pstate) : option str :=
  c_title <$> heap st !! structure.

(** The depth of every node of a tree, in document order, the root at
    depth [d]. *)
Fixpoint depths (d : nat) (n : node) : list (str * nat) :=
  (title n, d) :: concat (map (depths (S d)) (children n)).


(** What the trees of the parser have besides: every title is non-empty,
    [structure] has no note, and [structure] is on the stack once, at the
    bottom. *)
Definition titled_state (st : pstate) : Prop :=
  (exists rest, pathStack st = structure :: rest /\
                Forall (fun r => 0 < r) rest) /\
  Forall (fun c => c_title c <> []) (heap st) /\
  (forall c, heap st !! structure = Some c -> c_note c = []).

End Parser.
Export Parser.

(** ** The package: topics, sheets, archive

    The content of a package is JSON.  The model covers the documents
    whose fields carry the types the program expects (strings, objects,
    arrays of topics); a field is an [option], [None] when the property is
    absent. *)

Module Package.

Record children_of (T : Type) : Type := Children {
  attached : option (list T);
  detached : option (list T)
}.
Arguments Children {T} _ _.
Arguments attached {T} _.
Arguments detached {T} _.

(** [{ content }] under [plain], [{ plain }] under [notes]. *)
Record plain_obj : Type := Plain { content : option str }.
Record notes_obj : Type := Notes { plain : option plain_obj }.

Inductive topic : Type := Topic {
  t_id : option str;
  t_class : option str;
  t_title : option str;
  t_notes : option notes_obj;
  t_note : option str;
  t_children : option (children_of topic)
}.

Record sheet : Type := Sheet {
  s_id : option str;
  s_class : option str;
  s_title : option str;
  s_rootTopic : option topic;
  s_topic : option topic
}.

(** What [JSON.parse] yields for a content entry: an array of sheets or a
    single sheet object. *)
Inductive data : Type :=
| DArray (sheets : list sheet)
| DObject (s : sheet).

(** The three documents the writer serialises. *)
Inductive document : Type :=
| ContentDoc (d : data)
| MetadataDoc (familyId : str)
| ManifestDoc.

(** A loaded archive: entry name to entry text, as [z.file(name)] sees it. *)
Abbreviation archive := (gmap (list N) (list N)) (only parsing).

Inductive error : Type :=
| JsonParseFailed      (* 'content.json ...' : the entry does not parse *)
| UnsupportedFormat    (* neither content.json nor content.xml *)
| XmlParseFailed.      (* 'content.xml ...' : no sheet could be read *)

Inductive result (A : Type) : Type :=
| Ok (a : A)
| Err (e : error).
Arguments Ok {A} _.
Arguments Err {A} _.

(** *** Reading a topic *)

(** [getChildren]: [(topic.children || {}).attached || ch.detached || []].
    An array is truthy even when empty. *)
Definition getChildren (t : topic) : list topic :=
  match t_children t with
  | Some ch =>
      match attached ch with
      | Some l => l
      | None => match detached ch with Some l => l | None => [] end
      end
  | None => []
  end.

(** [getNote] *)
Definition getNote (t : topic) : str :=
  match t_notes t with
  | Some (Notes (Some (Plain (Some s)))) => s
  | _ => match t_note t with Some s => s | None => [] end
  end.

(** [topic.title || unnamed_topic] *)
Definition display_title (t : topic) : str :=
  or_else (default [] (t_title t)) unnamed_topic.

(** [for (const child of getChildren(topic)) acc = f(acc, child)], written
    by cases on where the list comes from so that a function recursive on
    topics can be defined through it; [fold_children_getChildren] states
    it is the loop over [getChildren]. *)
Definition fold_children {A : Type} (f : A -> topic -> A) (a : A) (t : topic)
    : A :=
  match t_children t with
  | Some ch =>
      match attached ch with
      | Some l => foldl f a l
      | None => match detached ch with Some l => foldl f a l | None => a end
      end
  | None => a
  end.

(** *** Rendering *)

Definition indent2 : str := Eval cbv in lit "  ".
Definition dash : str := Eval cbv in lit "- ".
Definition quote : str := Eval cbv in lit "> ".
Definition h1_prefix : str := Eval cbv in lit "# ".

(** The first line [toHeaderMd] pushes for a topic at [level]. *)
Definition header_line (level : nat) (t : str) : str :=
  if level <=? 6 then str_repeat [HASH] level ++ [SPACE] ++ t
  else str_repeat indent2 (level - 7) ++ dash ++ t.

(** [toHeaderMd(topic, level, out)]: [out] after the call. *)
Fixpoint toHeaderMd (t : topic) (level : nat) (out : list str) : list str :=
  let out := out ++ [header_line level (display_title t)] in
  let note := trim (getNote t) in
  let out :=
    if truthy note then
      out ++ [[]] ++ map (fun line => quote ++ line) (str_split LF note)
          ++ [[]]
    else out in
  let out :=
    fold_children (fun out child => toHeaderMd child (level + 1) out) out t in
  if level <=? 3 then out ++ [[]] else out.

(** [toListMd(topic, level, out)]: [out] after the call. *)
Fixpoint toListMd (t : topic) (level : nat) (out : list str) : list str :=
  let out :=
    if level =? 0 then out ++ [h1_prefix ++ display_title t; []]
    else out ++ [str_repeat indent2 (level - 1) ++ dash ++ display_title t] in
  let note := trim (getNote t) in
  let out :=
    if truthy note then
      out ++ map (fun line => str_repeat indent2 level ++ quote ++ line)
                 (str_split LF note)
    else out in
  fold_children (fun out child => toListMd child (level + 1) out) out t.

(** *** Vocabulary for the properties of the renderers *)

(** The number of [#] a line starts with. *)
Fixpoint leading_hashes (line : str) : nat :=
  match line with
  | c :: rest => if N.eqb c HASH then S (leading_hashes rest) else 0
  | [] => 0
  end.

(** The lines of the note of a topic in header mode. *)
Definition header_note_lines (t : topic) : list str :=
  let note := trim (getNote t) in
  if truthy note then
    [[]] ++ map (fun line => quote ++ line) (str_split LF note) ++ [[]]
  else [].

(** The lines of the note of a topic in list mode. *)
Definition list_note_lines (t : topic) (level : nat) : list str :=
  let note := trim (getNote t) in
  if truthy note then
    map (fun line => str_repeat indent2 level ++ quote ++ line)
        (str_split LF note)
  else [].

(** *** The tree a topic stands for *)

(** The node the renderers see in a topic: its displayed title, [getNote],
    and the nodes of [getChildren], in order. *)
Fixpoint topicToNode (t : topic) : node :=
  Node (display_title t) (getNote t)
       (fold_children (fun acc child => acc ++ [topicToNode child]) [] t).

(** *** The legacy XML content *)

Definition any_tag (name : string) : regex :=
  rseq [rlit ci (lit "<" ++ lit name); star (chr_not GT); RClass (chr GT);
        RGroup (star_lazy any); rlit ci (lit "</" ++ lit name ++ lit ">")].

Definition bare_tag (name : string) : regex :=
  rseq [rlit ci (lit "<" ++ lit name ++ lit ">"); RGroup (star_lazy any);
        rlit ci (lit "</" ++ lit name ++ lit ">")].

(** [/<sheet[^>]*>([\s\S]*?)<\/sheet>/i] *)
Definition sheet_re : regex := any_tag "sheet".
(** [/<topic[^>]*>([\s\S]*?)<\/topic>/i] *)
Definition topic_re : regex := any_tag "topic".
(** [/<topics[^>]*>([\s\S]*?)<\/topics>/i] *)
Definition topics_re : regex := any_tag "topics".
(** [/<notes>([\s\S]*?)<\/notes>/i] *)
Definition notes_re : regex := bare_tag "notes".
(** [/<plain>([\s\S]*?)<\/plain>/i] *)
Definition plain_re : regex := bare_tag "plain".
(** [/<title>( [^<]* )<\/title>/i], without the blanks in the group. *)
Definition title_re : regex :=
  rseq [rlit ci (lit "<title>"); RGroup (star (chr_not LT));
        rlit ci (lit "</title>")].
(** [/<[^>]*>/] *)
Definition markup_re : regex :=
  rseq [RClass (chr LT); star (chr_not GT); RClass (chr GT)].

(** [m[1]] *)
Definition group1 (m : rmatch) : str := nth 0 (groups m) [].

(** The title [parseXMLTopic] extracts. *)
Definition xml_title (topicXML : str) : str :=
  match exec title_re topicXML with
  | Some (_, titleMatch) => group1 titleMatch
  | None => unnamed_topic
  end.

(** The note [parseXMLTopic] extracts. *)
Definition xml_note (topicXML : str) : str :=
  match exec notes_re topicXML with
  | Some (_, notesMatch) =>
      match exec plain_re (group1 notesMatch) with
      | Some (_, plainMatch) =>
          trim (replace_all markup_re [] (group1 plainMatch))
      | None => []
      end
  | None => []
  end.

(** The blocks [parseXMLTopic] recurses on: every [topic_re] match inside
    every [topics_re] match, in order. *)
Definition xml_child_blocks (topicXML : str) : list str :=
  concat (map (match_all topic_re) (match_all topics_re topicXML)).

(** *** Vocabulary for the properties of the XML reader *)

(** [m] is [pat] up to the case of ASCII letters. *)
Definition ci_eq (pat m : str) : Prop :=
  Forall2 (fun p c => ci p c = true) pat m.



(** [parseXMLTopic] with a bound on the nesting.  No operation of the body
    throws, so the [catch] branch is not modelled; [None] only means that
    [fuel] was too small. *)
Fixpoint parseXMLTopic_within (fuel : nat) (topicXML : str) : option topic :=
  match fuel with
  | 0 => None
  | S fuel' =>
      let title := xml_title topicXML in
      let note := xml_note topicXML in
      match mapM (parseXMLTopic_within fuel') (xml_child_blocks topicXML) with
      | Some kids =>
          Some (Topic None None (Some title)
                  (if truthy note then Some (Notes (Some (Plain (Some note))))
                   else None)
                  None
                  (match kids with
                   | [] => None
                   | _ :: _ => Some (Children (Some kids) None)
                   end))
      | None => None
      end
  end.

(** A block nests less deeply than it is long. *)
Definition parseXMLTopic (topicXML : str) : option topic :=
  parseXMLTopic_within (S (length topicXML)) topicXML.

(** The body of the loop of [parseXMindXML] over [sheetMatches]. *)
Definition xml_sheet (sheetMatch : str) : list sheet :=
  match exec topic_re sheetMatch with
  | Some (_, topicMatch) =>
      match parseXMLTopic (whole topicMatch) with
      | Some rootTopic => [Sheet None None None (Some rootTopic) None]
      | None => []
      end
  | None => []
  end.

(** [parseXMindXML]: [None] is [null]. *)
Definition parseXMindXML (xmlStr : str) : option (list sheet) :=
  match match_all sheet_re xmlStr with
  | [] => None
  | sheetMatches =>
      match concat (map xml_sheet sheetMatches) with
      | [] => None
      | sheets => Some sheets
      end
  end.

Definition content_json : str := Eval cbv in lit "content.json".
Definition Content_json : str := Eval cbv in lit "Content.json".
Definition content_xml : str := Eval cbv in lit "content.xml".
Definition Content_xml : str := Eval cbv in lit "Content.xml".
Definition metadata_json : str := Eval cbv in lit "metadata.json".
Definition manifest_json : str := Eval cbv in lit "manifest.json".
Definition list_format : str := Eval cbv in lit "list".

(** [a || b] on the result of [z.file]. *)
Definition first_of {A : Type} (a b : option A) : option A :=
  match a with Some _ => a | None => b end.

(** [l.map(f)] for an [f] that draws identifiers: the counter is threaded
    through the calls, in order. *)
Definition map_counted {A B : Type} (f : A -> nat -> B * nat)
    : list A -> nat -> list B * nat :=
  fix go (l : list A) (k : nat) : list B * nat :=
    match l with
    | [] => ([], k)
    | x :: l' =>
        let '(y, k1) := f x k in
        let '(ys, k2) := go l' k1 in
        (y :: ys, k2)
    end.

(** Every node of the tree has a title that is not empty. *)
Fixpoint titled (n : node) : bool :=
  truthy (title n) && forallb titled (children n).

Section Codec.
(** [JSON.parse] on the text of a content entry ([None]: it throws, or
    [safeJSONParse] yields a falsy value), [JSON.stringify], and the
    [k]-th identifier [uid()] draws. *)
Variable JSON_parse : str -> option data.
Variable JSON_stringify : document -> str.
Variable uid : nat -> str.

(** The first half of [xmindZipToMarkdown]: the value of [data]. *)
Definition load_data (z : archive) : result data :=
  match first_of (z !! content_json) (z !! Content_json) with
  | Some jsonStr =>
      match JSON_parse jsonStr with
      | Some d => Ok d
      | None => Err JsonParseFailed
      end
  | None =>
      match first_of (z !! content_xml) (z !! Content_xml) with
      | Some xmlStr =>
          match parseXMindXML xmlStr with
          | Some sheets => Ok (DArray sheets)
          | None => Err XmlParseFailed
          end
      | None => Err UnsupportedFormat
      end
  end.

(** [Array.isArray(data) ? data : [data]] *)
Definition sheets_of (d : data) : list sheet :=
  match d with DArray l => l | DObject s => [s] end.

(** [sheet.rootTopic || sheet.topic], and [continue] when there is none. *)
Definition root_topics (sheets : list sheet) : list topic :=
  omap (fun s => first_of (s_rootTopic s) (s_topic s)) sheets.

(** The array [out] of one sheet. *)
Definition render (format : str) (t : topic) : list str :=
  if bool_decide (format = list_format) then toListMd t 0 []
  else toHeaderMd t 1 [].

(** The array [outputs]. *)
Definition outputs (format : str) (d : data) : list str :=
  map (fun t => str_join [LF] (render format t)) (root_topics (sheets_of d)).

Definition xmindZipToMarkdown (z : archive) (format : str) : result str :=
  match load_data z with
  | Ok d => Ok (str_join [LF] (outputs format d))
  | Err e => Err e
  end.

(** The reader of the package as a function to trees: one tree per
    sheet that has a root topic. *)
Definition packageToTree (z : archive) : result (list node) :=
  match load_data z with
  | Ok d => Ok (map topicToNode (root_topics (sheets_of d)))
  | Err e => Err e
  end.

(** *** Writing *)

Definition topic_class : str := Eval cbv in lit "topic".
Definition sheet_class : str := Eval cbv in lit "sheet".
Definition local_prefix : str := Eval cbv in lit "local-".

(** [buildTopic(node)] when [k] identifiers have been drawn: the topic
    and the number drawn afterwards.  The identifier of a topic is drawn
    before those of its children, which [map] builds in order. *)
Fixpoint buildTopic (n : node) (k : nat) : topic * nat :=
  let id := uid k in
  let notes :=
    if truthy (note n) then Some (Notes (Some (Plain (Some (note n)))))
    else None in
  let '(kids, k') := map_counted buildTopic (children n) (S k) in
  (Topic (Some id) (Some topic_class) (Some (or_else (title n) []))
     notes None
     (match kids with
      | [] => None
      | _ :: _ => Some (Children (Some kids) None)
      end),
   k').

(** The value of [content] in [buildXMindZipFromStructure], and the
    number of identifiers drawn. *)
Definition build_content (structure : node) : data * nat :=
  let '(root, k) :=
    buildTopic (Node (or_else (title structure) mind_map) []
                     (children structure)) 0 in
  let sheet :=
    Sheet (Some (uid k)) (Some sheet_class)
          (Some (or_else (title structure) mind_map)) (Some root) None in
  (DArray [sheet], S k).

(** The entries of the archive [buildXMindZipFromStructure] generates. *)
Definition buildXMindZipFromStructure (structure : node) : archive :=
  let '(content, k) := build_content structure in
  <[manifest_json := JSON_stringify ManifestDoc]>
    (<[metadata_json := JSON_stringify (MetadataDoc (local_prefix ++ uid k))]>
       (<[content_json := JSON_stringify (ContentDoc content)]> ∅)).

End Codec.

End Package.
Export Package.

(** ** Further vocabulary *)

Module RestructureFacts.

(** The level of a line as [convertMdToMd] reads it: [0] when the line is
    not a heading line. *)
Definition line_level (line : str) : nat :=
  match match_heading (trim line) with
  | Some (level, _) => level
  | None => 0
  end.

(** In [lines] every level-2 heading line is directly followed by a
    level-3 heading line and every level-3 heading line directly follows
    a level-2 heading line. *)
Fixpoint paired (lines : list str) : bool :=
  match lines with
  | [] => true
  | l :: rest =>
      if line_level l =? 2 then
        match rest with
        | l' :: rest' => (line_level l' =? 3) && paired rest'
        | [] => false
        end
      else if line_level l =? 3 then false
      else paired rest
  end.

(** The number of lines of a given level. *)
Definition count_level (level : nat) (lines : list str) : nat :=
  length (filter (fun l => line_level l = level) lines).

End RestructureFacts.
Export RestructureFacts.

(** *** Vocabulary for reading rendered Markdown back *)

Module ReadBack.

(** A property of every node of a tree. *)
Fixpoint every (p : node -> bool) (n : node) : bool :=
  p n && forallb (every p) (children n).

(** The number of nodes of a tree and the number of levels it has. *)
Fixpoint size (n : node) : nat := S (list_sum (map size (children n))).

Fixpoint height (n : node) : nat :=
  S (foldr Nat.max 0 (map height (children n))).

(** The store of the parser holds the nodes in the order their lines are
    met.  [refs k l]: the references of the siblings [l] when the first
    of them is cell [k]; [layout k n]: the cells of [n] when its root is
    cell [k]. *)
Fixpoint refs (k : nat) (l : list node) : list nat :=
  match l with
  | [] => []
  | c :: l' => k :: refs (k + size c) l'
  end.

Fixpoint layout (k : nat) (n : node) : list cell :=
  Cell (title n) (note n) (refs (S k) (children n)) ::
  (fix go (k : nat) (l : list node) : list cell :=
     match l with
     | [] => []
     | c :: l' => layout k c ++ go (k + size c) l'
     end) (S k) (children n).

Fixpoint layouts (k : nat) (l : list node) : list cell :=
  match l with
  | [] => []
  | c :: l' => layout k c ++ layouts (k + size c) l'
  end.

(** [cell.children.push(...rs)] *)
Definition add_children (rs : list nat) (c : cell) : cell :=
  Cell (c_title c) (c_note c) (c_children c ++ rs).

(** What the loop of the parser does with a line, once the line is
    classified: an insertion at a depth, or plain text. *)
Inductive event : Type :=
| Insert (depth : nat) (t : str)
| Text (line : str).

Definition play (st : pstate) (e : event) : pstate :=
  match e with
  | Insert depth t => insert_node depth t st
  | Text line => on_text line st
  end.

(** The lines of a note. *)
Definition lines_of (note : str) : list str :=
  if truthy note then str_split LF note else [].

(** The lines of the note of [n] are not empty. *)
Definition note_ok (n : node) : bool := forallb truthy (lines_of (note n)).

(** The events that build [n] at depth [d]. *)
Fixpoint script (d : nat) (n : node) : list event :=
  Insert d (title n) :: map Text (lines_of (note n))
    ++ concat (map (script (S d)) (children n)).

(** The statement for one node: played in a state whose stack holds at
    least [d] entries, the events of [n] append the cells of [n] to the
    store and the reference of [n] to the children of the entry at
    depth [d - 1]. *)
Definition builds (n : node) : Prop :=
  forall d st pre suf,
    1 <= d -> pathStack st = pre ++ suf -> length pre = d ->
    top pre < length (heap st) ->
    every note_ok n = true ->
    exists spine,
      foldl play st (script d n) =
        PState (alter (push_child (length (heap st))) (top pre) (heap st)
                  ++ layout (length (heap st)) n)
               (pre ++ length (heap st) :: spine) (firstH1Found st).

(** A title that comes back as it is: not empty, no white space at
    either end, no line terminator. *)
Definition tidy (t : str) : bool :=
  match t, rev t with
  | c :: _, d :: _ => negb (is_ws c) && negb (is_ws d) && forallb dot t
  | _, _ => false
  end.

(** The quoted lines of a note at [level], in list mode and in header
    mode. *)
Definition list_quote (level : nat) (note : str) : list str :=
  if truthy (trim note) then
    map (fun line => str_repeat indent2 level ++ quote ++ line)
        (str_split LF (trim note))
  else [].

Definition header_quote (level : nat) (note : str) : list str :=
  if truthy (trim note) then
    map (fun line => quote ++ line) (str_split LF (trim note))
  else [].

(** The tree with every note replaced by its quoted lines, as the
    parser reads them, the root being at [level]. *)
Fixpoint requote (quoted : nat -> str -> list str) (level : nat) (n : node)
    : node :=
  Node (title n) (str_join [LF] (map clean (quoted level (note n))))
       (map (requote quoted (S level)) (children n)).

(** The same for the tree of a sheet: the note of the root is not read. *)
Definition reread (quoted : nat -> str -> list str) (level : nat) (n : node)
    : node :=
  Node (title n) [] (map (requote quoted (S level)) (children n)).

End ReadBack.
Export ReadBack.

(** ** The server: one conversion per request, one download kept

    [createApp] keeps the result of the latest conversion in four
    module-level variables; [/api/convert] fills them and
    [/api/download] serves them.  Express, multer, [path], [Buffer] and
    JSZip are library code: what they compute is a variable of the
    section. *)

Module Server.

(** A field of the form: a string, or an array of strings when the field
    was sent more than once. *)
Inductive field : Type :=
| FString (s : str)
| FArray (l : list str).

(** [req.file]; [originalname] is [''] when the part has no file name. *)
Record upload : Type := Upload {
  originalname : str;
  buffer : list N
}.

(** A request to [/api/convert]: [req.body.direction], [req.body.format],
    [req.file], and the identifiers [crypto.randomUUID] returns while the
    request is served. *)
Record request : Type := Request {
  r_direction : option field;
  r_format : option field;
  r_file : option upload;
  r_ids : nat -> str
}.

(** What is thrown while a request is served. *)
Inductive exn : Type :=
| TypeError                 (* a method is called on [undefined] *)
| BadArchive                (* [JSZip.loadAsync] rejects *)
| ReaderError (e : error).  (* [xmindZipToMarkdown] throws *)

Inductive failure : Type :=
| NoFile                          (* the message of line 446 *)
| UnknownDirection (d : str)      (* the message of line 519, with [d] *)
| Thrown (e : exn)                (* [e.message], line 522 *)
| OptimizeFailed (e : exn).       (* the message of line 515 *)

(** The JSON sent back: [{ success: true, content, filename }], [content]
    absent when a package was built, or [{ success: false, error }]. *)
Inductive reply : Type :=
| Success (content : option str) (filename : str)
| Failure (f : failure).

(** [lastBinary], [lastFilename], [lastTextBuffer], [lastContentType];
    [None] is [null].  A package is identified with its entries, a text
    buffer with the text it encodes. *)
Record cache : Type := Cache {
  lastBinary : option archive;
  lastFilename : option str;
  lastTextBuffer : option str;
  lastContentType : str
}.

Definition markdown_type : str := Eval cbv in lit "text/markdown; charset=utf-8".
Definition plain_type : str := Eval cbv in lit "text/plain; charset=utf-8".
Definition octet_stream : str := Eval cbv in lit "application/octet-stream".

(** The variables when the module is loaded. *)
Definition fresh : cache := Cache None None None markdown_type.

Definition xmind_to_md : str := Eval cbv in lit "xmind_to_md".
Definition md_to_md : str := Eval cbv in lit "md_to_md".
Definition md_to_xmind : str := Eval cbv in lit "md_to_xmind".

Definition one_click_aliases : list str :=
  Eval cbv in
    [lit "one_click_optimize"; lit "one-click-optimize"; lit "one_click";
     lit "oneclick"; lit "optimize_xmind"].

Definition header_format : str := Eval cbv in lit "header".
Definition file_name : str := Eval cbv in lit "file".
Definition md_suffix : str := Eval cbv in lit ".md".
Definition list_md_suffix : str := Eval cbv in lit "_list.md".
Definition xmind_suffix : str := Eval cbv in lit ".xmind".
(** U+FF08 U+8F6C U+6362 U+7248 U+FF09 and [.md] *)
Definition converted_suffix : str :=
  [65288; 36716; 25442; 29256; 65289]%N ++ md_suffix.
(** U+FF08 U+4F18 U+5316 U+7248 U+FF09 and [.xmind] *)
Definition optimized_suffix : str :=
  [65288; 20248; 21270; 29256; 65289]%N ++ xmind_suffix.

(** [/^[\x00-\x7F]+$/] *)
Definition ascii_only_re : regex :=
  rseq [plus (fun c => N.leb c 127); REnd].

(** The class of the pattern of line 531: backslash, slash, colon, star,
    question mark, double quote, the angle brackets and the bar. *)
Definition forbidden (c : char) : bool :=
  N.eqb c 92 || N.eqb c 47 || N.eqb c 58 || N.eqb c 42 || N.eqb c 63
  || N.eqb c 34 || N.eqb c 60 || N.eqb c 62 || N.eqb c 124.

(** The class of [/[^\x00-\x7F]/g]. *)
Definition non_ascii (c : char) : bool := negb (N.leb c 127).

Definition underscore : str := Eval cbv in lit "_".

(** [lastFilename.replace(re, '_')], [re] the global pattern of the
    class [forbidden]. *)
Definition safeFilename (name : str) : str :=
  replace_all (RClass forbidden) underscore name.

(** [safeFilename.replace(/[^\x00-\x7F]/g, '_')] *)
Definition asciiFallback (name : str) : str :=
  replace_all (RClass non_ascii) underscore (safeFilename name).

(** What [/api/download] sends. *)
Inductive payload : Type :=
| Binary (b : archive)
| TextBody (t : str).

(** Status 410, or the attachment: the two file names of the
    [Content-Disposition] header, the [Content-Type] header and the
    body. *)
Inductive download_reply : Type :=
| Gone
| Attachment (fallback encoded contentType : str) (body : payload).

Section Handlers.
Variable toLowerCase : str -> str.
(** [Buffer.from(name, 'latin1').toString('utf8')] *)
Variable latin1_to_utf8 : str -> str.
(** [path.parse(name).name] *)
Variable path_name : str -> str.
(** [buffer.toString('utf-8')] *)
Variable utf8_text : list N -> str.
(** [JSZip.loadAsync(buffer)]; [None] when it rejects. *)
Variable loadAsync : list N -> option archive.
Variable JSON_parse : str -> option data.
Variable JSON_stringify : document -> str.
Variable encodeURIComponent : str -> str.

(** [normalizeFilename]; nothing in its body throws. *)
Definition normalizeFilename (name : str) : str :=
  if negb (truthy name) then name
  else
    match exec_here ascii_only_re name with
    | Some _ => name
    | None =>
        let converted := latin1_to_utf8 name in
        if bool_decide (65533%N ∈ converted) then name else converted
    end.

(** [(Array.isArray(directionRaw) ? directionRaw[0]
       : String(directionRaw || '')).toLowerCase().trim()];
    [None]: the array is empty and the call throws. *)
Definition direction_of (directionRaw : option field) : option str :=
  match directionRaw with
  | None => Some (trim (toLowerCase []))
  | Some (FString s) => Some (trim (toLowerCase s))
  | Some (FArray (x :: _)) => Some (trim (toLowerCase x))
  | Some (FArray []) => None
  end.

(** [(req.body.format || 'header').trim()]; [None]: the field is an
    array, which has no [trim]. *)
Definition format_of (format : option field) : option str :=
  match format with
  | None => Some (trim header_format)
  | Some (FString s) => Some (trim (or_else s header_format))
  | Some (FArray _) => None
  end.

(** [await xmindZipToMarkdown(req.file.buffer, format)] *)
Definition to_markdown (buf : list N) (format : str) : exn + str :=
  match loadAsync buf with
  | Some z =>
      match xmindZipToMarkdown JSON_parse z format with
      | Ok md => inr md
      | Err e => inl (ReaderError e)
      end
  | None => inl BadArchive
  end.

(** [await buildXMindZipFromStructure(parseMarkdownToStructure(text))].
    The parser always returns a tree ([parseMarkdownToStructure_total]);
    the model of the parser needs the second branch. *)
Definition to_package (ids : nat -> str) (text : str) : option archive :=
  match parseMarkdownToStructure text with
  | Some struct => Some (buildXMindZipFromStructure JSON_stringify ids struct)
  | None => None
  end.

(** The handler of [/api/convert]: the variables afterwards and the
    reply. *)
Definition convert (c : cache) (req : request) : cache * reply :=
  match direction_of (r_direction req) with
  | None => (c, Failure (Thrown TypeError))
  | Some direction =>
  match format_of (r_format req) with
  | None => (c, Failure (Thrown TypeError))
  | Some format =>
  match r_file req with
  | None => (c, Failure NoFile)
  | Some file =>
      let originalNameRaw := or_else (originalname file) file_name in
      let originalName := normalizeFilename originalNameRaw in
      let base := path_name originalName in
      if bool_decide (direction = xmind_to_md) then
        match to_markdown (buffer file) format with
        | inr md =>
            let filename :=
              base ++ (if bool_decide (format = list_format)
                       then list_md_suffix else md_suffix) in
            (Cache (lastBinary c) (Some filename) (Some md) markdown_type,
             Success (Some md) filename)
        | inl e => (c, Failure (Thrown e))
        end
      else if bool_decide (direction = md_to_md) then
        let text := utf8_text (buffer file) in
        let converted := convertMdToMd text in
        let filename := base ++ converted_suffix in
        (Cache (lastBinary c) (Some filename) (Some converted) markdown_type,
         Success (Some converted) filename)
      else if bool_decide (direction = md_to_xmind) then
        let text := utf8_text (buffer file) in
        match to_package (r_ids req) text with
        | Some buffer =>
            let filename := base ++ xmind_suffix in
            (Cache (Some buffer) (Some filename) None (lastContentType c),
             Success None filename)
        | None => (c, Failure (Thrown TypeError))
        end
      else if bool_decide (direction ∈ one_click_aliases) then
        match to_markdown (buffer file) header_format with
        | inr md =>
            let optimizedMd := convertMdToMd md in
            match to_package (r_ids req) optimizedMd with
            | Some buffer =>
                let filename := base ++ optimized_suffix in
                (Cache (Some buffer) (Some filename) None (lastContentType c),
                 Success None filename)
            | None => (c, Failure (OptimizeFailed TypeError))
            end
        | inl e => (c, Failure (OptimizeFailed e))
        end
      else (c, Failure (UnknownDirection direction))
  end end end.

(** The handler of [/api/download]. *)
Definition download (c : cache) : download_reply :=
  match lastFilename c with
  | None => Gone
  | Some name =>
      if negb (truthy name) then Gone
      else
        let fallback := asciiFallback name in
        let encoded := encodeURIComponent (safeFilename name) in
        match lastBinary c with
        | Some b => Attachment fallback encoded octet_stream (Binary b)
        | None =>
            match lastTextBuffer c with
            | Some t =>
                Attachment fallback encoded
                  (or_else (lastContentType c) plain_type) (TextBody t)
            | None => Gone
            end
        end
  end.

(** The variables after a sequence of conversions. *)
Definition serve (c : cache) (reqs : list request) : cache :=
  foldl (fun c req => fst (convert c req)) c reqs.

End Handlers.

End Server.
Export Server.

(** *** Vocabulary for the identifiers of a package *)

Module Identifiers.

(** The [id] of a topic and of the topics below it, in document order. *)
Fixpoint topic_ids (t : topic) : list (option str) :=
  t_id t :: fold_children (fun acc child => acc ++ topic_ids child) [] t.

End Identifiers.
Export Identifiers.

(** *** Vocabulary for the order of the nodes *)

Module Order.

(** The titles of a tree, depth first, the root first. *)
Definition preorder (n : node) : list str := map fst (depths 0 n).

(** The titles of the heading lines and bullet lines of a text, in the
    order of the lines, the first level-1 heading line left out ([found]
    tells whether it has been met). *)
Fixpoint outline (found : bool) (lines : list str) : list str :=
  match lines with
  | [] => []
  | raw :: rest =>
      let line := clean raw in
      if negb (truthy (trim line)) then outline found rest
      else
        match match_heading (trim line) with
        | Some (level, h2) =>
            if (level =? 1) && negb found then outline true rest
            else trim h2 :: outline found rest
        | None =>
            match match_bullet line with
            | Some (_, l3) => trim l3 :: outline found rest
            | None => outline found rest
            end
        end
  end.

(** A line of plain text: not blank, neither a heading nor a bullet. *)
Definition is_text (raw : str) : bool :=
  truthy (trim (clean raw))
  && match match_heading (trim (clean raw)) with Some _ => false | None => true end
  && match match_bullet (clean raw) with Some _ => false | None => true end.

(** [stack] holds references along the last children of [n], from the
    root of [n], which is cell [k]. *)
Fixpoint on_spine (stack : list nat) (k : nat) (n : node) : Prop :=
  match stack with
  | [] => True
  | r :: rest =>
      r = k /\
      match rest with
      | [] => True
      | _ :: _ =>
          exists cs c, children n = cs ++ [c] /\
                       on_spine rest (S k + list_sum (map size cs)) c
      end
  end.

(** The store is the tree in document order and the stack runs along its
    last children. *)
Definition spine_state (st : pstate) : Prop :=
  exists n, heap st = layout 0 n /\ on_spine (pathStack st) 0 n.

(** The entry on top of the stack, when it is not the root, has no
    children. *)
Definition leaf_top (st : pstate) : Prop :=
  1 < length (pathStack st) ->
  exists c, heap st !! top (pathStack st) = Some c /\ c_children c = [].

End Order.
Export Order.

(** * Properties *)

(** ** Strings *)

Section StrFacts.
Implicit Types (s t : str) (c : char).

Lemma trimStart_app_ws s : exists w, s = w ++ trimStart s /\ forallb is_ws w = true.
Proof.
  induction s as [|c s [w [IH1 IH2]]]; simpl.
  - exists []. auto.
  - destruct (is_ws c) eqn:E.
    + exists (c :: w). simpl. rewrite E, IH2. split; [congruence | reflexivity].
    + exists []. auto.
Qed.

Lemma trimStart_head s c t : trimStart s = c :: t -> is_ws c = false.
Proof.
  induction s as [|d s IH]; simpl; [discriminate|].
  destruct (is_ws d) eqn:E; [assumption|].
  intros [= -> _]. assumption.
Qed.

Lemma trimStart_fix s c t : is_ws c = false -> trimStart (c :: t) = c :: t.
Proof. intros E. simpl. rewrite E. reflexivity. Qed.

Lemma trimStart_idem s : trimStart (trimStart s) = trimStart s.
Proof.
  destruct (trimStart s) as [|c t] eqn:E; [reflexivity|].
  apply (trimStart_fix s). eapply trimStart_head; eauto.
Qed.

Lemma trimStart_all_ws w : forallb is_ws w = true -> trimStart w = [].
Proof.
  induction w as [|c w IH]; simpl; [reflexivity|].
  destruct (is_ws c); simpl; [assumption | discriminate].
Qed.

Lemma trimStart_app_keep s t c u :
  trimStart s = c :: u -> trimStart (s ++ t) = trimStart s ++ t.
Proof.
  induction s as [|d s IH]; simpl; [discriminate|].
  destruct (is_ws d); [assumption | reflexivity].
Qed.

(** The last unit of a string [trimEnd] returns is not white space. *)
Lemma trimEnd_last s t c : trimEnd s = t ++ [c] -> is_ws c = false.
Proof.
  unfold trimEnd. intros H.
  apply (f_equal (@rev N)) in H. rewrite rev_involutive, rev_app_distr in H.
  simpl in H. eapply trimStart_head; eauto.
Qed.

Lemma trimEnd_snoc s c : is_ws c = false -> trimEnd (s ++ [c]) = s ++ [c].
Proof.
  intros E. unfold trimEnd. rewrite rev_app_distr. simpl. rewrite E.
  simpl. rewrite rev_involutive. reflexivity.
Qed.

Lemma trimEnd_nil : trimEnd [] = [].
Proof. reflexivity. Qed.

(** [trimEnd] keeps a prefix. *)
Lemma trimEnd_prefix s : exists w, s = trimEnd s ++ w /\ forallb is_ws w = true.
Proof.
  unfold trimEnd. destruct (trimStart_app_ws (rev s)) as [w [H1 H2]].
  exists (rev w). split.
  - rewrite <- rev_app_distr, <- H1, rev_involutive. reflexivity.
  - rewrite forallb_forall in *. intros x Hx. apply H2.
    apply in_rev. assumption.
Qed.

Lemma trimStart_skip w s : forallb is_ws w = true -> trimStart (w ++ s) = trimStart s.
Proof.
  induction w as [|c w IH]; simpl; [reflexivity|].
  destruct (is_ws c); simpl; [assumption | discriminate].
Qed.

Lemma forallb_rev (p : char -> bool) w : forallb p (rev w) = forallb p w.
Proof.
  induction w as [|c w IH]; simpl; [reflexivity|].
  rewrite forallb_app, IH. simpl. rewrite andb_true_r. apply andb_comm.
Qed.

(** [trimEnd] is determined by: a prefix, followed by white space only,
    that does not end with white space. *)
Lemma trimEnd_spec s t w :
  s = t ++ w -> forallb is_ws w = true ->
  (t = [] \/ exists u d, t = u ++ [d] /\ is_ws d = false) ->
  trimEnd s = t.
Proof.
  intros -> Hw Ht. unfold trimEnd. rewrite rev_app_distr.
  rewrite trimStart_skip by (rewrite forallb_rev; assumption).
  destruct Ht as [-> | (u & d & -> & Hd)]; [reflexivity|].
  rewrite rev_app_distr. simpl. rewrite Hd. simpl.
  rewrite rev_involutive. reflexivity.
Qed.

Lemma trimEnd_cons_keep c s :
  is_ws c = false -> trimEnd (c :: s) = c :: trimEnd s.
Proof.
  intros E. destruct (trimEnd_prefix s) as [w [H1 H2]].
  apply (trimEnd_spec _ _ w); [simpl; congruence | assumption |].
  right. destruct (trimEnd s) as [|d u _] eqn:Eu using rev_ind.
  - exists [], c. auto.
  - exists (c :: u), d. split; [reflexivity|]. eapply trimEnd_last; eauto.
Qed.

(** A string that starts and ends with units that are not white space is
    its own [trim]. *)
Lemma trim_fix c s :
  is_ws c = false ->
  (forall u d, c :: s = u ++ [d] -> is_ws d = false) ->
  trim (c :: s) = c :: s.
Proof.
  intros Hc Hlast. unfold trim. rewrite (trimStart_fix [] c s Hc).
  destruct (c :: s) as [|d u] eqn:E using rev_ind; [discriminate|].
  apply trimEnd_snoc. eapply Hlast. reflexivity.
Qed.

Lemma trim_nil : trim [] = [].
Proof. reflexivity. Qed.

(** What [trim] returns starts and ends with units that are not white
    space. *)
Lemma trim_head s c t : trim s = c :: t -> is_ws c = false.
Proof.
  unfold trim. intros H.
  destruct (trimStart s) as [|d u] eqn:E; [discriminate|].
  pose proof (trimStart_head _ _ _ E) as Hd.
  rewrite (trimEnd_cons_keep d u Hd) in H. congruence.
Qed.

Lemma trim_last s t c : trim s = t ++ [c] -> is_ws c = false.
Proof. unfold trim. apply trimEnd_last. Qed.

Lemma trim_idem s : trim (trim s) = trim s.
Proof.
  destruct (trim s) as [|c t] eqn:E; [reflexivity|].
  apply trim_fix.
  - eapply trim_head; eauto.
  - intros u d Hu. rewrite Hu in E. eapply trim_last; eauto.
Qed.

(** [trim] returns a segment of its argument. *)
Lemma trim_segment s : exists w1 w2,
  s = w1 ++ trim s ++ w2 /\ forallb is_ws w1 = true /\ forallb is_ws w2 = true.
Proof.
  unfold trim. destruct (trimStart_app_ws s) as [w1 [H1 H2]].
  destruct (trimEnd_prefix (trimStart s)) as [w2 [H3 H4]].
  exists w1, w2. split; [|auto]. rewrite <- H3. assumption.
Qed.

End StrFacts.

(** ** Regular expressions: what a successful run means *)

Section RegexFacts.
Lemma matches_suffix r : forall s s' caps,
  matches r s s' caps -> exists m, s = m ++ s'.
Proof.
  induction r as [p|p lo hi g|r1 IH1 r2 IH2|r IH| |]; simpl; intros s s' caps H.
  - destruct H as [[c [-> _]] _]. exists [c]. reflexivity.
  - destruct H as [[m [-> _]] _]. exists m. reflexivity.
  - destruct H as (s1 & c1 & c2 & H1 & H2 & _).
    destruct (IH1 _ _ _ H1) as [m1 ->]. destruct (IH2 _ _ _ H2) as [m2 ->].
    exists (m1 ++ m2). rewrite app_assoc. reflexivity.
  - destruct H as (c1 & m & _ & -> & _). exists m. reflexivity.
  - destruct H as [-> _]. exists []. reflexivity.
  - destruct H as [[-> ->] _]. exists []. reflexivity.
Qed.


Lemma rep_greedy_sound {A : Type} p : forall s lo hi (k : str -> option A) x,
  rep_greedy p lo hi s k = Some x ->
  exists m s', s = m ++ s' /\ forallb p m = true /\ lo <= length m /\
    match hi with Some h => length m <= h | None => True end /\
    k s' = Some x.
Proof.
  induction s as [|c s IH]; intros lo hi k x H.
  - assert (H0 : match lo with 0 => k [] | S _ => None end = Some x).
    { simpl in H. destruct (hi_zero hi); assumption. }
    destruct lo; [|discriminate].
    exists [], []. repeat split; auto. destruct hi; simpl; lia.
  - simpl in H.
    assert (Hstop : match lo with 0 => k (c :: s) | S _ => None end = Some x ->
      exists m s', c :: s = m ++ s' /\ forallb p m = true /\ lo <= length m /\
        match hi with Some h => length m <= h | None => True end /\
        k s' = Some x).
    { intros H0. destruct lo; [|discriminate].
      exists [], (c :: s). repeat split; auto. destruct hi; simpl; lia. }
    destruct (hi_zero hi) eqn:Hz; [auto|].
    destruct (p c) eqn:Hp; [|auto].
    destruct (rep_greedy p (pred lo) (hi_pred hi) s k) eqn:Hr; [|auto].
    injection H as ->.
    destruct (IH _ _ _ _ Hr) as (m & s' & -> & Hm & Hlo & Hhi & Hk).
    exists (c :: m), s'. simpl. rewrite Hp, Hm.
    repeat split; auto; [lia|].
    destruct hi as [[|h]|]; simpl in *; try discriminate; auto. lia.
Qed.

Lemma rep_lazy_sound {A : Type} p : forall s lo hi (k : str -> option A) x,
  rep_lazy p lo hi s k = Some x ->
  exists m s', s = m ++ s' /\ forallb p m = true /\ lo <= length m /\
    match hi with Some h => length m <= h | None => True end /\
    k s' = Some x.
Proof.
  induction s as [|c s IH]; intros lo hi k x H.
  - simpl in H.
    assert (Hmore : (if hi_zero hi then None else None) = Some x -> False)
      by (destruct (hi_zero hi); discriminate).
    destruct lo; [|exfalso; auto].
    destruct (k []) eqn:Hk; [|exfalso; auto]. injection H as ->.
    exists [], []. repeat split; auto. destruct hi; simpl; lia.
  - simpl in H.
    assert (Hmore :
      (if hi_zero hi then None
       else if p c then rep_lazy p (pred lo) (hi_pred hi) s k else None)
      = Some x ->
      exists m s', c :: s = m ++ s' /\ forallb p m = true /\ lo <= length m /\
        match hi with Some h => length m <= h | None => True end /\
        k s' = Some x).
    { intros H0. destruct (hi_zero hi) eqn:Hz; [discriminate|].
      destruct (p c) eqn:Hp; [|discriminate].
      destruct (IH _ _ _ _ H0) as (m & s' & -> & Hm & Hlo & Hhi & Hk).
      exists (c :: m), s'. simpl. rewrite Hp, Hm.
      repeat split; auto; [lia|].
      destruct hi as [[|h]|]; simpl in *; try discriminate; auto. lia. }
    destruct lo; [|auto].
    destruct (k (c :: s)) eqn:Hk; [|auto]. injection H as ->.
    exists [], (c :: s). repeat split; auto. destruct hi; simpl; lia.
Qed.

(** Soundness of the matcher. *)
Lemma run_sound r : forall {A : Type} s caps0 (k : str -> list str -> option A) x,
  run r s caps0 k = Some x ->
  exists s' caps, matches r s s' caps /\ k s' (caps0 ++ caps) = Some x.
Proof.
  induction r as [p|p lo hi g|r1 IH1 r2 IH2|r IH| |];
    intros A s caps0 k x H; simpl in H.
  - destruct s as [|c s]; [discriminate|].
    destruct (p c) eqn:Hp; [|discriminate].
    exists s, []. rewrite app_nil_r. simpl. eauto 6.
  - assert (Hs : exists m s', s = m ++ s' /\ forallb p m = true /\
        lo <= length m /\
        match hi with Some h => length m <= h | None => True end /\
        k s' caps0 = Some x).
    { destruct g; [eapply rep_greedy_sound | eapply rep_lazy_sound];
        exact H. }
    destruct Hs as (m & s' & -> & Hm & Hlo & Hhi & Hk).
    exists s', []. rewrite app_nil_r. simpl. eauto 8.
  - destruct (IH1 _ _ _ _ _ H) as (s1 & c1 & M1 & H1).
    destruct (IH2 _ _ _ _ _ H1) as (s2 & c2 & M2 & H2).
    exists s2, (c1 ++ c2). rewrite app_assoc. simpl. eauto 8.
  - destruct (IH _ _ _ _ _ H) as (s' & c1 & M1 & H1).
    destruct (matches_suffix _ _ _ _ M1) as [m Hm].
    exists s', (c1 ++ [m]). split.
    + simpl. eauto.
    + rewrite app_assoc. rewrite <- H1. repeat f_equal.
      rewrite Hm, length_app. replace (length m + length s' - length s')
        with (length m) by lia.
      rewrite take_app_length. reflexivity.
  - exists s, []. rewrite app_nil_r. simpl. auto.
  - destruct s; [|discriminate]. exists [], []. rewrite app_nil_r.
    simpl. auto.
Qed.

End RegexFacts.

Lemma exec_here_sound r s m :
  exec_here r s = Some m ->
  matches r s (after m) (groups m) /\ s = whole m ++ after m.
Proof.
  unfold exec_here. intros H.
  destruct (run_sound _ _ _ _ _ H) as (s' & caps & M & Hk).
  simpl in Hk. injection Hk as <-. simpl. split; [assumption|].
  destruct (matches_suffix _ _ _ _ M) as [w ->].
  rewrite length_app. replace (length w + length s' - length s') with (length w) by lia.
  rewrite take_app_length. reflexivity.
Qed.

Lemma exec_sound r : forall s pre m,
  exec r s = Some (pre, m) ->
  s = pre ++ whole m ++ after m /\ matches r (whole m ++ after m) (after m) (groups m).
Proof.
  induction s as [|c s IH]; intros pre m H; simpl in H.
  - destruct (exec_here r []) eqn:E; [|discriminate]. injection H as <- <-.
    destruct (exec_here_sound _ _ _ E) as [M Hs]. rewrite <- Hs. auto.
  - destruct (exec_here r (c :: s)) eqn:E.
    + injection H as <- <-.
      destruct (exec_here_sound _ _ _ E) as [M Hs]. rewrite <- Hs. auto.
    + destruct (exec r s) as [[pre' m']|] eqn:E'; [|discriminate].
      injection H as <- <-. destruct (IH _ _ eq_refl) as [Hs M].
      split; [|assumption]. simpl. congruence.
Qed.

(** ** Line patterns *)

Lemma forallb_chr_repeat c m : forallb (chr c) m = true -> m = str_repeat [c] (length m).
Proof.
  induction m as [|d m IH]; simpl; [reflexivity|].
  intros H. apply andb_prop in H as [Hd Hm]. unfold chr in Hd.
  apply N.eqb_eq in Hd. subst d. f_equal. auto.
Qed.

(** A heading line is 1 to 6 hashes, white space, and a text without line
    terminators. *)
Lemma match_heading_shape s level h2 :
  match_heading s = Some (level, h2) ->
  exists w, s = str_repeat [HASH] level ++ w ++ h2 /\
    1 <= level <= 6 /\
    w <> [] /\ forallb is_ws w = true /\
    h2 <> [] /\ forallb dot h2 = true.
Proof.
  unfold match_heading. destruct (exec_here heading_re s) as [m|] eqn:E; [|discriminate].
  destruct (exec_here_sound _ _ _ E) as [M Hs].
  destruct (groups m) as [|g1 [|g2 [|g3 gs]]] eqn:Eg; try discriminate.
  intros [= <- <-]. simpl in M.
  destruct M as (s1 & c1 & c2 & (c1' & m1 & [(h & Hh & Hp & Hlo & Hhi) ->] & Hm1 & ->) & M & Hc).
  destruct M as (s2 & c3 & c4 & [(w & -> & Hw & Hwlo & _) ->] & M & ->).
  destruct M as (s3 & c5 & c6 & (c5' & m2 & [(t & Ht & Htd & Htlo & _) ->] & Hm2 & ->) & M & ->).
  destruct M as (s4 & c7 & c8 & [[-> ->] ->] & [Ha ->] & ->).
  simpl in Hc. injection Hc as -> ->.
  rewrite Hh in Hm1. apply app_inv_tail in Hm1. subst h.
  rewrite app_nil_r in Ht, Hm2. subst t. subst s2.
  exists w. rewrite (forallb_chr_repeat _ _ Hp) in Hh.
  split; [assumption|]. split; [lia|].
  split; [intros ->; simpl in Hwlo; lia|]. split; [assumption|].
  split; [intros ->; simpl in Htlo; lia | assumption].
Qed.

(** A bullet line is white space, a marker, white space, and a text
    without line terminators; the first group is the leading white
    space. *)
Lemma match_bullet_shape s indent l3 :
  match_bullet s = Some (indent, l3) ->
  exists w1 mk w2, s = w1 ++ mk :: w2 ++ l3 /\
    indent = length w1 /\ forallb is_ws w1 = true /\
    is_marker mk = true /\
    w2 <> [] /\ forallb is_ws w2 = true /\
    l3 <> [] /\ forallb dot l3 = true.
Proof.
  unfold match_bullet. destruct (exec_here bullet_re s) as [m|] eqn:E; [|discriminate].
  destruct (exec_here_sound _ _ _ E) as [M Hs].
  destruct (groups m) as [|g1 [|g2 [|g3 [|g4 gs]]]] eqn:Eg; try discriminate.
  intros [= <- <-]. simpl in M.
  destruct M as (s1 & c1 & c2 & (c1' & m1 & [(w1 & Hw1 & Hp1 & _ & _) ->] & Hm1 & ->) & M & Hc).
  destruct M as (s2 & c3 & c4 & (c3' & m2 & [(mk & -> & Hmk) ->] & Hm2 & ->) & M & ->).
  destruct M as (s3 & c5 & c6 & [(w2 & -> & Hw2 & Hw2lo & _) ->] & M & ->).
  destruct M as (s4 & c7 & c8 & (c7' & m3 & [(t & Ht & Htd & Htlo & _) ->] & Hm3 & ->) & M & ->).
  destruct M as (s5 & c9 & c10 & [[-> ->] ->] & [Ha ->] & ->).
  simpl in Hc. injection Hc as -> -> ->.
  rewrite Hw1 in Hm1. apply app_inv_tail in Hm1. subst w1.
  rewrite app_nil_r in Ht, Hm3. subst t.
  exists m1, mk, w2. subst s3.
  split; [assumption|]. split; [reflexivity|]. split; [assumption|].
  split; [assumption|].
  split; [intros ->; simpl in Hw2lo; lia|]. split; [assumption|].
  split; [intros ->; simpl in Htlo; lia | assumption].
Qed.

(** ** The parser *)

Lemma match_heading_nonblank s level h2 :
  match_heading s = Some (level, h2) -> s <> [].
Proof.
  intros H. destruct (match_heading_shape _ _ _ H) as (w & -> & [Hl _] & _).
  destruct level; [lia|]. discriminate.
Qed.

Lemma truthy_true (s : str) : s <> [] -> truthy s = true.
Proof. destruct s; [congruence | reflexivity]. Qed.

Lemma truthy_false (s : str) : truthy s = false -> s = [].
Proof. destruct s; [reflexivity | discriminate]. Qed.

(** On a heading line the loop takes the heading branch. *)
Lemma step_heading st raw level h2 :
  match_heading (trim (clean raw)) = Some (level, h2) ->
  step st raw = on_heading level (trim h2) st.
Proof.
  intros H. unfold step.
  rewrite (truthy_true _ (match_heading_nonblank _ _ _ H)). simpl.
  rewrite H. reflexivity.
Qed.

Lemma heading_depth_eq level :
  1 <= level -> heading_depth level = if level =? 1 then 1 else level - 1.
Proof.
  intros H. unfold heading_depth.
  destruct (level =? 1) eqn:E; [reflexivity|].
  apply Nat.eqb_neq in E.
  destruct (level - 1 <? 1) eqn:E2; [|reflexivity].
  apply Nat.ltb_lt in E2. lia.
Qed.

Lemma wf_initial : wf_state initial.
Proof.
  split; [exists []; reflexivity|]. split.
  - repeat constructor.
  - intros [|i] c H; simpl in H; [|discriminate].
    injection H as <-. constructor.
Qed.

Lemma top_kept st d :
  wf_state st -> 1 <= d ->
  take d (pathStack st) <> [] /\ top (take d (pathStack st)) < length (heap st).
Proof.
  intros ([rest Hs] & Hb & _) Hd. rewrite Hs in *.
  destruct d; [lia|]. simpl. split; [discriminate|].
  unfold top.
  destruct (last (structure :: take d rest)) as [r|] eqn:E.
  - simpl. apply last_Some_elem_of in E.
    change (structure :: take d rest) with (take (S d) (structure :: rest)) in E.
    apply (subseteq_take (S d)) in E.
    rewrite Forall_forall in Hb. apply Hb. assumption.
  - apply last_None in E. discriminate.
Qed.

Lemma wf_insert_node st d t :
  wf_state st -> 1 <= d -> wf_state (insert_node d t st).
Proof.
  intros Hwf Hd. destruct (top_kept st d Hwf Hd) as [Hne Htop].
  destruct Hwf as ([rest Hs] & Hb & Hc).
  unfold insert_node.
  destruct (take d (pathStack st)) as [|x kept] eqn:Ek; [congruence|].
  assert (Hx : x = structure).
  { rewrite Hs in Ek. destruct d; [lia|]. simpl in Ek. congruence. }
  subst x. split; [|split]; simpl.
  - exists (kept ++ [length (heap st)]). reflexivity.
  - rewrite length_alter, length_app. simpl.
    rewrite app_comm_cons. apply Forall_app. split.
    + assert (Hk : Forall (fun r => r < length (heap st)) (structure :: kept)).
      { rewrite <- Ek. apply Forall_take. assumption. }
      eapply Forall_impl; [exact Hk|]. simpl. intros. lia.
    + repeat constructor. lia.
  - intros i c. rewrite length_alter, length_app. simpl.
    set (p := top (structure :: kept)) in *.
    destruct (decide (p = i)) as [<-|Hne'].
    + rewrite list_lookup_alter_eq, lookup_app_l by assumption.
      destruct (heap st !! p) as [c0|] eqn:E0; simpl; [|discriminate].
      intros [= <-]. simpl. apply Forall_app. split.
      * eapply Forall_impl; [exact (Hc _ _ E0)|]. simpl. intros. lia.
      * repeat constructor; lia.
    + rewrite list_lookup_alter_ne by assumption.
      intros H. apply lookup_app_Some in H as [H|[Hge H]].
      * eapply Forall_impl; [exact (Hc _ _ H)|]. simpl. intros. lia.
      * destruct (i - length (heap st)) as [|n] eqn:En; simpl in H; [|discriminate].
        injection H as <-. constructor.
Qed.

Lemma wf_on_heading st level t :
  wf_state st -> 1 <= level -> wf_state (on_heading level t st).
Proof.
  intros Hwf Hl. unfold on_heading.
  destruct ((level =? 1) && negb (firstH1Found st)).
  - destruct Hwf as ([rest Hs] & Hb & Hc). split; [|split]; simpl.
    + rewrite Hs. exists []. reflexivity.
    + rewrite length_alter. apply Forall_take. assumption.
    + intros i c. rewrite length_alter.
      destruct (decide (structure = i)) as [<-|Hne].
      * rewrite list_lookup_alter_eq.
        destruct (heap st !! structure) as [c0|] eqn:E0; simpl; [|discriminate].
        intros [= <-]. simpl. exact (Hc _ _ E0).
      * rewrite list_lookup_alter_ne by assumption. apply Hc.
  - apply wf_insert_node; [assumption|].
    rewrite heading_depth_eq by assumption.
    destruct (level =? 1) eqn:E; [lia|]. apply Nat.eqb_neq in E. lia.
Qed.

Lemma wf_on_text st line : wf_state st -> wf_state (on_text line st).
Proof.
  intros Hwf. unfold on_text.
  destruct (1 <? length (pathStack st)); [|assumption].
  set (p := top (pathStack st)).
  destruct (heap st !! p) as [c0|] eqn:E0; [|assumption].
  pose proof (lookup_lt_Some _ _ _ E0) as Hp.
  destruct Hwf as ([rest Hs] & Hb & Hc).
  destruct (c_children c0) as [|k ks] eqn:Ek.
  - split; [|split]; simpl.
    + eauto.
    + rewrite length_alter. assumption.
    + intros i c. rewrite length_alter.
      destruct (decide (p = i)) as [<-|Hne].
      * rewrite list_lookup_alter_eq, E0. simpl. intros [= <-]. simpl.
        exact (Hc _ _ E0).
      * rewrite list_lookup_alter_ne by assumption. apply Hc.
  - split; [|split]; simpl.
    + eauto.
    + rewrite length_alter, length_app. simpl.
      eapply Forall_impl; [exact Hb|]. simpl. intros. lia.
    + intros i c. rewrite length_alter, length_app. simpl.
      destruct (decide (p = i)) as [<-|Hne].
      * rewrite list_lookup_alter_eq, lookup_app_l, E0 by assumption. simpl.
        intros [= <-]. simpl. apply Forall_app. split.
        -- eapply Forall_impl; [exact (Hc _ _ E0)|]. simpl. intros. lia.
        -- repeat constructor; lia.
      * rewrite list_lookup_alter_ne by assumption.
        intros H. apply lookup_app_Some in H as [H|[Hge H]].
        -- eapply Forall_impl; [exact (Hc _ _ H)|]. simpl. intros. lia.
        -- destruct (i - length (heap st)) as [|n] eqn:En; simpl in H; [|discriminate].
           injection H as <-. constructor.
Qed.

Lemma wf_step st raw : wf_state st -> wf_state (step st raw).
Proof.
  intros Hwf. unfold step.
  destruct (negb (truthy (trim (clean raw)))); [assumption|].
  destruct (match_heading (trim (clean raw))) as [[level h2]|] eqn:E.
  - apply wf_on_heading; [assumption|].
    destruct (match_heading_shape _ _ _ E) as (_ & _ & Hl & _). lia.
  - destruct (match_bullet (clean raw)) as [[indent l3]|].
    + apply wf_insert_node; [assumption | lia].
    + apply wf_on_text. assumption.
Qed.

Lemma wf_run pre st : wf_state st -> wf_state (foldl step st pre).
Proof.
  revert st. induction pre as [|raw pre IH]; intros st H; simpl; [assumption|].
  apply IH, wf_step, H.
Qed.

Lemma wf_parse content : wf_state (parse content).
Proof. apply wf_run, wf_initial. Qed.

(** *** The first level-1 heading and the title of the root *)

Lemma root_title_alter f p (h : list cell) :
  (forall c, c_title (f c) = c_title c) ->
  c_title <$> alter f p h !! structure = c_title <$> h !! structure.
Proof.
  intros Hf. destruct (decide (p = structure)) as [->|Hne].
  - rewrite list_lookup_alter_eq. destruct (h !! structure); simpl; [|reflexivity].
    rewrite Hf. reflexivity.
  - rewrite list_lookup_alter_ne by assumption. reflexivity.
Qed.

Lemma root_title_insert_node st d t :
  wf_state st -> root_title (insert_node d t st) = root_title st.
Proof.
  intros ([rest Hs] & Hb & _). unfold root_title, insert_node. simpl.
  rewrite root_title_alter by reflexivity.
  rewrite Hs in Hb. inversion Hb as [|? ? H0 _]. subst.
  destruct (heap st) as [|c h] eqn:E; [simpl in H0; lia | reflexivity].
Qed.

Lemma root_title_on_text st line : root_title (on_text line st) = root_title st.
Proof.
  unfold root_title, on_text.
  destruct (1 <? length (pathStack st)) eqn:Hl; [|reflexivity].
  destruct (heap st !! top (pathStack st)) as [c0|] eqn:E0; [|reflexivity].
  destruct (c_children c0); simpl.
  - apply root_title_alter. reflexivity.
  - rewrite root_title_alter by reflexivity.
    apply lookup_lt_Some in E0. destruct (heap st); [simpl in E0; lia | reflexivity].
Qed.

Lemma firstH1Found_insert_node st d t :
  firstH1Found (insert_node d t st) = firstH1Found st.
Proof. reflexivity. Qed.

Lemma firstH1Found_on_text st line :
  firstH1Found (on_text line st) = firstH1Found st.
Proof.
  unfold on_text. destruct (1 <? length (pathStack st)); [|reflexivity].
  destruct (heap st !! top (pathStack st)) as [c0|]; [|reflexivity].
  destruct (c_children c0); reflexivity.
Qed.

(** Once the flag is set, a step keeps the flag and the title of the
    root. *)
Lemma step_after_h1 st raw :
  wf_state st -> firstH1Found st = true ->
  firstH1Found (step st raw) = true /\ root_title (step st raw) = root_title st.
Proof.
  intros Hwf Hf. unfold step.
  destruct (negb (truthy (trim (clean raw)))); [auto|].
  destruct (match_heading (trim (clean raw))) as [[level h2]|].
  - unfold on_heading. rewrite Hf, andb_false_r.
    rewrite firstH1Found_insert_node, root_title_insert_node; auto.
  - destruct (match_bullet (clean raw)) as [[indent l3]|].
    + unfold on_bullet.
      rewrite firstH1Found_insert_node, root_title_insert_node; auto.
    + rewrite firstH1Found_on_text, root_title_on_text. auto.
Qed.

Lemma run_after_h1 post : forall st,
  wf_state st -> firstH1Found st = true ->
  root_title (foldl step st post) = root_title st.
Proof.
  induction post as [|raw post IH]; intros st Hwf Hf; simpl; [reflexivity|].
  destruct (step_after_h1 st raw Hwf Hf) as [Hf' Ht].
  rewrite IH; auto using wf_step.
Qed.

(** The flag says whether a level-1 heading line has been seen. *)
Lemma firstH1Found_step st raw :
  firstH1Found (step st raw) = firstH1Found st || is_h1 raw.
Proof.
  unfold step, is_h1.
  destruct (truthy (trim (clean raw))) eqn:Hb; simpl.
  - destruct (match_heading (trim (clean raw))) as [[level h2]|].
    + unfold on_heading.
      destruct level as [|[|level]]; simpl;
        destruct (firstH1Found st) eqn:F; simpl; rewrite ?F; reflexivity.
    + rewrite orb_false_r.
      destruct (match_bullet (clean raw)) as [[indent l3]|];
        [reflexivity | apply firstH1Found_on_text].
  - apply truthy_false in Hb. rewrite Hb.
    change (match_heading []) with (@None (nat * str)).
    rewrite orb_false_r. reflexivity.
Qed.


(** *** The tree of a well-formed store *)

Lemma reify_total h :
  (forall i c, h !! i = Some c ->
     Forall (fun j => i < j < length h) (c_children c)) ->
  forall fuel r, r < length h -> length h - r <= fuel ->
  is_Some (reify fuel h r).
Proof.
  intros Hc. induction fuel as [|fuel IH]; intros r Hr Hf; [lia|].
  simpl. destruct (lookup_lt_is_Some_2 _ _ Hr) as [c E]. rewrite E.
  assert (Hk : is_Some (mapM (reify fuel h) (c_children c))).
  { apply mapM_is_Some_2. eapply Forall_impl; [exact (Hc _ _ E)|].
    simpl. intros j Hj. apply IH; lia. }
  destruct Hk as [kids ->]. eauto.
Qed.

Lemma reify_title fuel h r n :
  reify fuel h r = Some n -> c_title <$> h !! r = Some (title n).
Proof.
  destruct fuel; simpl; [discriminate|].
  destruct (h !! r) as [c|]; [|discriminate].
  destruct (mapM _ _); [|discriminate]. intros [= <-]. reflexivity.
Qed.

(** The parser always returns a tree. *)
Lemma parseMarkdownToStructure_total content :
  exists n, parseMarkdownToStructure content = Some n.
Proof.
  unfold parseMarkdownToStructure.
  destruct (wf_parse content) as ([rest Hs] & Hb & Hc).
  apply (reify_total _ Hc); [|lia].
  rewrite Hs in Hb. inversion Hb. assumption.
Qed.

(** *** Headings *)

Lemma insert_node_stack st d t :
  wf_state st -> 1 <= d ->
  take d (pathStack st) <> [] /\
  insert_node d t st =
    PState (alter (push_child (length (heap st)))
              (top (take d (pathStack st)))
              (heap st ++ [Cell t [] []]))
           (take d (pathStack st) ++ [length (heap st)])
           (firstH1Found st) /\
  length (pathStack (insert_node d t st)) = S (min d (length (pathStack st))).
Proof.
  intros Hwf Hd. destruct (top_kept st d Hwf Hd) as [Hne _].
  split; [assumption|]. unfold insert_node.
  destruct (take d (pathStack st)) as [|x kept] eqn:Ek; [congruence|].
  split; [reflexivity|]. simpl.
  rewrite length_app. simpl. rewrite Nat.add_1_r.
  change (S (length kept)) with (length (x :: kept)).
  rewrite <- Ek, length_take. reflexivity.
Qed.




(** *** Bullets *)

Lemma marker_not_ws c : is_marker c = true -> is_ws c = false.
Proof.
  unfold is_marker. intros H.
  repeat (apply orb_prop in H as [H|H]); apply N.eqb_eq in H; subst; reflexivity.
Qed.

Lemma marker_not_hash c : is_marker c = true -> c <> HASH.
Proof. intros H ->. discriminate. Qed.

(** The leading white space of a string is determined by the first unit
    that is not white space. *)
Lemma leading_ws_unique (w1 w2 : str) a b (x y : str) :
  w1 ++ a :: x = w2 ++ b :: y ->
  forallb is_ws w1 = true -> forallb is_ws w2 = true ->
  is_ws a = false -> is_ws b = false ->
  w1 = w2.
Proof.
  revert w2. induction w1 as [|c w1 IH]; intros [|d w2] H H1 H2 Ha Hb;
    simpl in *.
  - reflexivity.
  - injection H as -> _. apply andb_prop in H2 as [H2 _]. congruence.
  - injection H as -> _. apply andb_prop in H1 as [H1 _]. congruence.
  - injection H as -> H. apply andb_prop in H1 as [_ H1].
    apply andb_prop in H2 as [_ H2]. f_equal. eauto.
Qed.

Lemma trim_skip_ws w c (s : str) :
  forallb is_ws w = true -> is_ws c = false ->
  trim (w ++ c :: s) = c :: trimEnd s.
Proof.
  intros Hw Hc. unfold trim. rewrite trimStart_skip by assumption.
  simpl. rewrite Hc. apply trimEnd_cons_keep. assumption.
Qed.

(** A bullet line is not a heading line. *)
Lemma bullet_not_heading s indent l3 :
  match_bullet s = Some (indent, l3) -> match_heading (trim s) = None.
Proof.
  intros H.
  destruct (match_bullet_shape _ _ _ H) as (w1 & mk & w2 & -> & _ & Hw1 & Hmk & _).
  rewrite (trim_skip_ws _ _ _ Hw1 (marker_not_ws _ Hmk)).
  destruct (match_heading _) as [[level h2]|] eqn:E; [|reflexivity].
  destruct (match_heading_shape _ _ _ E) as (w & Hs & [Hl _] & _).
  destruct level; [lia|]. simpl in Hs. injection Hs as -> _.
  discriminate.
Qed.

Lemma bullet_nonblank s indent l3 :
  match_bullet s = Some (indent, l3) -> truthy (trim s) = true.
Proof.
  intros H.
  destruct (match_bullet_shape _ _ _ H) as (w1 & mk & w2 & -> & _ & Hw1 & Hmk & _).
  rewrite (trim_skip_ws _ _ _ Hw1 (marker_not_ws _ Hmk)). reflexivity.
Qed.

(** *** Plain text *)








(** ** The restructurer *)

Lemma collect_headers_app P : forall i Q,
  collect_headers i (P ++ Q)
  = collect_headers i P ++ collect_headers (i + length P) Q.
Proof.
  induction P as [|l P IH]; intros i Q; simpl.
  - rewrite Nat.add_0_r. reflexivity.
  - rewrite IH. replace (i + S (length P)) with (S i + length P) by lia.
    destruct (match_heading (trim l)) as [[lv t]|]; reflexivity.
Qed.

Lemma collect_headers_lines P : forall i,
  Forall (fun h : header => i <= fst (fst h) < i + length P)
         (collect_headers i P).
Proof.
  induction P as [|l P IH]; intros i; simpl; [constructor|].
  assert (H : Forall (fun h : header => i <= fst (fst h) < i + S (length P))
                (collect_headers (S i) P)).
  { eapply Forall_impl; [apply IH|]. simpl. intros. lia. }
  destruct (match_heading (trim l)) as [[lv t]|]; [|assumption].
  constructor; [simpl; lia | assumption].
Qed.

Lemma classify_skip headers front : forall j rest i,
  Forall (fun h : header => fst (fst h) <> i) front ->
  classify headers j (front ++ rest) i
  = classify headers (j + length front) rest i.
Proof.
  induction front as [|[[ln lv] t] front IH]; intros j rest i H; simpl.
  - rewrite Nat.add_0_r. reflexivity.
  - inversion H as [|? ? Hh Hf]; subst. simpl in Hh.
    destruct (ln =? i) eqn:E; [apply Nat.eqb_eq in E; congruence|].
    rewrite IH by assumption. f_equal. lia.
Qed.

Lemma classify_miss headers rest : forall j i,
  Forall (fun h : header => fst (fst h) <> i) rest ->
  classify headers j rest i = (false, false, []).
Proof.
  induction rest as [|[[ln lv] t] rest IH]; intros j i H; simpl; [reflexivity|].
  inversion H as [|? ? Hh Hf]; subst. simpl in Hh.
  destruct (ln =? i) eqn:E; [apply Nat.eqb_eq in E; congruence|].
  apply IH. assumption.
Qed.

Lemma findParentH2_app front : forall rest,
  findParentH2 (front ++ rest) (length front) = label_after front.
Proof.
  induction front as [|[[ln lv] t] front IH] using rev_ind; intros rest;
    [reflexivity|].
  rewrite length_app. simpl. rewrite Nat.add_1_r. simpl.
  rewrite <- app_assoc. simpl.
  rewrite list_lookup_middle by reflexivity.
  unfold label_after. rewrite foldl_app. simpl.
  destruct (lv =? 2); [reflexivity|]. apply IH.
Qed.

Lemma label_after_collect P : forall i,
  label_after (collect_headers i P) = section_label (rev P).
Proof.
  induction P as [|l P IH] using rev_ind; intros i; [reflexivity|].
  rewrite collect_headers_app, rev_app_distr. simpl.
  unfold label_after in *. rewrite foldl_app, IH.
  destruct (match_heading (trim l)) as [[lv t]|]; simpl; [|reflexivity].
  destruct (lv =? 2); reflexivity.
Qed.

(** The loops of [convertMdToMd] carry the current section label. *)
Lemma rebuild_relabel Q : forall P,
  rebuild (collect_headers 0 (P ++ Q)) (length P) Q
  = relabel (section_label (rev P)) Q.
Proof.
  induction Q as [|l Q IH]; intros P; [reflexivity|].
  simpl rebuild. simpl relabel.
  specialize (IH (P ++ [l])).
  rewrite <- app_assoc, length_app, Nat.add_1_r in IH. simpl in IH.
  rewrite IH. clear IH.
  rewrite rev_app_distr. simpl.
  rewrite collect_headers_app. simpl.
  rewrite classify_skip.
  2:{ eapply Forall_impl; [apply collect_headers_lines|]. simpl. intros. lia. }
  simpl.
  assert (Hrest : Forall (fun h : header => fst (fst h) <> length P)
                    (collect_headers (S (length P)) Q)).
  { eapply Forall_impl; [apply collect_headers_lines|]. simpl. intros. lia. }
  destruct (match_heading (trim l)) as [[lv t]|] eqn:E.
  - simpl. rewrite Nat.eqb_refl.
    rewrite findParentH2_app, label_after_collect.
    destruct (lv =? 2); [reflexivity|].
    destruct (lv =? 3); reflexivity.
  - rewrite classify_miss by assumption. reflexivity.
Qed.

Lemma convertMdToMd_relabel content :
  convertMdToMd content
  = str_join [LF] (relabel default_label (str_split LF content)).
Proof.
  unfold convertMdToMd.
  pose proof (rebuild_relabel (str_split LF content) []) as H. simpl in H.
  rewrite H. reflexivity.
Qed.

Lemma restructure_lines_relabel Q : forall P,
  restructure_lines P Q = relabel (section_label (rev P)) Q.
Proof.
  induction Q as [|l Q IH]; intros P; [reflexivity|].
  simpl. rewrite IH, rev_app_distr. simpl. unfold restructure_line.
  destruct (match_heading (trim l)) as [[lv t]|]; [|reflexivity].
  destruct (lv =? 2); [reflexivity|].
  destruct (lv =? 3); reflexivity.
Qed.

(** C3.  [convertMdToMd] rebuilds the document line by line: a level-2
    heading line is dropped; a level-3 heading line is kept, preceded by a
    synthesized level-2 heading line [## label] where [label] is the title
    of the nearest preceding level-2 heading line, [default_label] when
    there is none; every other line is kept as it is. *)
Theorem convertMdToMd_spec (content : str) :
  convertMdToMd content = restructureHeadings_spec content.
Proof.
  rewrite convertMdToMd_relabel. unfold restructureHeadings_spec.
  rewrite restructure_lines_relabel. reflexivity.
Qed.

(** *** Lines, [split] and [join] *)

Lemma str_split_nonempty sep s : str_split sep s <> [].
Proof.
  destruct s as [|c s]; simpl; [discriminate|].
  destruct (N.eqb c sep); [discriminate|].
  destruct (str_split sep s); discriminate.
Qed.

Lemma str_split_free sep s : Forall (fun l => ~ In sep l) (str_split sep s).
Proof.
  induction s as [|c s IH]; simpl.
  - repeat constructor. intros [].
  - destruct (N.eqb c sep) eqn:E.
    + constructor; [intros [] | assumption].
    + apply N.eqb_neq in E.
      destruct (str_split sep s) as [|l ls]; inversion IH; subst.
      * repeat constructor. intros [H|[]]. congruence.
      * constructor; [|assumption]. intros [H|H]; [congruence | auto].
Qed.

Lemma str_split_cons_free sep l s :
  ~ In sep l -> str_split sep (l ++ sep :: s) = l :: str_split sep s.
Proof.
  induction l as [|c l IH]; intros H; simpl.
  - rewrite N.eqb_refl. reflexivity.
  - destruct (N.eqb c sep) eqn:E.
    + apply N.eqb_eq in E. subst. exfalso. apply H. left. reflexivity.
    + rewrite IH; [reflexivity|]. intros Hin. apply H. right. assumption.
Qed.

Lemma str_split_single sep l : ~ In sep l -> str_split sep l = [l].
Proof.
  induction l as [|c l IH]; intros H; simpl; [reflexivity|].
  destruct (N.eqb c sep) eqn:E.
  - apply N.eqb_eq in E. subst. exfalso. apply H. left. reflexivity.
  - rewrite IH; [reflexivity|]. intros Hin. apply H. right. assumption.
Qed.

(** Splitting what [join] made of lines free of the separator gives the
    lines back, unless there was no line at all. *)
Lemma str_split_join sep ls :
  ls <> [] -> Forall (fun l => ~ In sep l) ls ->
  str_split sep (str_join [sep] ls) = ls.
Proof.
  induction ls as [|l ls IH]; intros Hne Hf; [congruence|].
  inversion Hf as [|? ? Hl Hls]; subst.
  destruct ls as [|l' ls].
  - simpl. apply str_split_single. assumption.
  - change (str_join [sep] (l :: l' :: ls))
      with (l ++ sep :: str_join [sep] (l' :: ls)).
    rewrite str_split_cons_free by assumption.
    rewrite IH; [reflexivity | discriminate | assumption].
Qed.

(** *** The synthesized heading line *)

Lemma rep_greedy_all {A : Type} p (k : str -> option A) x : forall s lo,
  forallb p s = true -> lo <= length s -> k [] = Some x ->
  rep_greedy p lo None s k = Some x.
Proof.
  induction s as [|c s IH]; intros lo Hp Hlo Hk; simpl in *.
  - destruct lo; [assumption | lia].
  - apply andb_prop in Hp as [Hc Hs]. rewrite Hc.
    rewrite (IH (pred lo)); [reflexivity | assumption | lia | assumption].
Qed.

Lemma dot_not_LF l : forallb dot l = true -> ~ In LF l.
Proof.
  induction l as [|c l IH]; simpl; [auto|].
  intros H Hin. apply andb_prop in H as [Hc Hl].
  destruct Hin as [->|Hin]; [discriminate | exact (IH Hl Hin)].
Qed.

Lemma good_label_head l :
  good_label l -> exists c t, l = c :: t /\ is_ws c = false.
Proof.
  intros (Hne & Ht & _). destruct l as [|c t]; [congruence|].
  exists c, t. split; [reflexivity|]. eapply trim_head. exact Ht.
Qed.

(** A line [## label] is a level-2 heading line with title [label]. *)
Lemma match_heading_synthesized l :
  good_label l ->
  trim (h2_prefix ++ l) = h2_prefix ++ l /\
  match_heading (h2_prefix ++ l) = Some (2, l).
Proof.
  intros Hg. destruct (good_label_head l Hg) as (c & t & -> & Hc).
  destruct Hg as (_ & Ht & Hd). split.
  - apply trim_fix; [reflexivity|].
    intros u d Hu.
    assert (Hl : last (h2_prefix ++ c :: t) = Some d).
    { change (h2_prefix ++ c :: t) with (35%N :: 35%N :: 32%N :: c :: t).
      rewrite Hu. apply last_snoc. }
    rewrite last_app in Hl.
    destruct (last (c :: t)) as [d'|] eqn:E.
    + injection Hl as ->. apply last_Some in E as [l' E].
      eapply (trim_last (c :: t)). rewrite Ht. exact E.
    + apply last_None in E. discriminate.
  - unfold match_heading, exec_here, heading_re. simpl.
    rewrite Hc. simpl in Hd. apply andb_prop in Hd as [Hdc Hdt]. rewrite Hdc.
    erewrite rep_greedy_all; [| exact Hdt | lia | reflexivity].
    simpl. replace (S (S (length t)) - length t) with 2 by lia.
    simpl. rewrite take_ge by lia. reflexivity.
Qed.

(** *** Idempotence *)

Lemma trim_nonblank (t : str) d :
  In d t -> is_ws d = false -> trim t <> [].
Proof.
  intros Hin Hd Ht. destruct (trim_segment t) as (w1 & w2 & Hs & H1 & H2).
  rewrite Ht in Hs. simpl in Hs. rewrite Hs in Hin.
  apply in_app_or in Hin.
  rewrite forallb_forall in H1, H2.
  destruct Hin as [Hin|Hin]; [apply H1 in Hin | apply H2 in Hin]; congruence.
Qed.

Lemma forallb_trim p (t : str) : forallb p t = true -> forallb p (trim t) = true.
Proof.
  intros H. destruct (trim_segment t) as (w1 & w2 & Hs & _).
  rewrite Hs, !forallb_app in H.
  apply andb_prop in H as [_ H]. apply andb_prop in H as [H _]. exact H.
Qed.

(** The title [convertMdToMd] records for a heading line is a good
    label. *)
Lemma heading_title_good line level t :
  match_heading (trim line) = Some (level, t) -> good_label (trim t).
Proof.
  intros H. destruct (match_heading_shape _ _ _ H) as (w & Hs & _ & _ & _ & Hne & Hd).
  split; [|split].
  - destruct t as [|d u _] using rev_ind; [congruence|].
    apply (trim_nonblank _ d); [apply in_or_app; right; left; reflexivity|].
    apply (trim_last line (str_repeat [HASH] level ++ w ++ u)).
    rewrite Hs, <- !app_assoc. reflexivity.
  - apply trim_idem.
  - apply forallb_trim. assumption.
Qed.

Lemma good_default_label : good_label default_label.
Proof. split; [discriminate|]. split; reflexivity. Qed.

Lemma relabel_cons cur line rest :
  relabel cur (line :: rest)
  = match match_heading (trim line) with
    | Some (level, t) =>
        if level =? 2 then relabel (trim t) rest
        else if level =? 3 then (h2_prefix ++ cur) :: line :: relabel cur rest
        else line :: relabel cur rest
    | None => line :: relabel cur rest
    end.
Proof. reflexivity. Qed.

Lemma relabel_idem ls : forall c c',
  good_label c' -> relabel c (relabel c' ls) = relabel c' ls.
Proof.
  induction ls as [|l ls IH]; intros c c' Hg; [reflexivity|].
  rewrite (relabel_cons c' l).
  destruct (match_heading (trim l)) as [[lv t]|] eqn:E.
  - destruct (lv =? 2) eqn:E2.
    + apply IH. eapply heading_title_good. exact E.
    + destruct (lv =? 3) eqn:E3.
      * destruct (match_heading_synthesized c' Hg) as [Ht Hm].
        rewrite (relabel_cons c (h2_prefix ++ c')), Ht, Hm.
        simpl Nat.eqb. cbv iota.
        destruct Hg as (Hne & Htrim & Hdot). rewrite Htrim.
        rewrite relabel_cons, E, E2, E3.
        rewrite IH; [reflexivity|]. repeat split; assumption.
      * rewrite relabel_cons, E, E2, E3.
        rewrite IH; [reflexivity | assumption].
  - rewrite relabel_cons, E. rewrite IH; [reflexivity | assumption].
Qed.

Lemma relabel_free ls : forall c,
  good_label c -> Forall (fun l => ~ In LF l) ls ->
  Forall (fun l => ~ In LF l) (relabel c ls).
Proof.
  induction ls as [|l ls IH]; intros c Hg Hf; [constructor|].
  inversion Hf as [|? ? Hl Hls]; subst. simpl.
  destruct (match_heading (trim l)) as [[lv t]|] eqn:E.
  - destruct (lv =? 2).
    + apply IH; [eapply heading_title_good; exact E | assumption].
    + destruct (lv =? 3).
      * constructor; [|constructor; auto].
        intros Hin. simpl in Hin. unfold LF in Hin.
        repeat (destruct Hin as [Hin|Hin]; [discriminate|]).
        destruct Hg as (_ & _ & Hd). exact (dot_not_LF _ Hd Hin).
      * constructor; auto.
  - constructor; auto.
Qed.

(** C4.  [convertMdToMd] is idempotent on every text: in its output
    every level-2 heading line is a synthesized one, followed by its
    level-3 heading line, so a second pass drops and synthesizes the same
    lines. *)
Theorem convertMdToMd_idempotent (x : str) :
  convertMdToMd (convertMdToMd x) = convertMdToMd x.
Proof.
  rewrite !convertMdToMd_relabel.
  set (ls := relabel default_label (str_split LF x)).
  assert (Hf : Forall (fun l => ~ In LF l) ls).
  { apply relabel_free; [apply good_default_label | apply str_split_free]. }
  destruct ls as [|l ls'] eqn:E; [reflexivity|].
  rewrite str_split_join by (assumption || discriminate).
  rewrite <- E. subst ls.
  rewrite relabel_idem; [reflexivity | apply good_default_label].
Qed.

(** *** The trees of the parser: titles and the note of the root *)

Lemma bullet_title_nonblank raw indent l3 :
  match_bullet (clean raw) = Some (indent, l3) -> trim l3 <> [].
Proof.
  intros H.
  destruct (match_bullet_shape _ _ _ H)
    as (w1 & mk & w2 & Hs & _ & _ & _ & _ & _ & Hne & _).
  destruct l3 as [|d u _] using rev_ind; [congruence|].
  apply (trim_nonblank _ d); [apply in_or_app; right; left; reflexivity|].
  unfold clean in Hs.
  apply (trimEnd_last (replace_first cr_end_re [] raw) (w1 ++ mk :: w2 ++ u)).
  rewrite Hs, <- !app_assoc. simpl. rewrite <- !app_assoc. reflexivity.
Qed.

Lemma titled_initial : titled_state initial.
Proof.
  split; [exists []; split; [reflexivity | constructor]|]. split.
  - repeat constructor. discriminate.
  - intros c [= <-]. reflexivity.
Qed.

Lemma titled_insert_node st d t :
  wf_state st -> titled_state st -> 1 <= d -> t <> [] ->
  titled_state (insert_node d t st).
Proof.
  intros Hwf ((rest & Hs & Hpos) & Ht & Hn) Hd Hne.
  destruct Hwf as (_ & Hb & _).
  assert (H0 : 0 < length (heap st)).
  { rewrite Hs in Hb. inversion Hb. assumption. }
  unfold insert_node. rewrite Hs.
  destruct d as [|d]; [lia|]. simpl take.
  split; [|split]; simpl.
  - exists (take d rest ++ [length (heap st)]). split; [reflexivity|].
    apply Forall_app. split; [apply Forall_take; assumption|].
    repeat constructor. assumption.
  - apply Forall_alter.
    + apply Forall_app. split; [assumption|]. repeat constructor. assumption.
    + intros c _ Hc. exact Hc.
  - intros c Hc.
    set (p := top (structure :: take d rest)) in *.
    destruct (decide (p = structure)) as [Hp|Hp].
    + rewrite Hp, list_lookup_alter_eq, lookup_app_l in Hc by assumption.
      destruct (heap st !! structure) as [c0|] eqn:E0; [|discriminate].
      injection Hc as <-. simpl. apply Hn. reflexivity.
    + rewrite list_lookup_alter_ne, lookup_app_l in Hc by assumption.
      apply Hn. assumption.
Qed.

Lemma top_not_structure st :
  titled_state st -> 1 < length (pathStack st) ->
  top (pathStack st) <> structure.
Proof.
  intros ((rest & Hs & Hpos) & _) Hl. rewrite Hs in *. unfold top.
  destruct rest as [|r rest] using rev_ind; [simpl in Hl; lia|].
  rewrite app_comm_cons, last_snoc. simpl.
  apply Forall_app in Hpos as [_ Hr]. inversion Hr; subst.
  unfold structure. lia.
Qed.

Lemma titled_on_text st line :
  titled_state st -> line <> [] -> titled_state (on_text line st).
Proof.
  intros Hts Hne. unfold on_text.
  destruct (1 <? length (pathStack st)) eqn:Hl; [|assumption].
  apply Nat.ltb_lt in Hl.
  pose proof (top_not_structure st Hts Hl) as Htop.
  destruct Hts as (Hstack & Ht & Hn).
  set (p := top (pathStack st)) in *.
  destruct (heap st !! p) as [c0|] eqn:E0; [|repeat split; assumption].
  destruct (c_children c0).
  - split; [assumption|]. split; simpl.
    + apply Forall_alter; [assumption|]. intros c _ Hc. exact Hc.
    + intros c Hc. rewrite list_lookup_alter_ne in Hc by assumption. auto.
  - split; [assumption|]. split; simpl.
    + apply Forall_alter.
      * apply Forall_app. split; [assumption|]. repeat constructor. assumption.
      * intros c _ Hc. exact Hc.
    + intros c Hc. rewrite list_lookup_alter_ne in Hc by assumption.
      apply lookup_app_Some in Hc as [Hc|[Hge Hc]]; [auto|].
      apply lookup_lt_Some in E0.
      assert (H0 : 0 < length (heap st)) by lia. unfold structure in Hge. lia.
Qed.

Lemma titled_step st raw :
  wf_state st -> titled_state st -> titled_state (step st raw).
Proof.
  intros Hwf Hts. unfold step.
  destruct (truthy (trim (clean raw))) eqn:Hb; simpl; [|assumption].
  destruct (match_heading (trim (clean raw))) as [[level h2]|] eqn:E.
  - assert (Hne : trim h2 <> []).
    { destruct (heading_title_good _ _ _ E) as [Hne _]. exact Hne. }
    destruct (match_heading_shape _ _ _ E) as (_ & _ & Hl & _).
    unfold on_heading.
    destruct ((level =? 1) && negb (firstH1Found st)).
    + destruct Hts as ((rest & Hs & Hpos) & Ht & Hn).
      split; [|split]; simpl.
      * rewrite Hs. exists []. split; [destruct rest; reflexivity | constructor].
      * apply Forall_alter; [assumption|]. intros c _ _. exact Hne.
      * intros c Hc. rewrite list_lookup_alter_eq in Hc.
        destruct (heap st !! structure) as [c0|] eqn:E0; [|discriminate].
        injection Hc as <-. simpl. auto.
    + apply titled_insert_node; try assumption.
      rewrite heading_depth_eq by lia.
      destruct (level =? 1) eqn:E1; [lia|]. apply Nat.eqb_neq in E1. lia.
  - destruct (match_bullet (clean raw)) as [[indent l3]|] eqn:Eb.
    + apply titled_insert_node; try assumption; [lia|].
      eapply bullet_title_nonblank. exact Eb.
    + apply titled_on_text; [assumption|].
      intros Hc. rewrite Hc in Hb. discriminate.
Qed.

Lemma titled_run ls : forall st,
  wf_state st -> titled_state st -> titled_state (foldl step st ls).
Proof.
  induction ls as [|raw ls IH]; intros st Hwf Hts; simpl; [assumption|].
  apply IH; [apply wf_step | apply titled_step]; assumption.
Qed.

Lemma reify_titled h :
  Forall (fun c => c_title c <> []) h ->
  forall fuel r n, reify fuel h r = Some n -> titled n = true.
Proof.
  intros Ht. induction fuel as [|fuel IH]; intros r n H; [discriminate|].
  simpl in H. destruct (h !! r) as [c|] eqn:E; [|discriminate].
  destruct (mapM (reify fuel h) (c_children c)) as [kids|] eqn:Ek; [|discriminate].
  injection H as <-. simpl.
  apply andb_true_intro. split.
  - apply truthy_true. exact (Forall_lookup_1 _ _ _ _ Ht E).
  - apply mapM_Some_1 in Ek. clear E.
    induction Ek as [|j k js ks Hjk _ IHk]; [reflexivity|].
    simpl. rewrite (IH _ _ Hjk). exact IHk.
Qed.

Lemma reify_note fuel h r n :
  reify fuel h r = Some n -> c_note <$> h !! r = Some (note n).
Proof.
  destruct fuel; simpl; [discriminate|].
  destruct (h !! r) as [c|]; [|discriminate].
  destruct (mapM _ _); [|discriminate]. intros [= <-]. reflexivity.
Qed.

(** Every tree the parser returns has non-empty titles throughout and no
    note on its root. *)
Lemma parsed_tree_titled content n :
  parseMarkdownToStructure content = Some n ->
  titled n = true /\ note n = [].
Proof.
  unfold parseMarkdownToStructure. intros H.
  assert (Hts : titled_state (parse content))
    by (apply titled_run; [apply wf_initial | apply titled_initial]).
  destruct Hts as (_ & Ht & Hn). split.
  - eapply reify_titled; eassumption.
  - apply reify_note in H.
    destruct (heap (parse content) !! structure) as [c|] eqn:E; [|discriminate].
    injection H as <-. apply Hn. reflexivity.
Qed.

(** ** Topics *)

Lemma fold_children_getChildren {A : Type} (f : A -> topic -> A) a t :
  fold_children f a t = foldl f a (getChildren t).
Proof.
  unfold fold_children, getChildren.
  destruct (t_children t) as [[[l|] [l'|]]|]; reflexivity.
Qed.

(** Induction on topics through [getChildren]. *)
Lemma topic_children_ind (P : topic -> Prop) :
  (forall t, Forall P (getChildren t) -> P t) -> forall t, P t.
Proof.
  intros H. fix F 1. intros t. apply H.
  destruct t as [i c ti n nt [[[l|] d]|]]; unfold getChildren; simpl.
  - induction l as [|x l IH]; constructor; [apply F | exact IH].
  - destruct d as [l|]; [|constructor].
    induction l as [|x l IH]; constructor; [apply F | exact IH].
  - constructor.
Qed.

(** ** The renderers *)

(** [toHeaderMd] as the source writes it. *)
Lemma toHeaderMd_eq t level out :
  toHeaderMd t level out =
    let out1 := out ++ [header_line level (display_title t)] in
    let out2 := out1 ++ header_note_lines t in
    let out3 :=
      foldl (fun out child => toHeaderMd child (level + 1) out) out2
            (getChildren t) in
    if level <=? 3 then out3 ++ [[]] else out3.
Proof.
  destruct t. unfold header_note_lines. cbn [toHeaderMd].
  rewrite fold_children_getChildren.
  destruct (truthy (trim (getNote _))); cbn zeta; rewrite ?app_nil_r;
    reflexivity.
Qed.

Lemma toListMd_eq t level out :
  toListMd t level out =
    let out1 :=
      if level =? 0 then out ++ [h1_prefix ++ display_title t; []]
      else out ++ [str_repeat indent2 (level - 1) ++ dash ++ display_title t] in
    let out2 := out1 ++ list_note_lines t level in
    foldl (fun out child => toListMd child (level + 1) out) out2
          (getChildren t).
Proof.
  destruct t. unfold list_note_lines. cbn [toListMd].
  rewrite fold_children_getChildren.
  destruct (truthy (trim (getNote _))); cbn zeta; rewrite ?app_nil_r;
    reflexivity.
Qed.

(** A loop that only appends. *)
Lemma foldl_appends {B : Type} (f : list str -> B -> list str)
    (g : B -> list str) (l : list B) :
  Forall (fun x => forall out, f out x = out ++ g x) l ->
  forall out, foldl f out l = out ++ concat (map g l).
Proof.
  induction 1 as [|x l Hx _ IH]; intros out; simpl.
  - rewrite app_nil_r. reflexivity.
  - rewrite IH, Hx, <- app_assoc. reflexivity.
Qed.

(** What a call pushes does not depend on what [out] holds. *)
Lemma toHeaderMd_appends t : forall level out,
  toHeaderMd t level out = out ++ toHeaderMd t level [].
Proof.
  induction t as [t IH] using topic_children_ind. intros level out.
  rewrite !toHeaderMd_eq. cbn zeta.
  assert (Hl : Forall (fun c => forall o,
            toHeaderMd c (level + 1) o = o ++ toHeaderMd c (level + 1) [])
            (getChildren t)).
  { eapply Forall_impl; [exact IH|]. simpl. auto. }
  rewrite !(foldl_appends _ _ _ Hl).
  destruct (level <=? 3); simpl; rewrite <- ?app_assoc; reflexivity.
Qed.

Lemma toListMd_appends t : forall level out,
  toListMd t level out = out ++ toListMd t level [].
Proof.
  induction t as [t IH] using topic_children_ind. intros level out.
  rewrite !toListMd_eq. cbn zeta.
  assert (Hl : Forall (fun c => forall o,
            toListMd c (level + 1) o = o ++ toListMd c (level + 1) [])
            (getChildren t)).
  { eapply Forall_impl; [exact IH|]. simpl. auto. }
  rewrite !(foldl_appends _ _ _ Hl).
  destruct (level =? 0); simpl; rewrite <- ?app_assoc; reflexivity.
Qed.

(** The lines of a topic in header mode, first line apart. *)
Lemma toHeaderMd_lines t level :
  toHeaderMd t level [] =
    header_line level (display_title t) ::
    header_note_lines t ++
    concat (map (fun c => toHeaderMd c (level + 1) []) (getChildren t)) ++
    (if level <=? 3 then [[]] else []).
Proof.
  rewrite toHeaderMd_eq. cbn zeta.
  rewrite (foldl_appends _ (fun c => toHeaderMd c (level + 1) [])).
  - destruct (level <=? 3); simpl; rewrite <- ?app_assoc, ?app_nil_r;
      reflexivity.
  - apply Forall_forall. intros c _ o. apply toHeaderMd_appends.
Qed.

Lemma toListMd_lines t level :
  toListMd t level [] =
    (if level =? 0 then [h1_prefix ++ display_title t; []]
     else [str_repeat indent2 (level - 1) ++ dash ++ display_title t]) ++
    list_note_lines t level ++
    concat (map (fun c => toListMd c (level + 1) []) (getChildren t)).
Proof.
  rewrite toListMd_eq. cbn zeta.
  rewrite (foldl_appends _ (fun c => toListMd c (level + 1) [])).
  - destruct (level =? 0); simpl; rewrite <- ?app_assoc; reflexivity.
  - apply Forall_forall. intros c _ o. apply toListMd_appends.
Qed.

Lemma leading_hashes_repeat n (s : str) :
  match s with c :: _ => c <> HASH | [] => True end ->
  leading_hashes (str_repeat [HASH] n ++ s) = n.
Proof.
  intros H. induction n as [|n IH]; simpl.
  - destruct s as [|c s]; [reflexivity|]. simpl.
    destruct (N.eqb c HASH) eqn:E; [apply N.eqb_eq in E; congruence | reflexivity].
  - f_equal. exact IH.
Qed.

Lemma leading_hashes_header_line level title :
  leading_hashes (header_line level title) = if level <=? 6 then level else 0.
Proof.
  unfold header_line. destruct (level <=? 6) eqn:E.
  - apply leading_hashes_repeat. simpl. discriminate.
  - apply Nat.leb_gt in E.
    destruct (level - 7) as [|n] eqn:En; reflexivity.
Qed.

Lemma header_note_lines_hashes t :
  Forall (fun l => leading_hashes l = 0) (header_note_lines t).
Proof.
  unfold header_note_lines. destruct (truthy _); [|constructor].
  constructor; [reflexivity|]. apply Forall_app. split.
  - apply Forall_forall. intros l Hl. apply list_elem_of_fmap in Hl as (x & -> & _).
    reflexivity.
  - repeat constructor.
Qed.

Lemma toHeaderMd_hashes t : forall level,
  Forall (fun l => leading_hashes l <= 6) (toHeaderMd t level []).
Proof.
  induction t as [t IH] using topic_children_ind. intros level.
  rewrite toHeaderMd_lines. constructor.
  - rewrite leading_hashes_header_line. destruct (level <=? 6) eqn:E; [|lia].
    apply Nat.leb_le in E. exact E.
  - apply Forall_app. split.
    + eapply Forall_impl; [apply header_note_lines_hashes|]. simpl. intros. lia.
    + apply Forall_app. split.
      * apply Forall_concat. apply Forall_fmap.
        eapply Forall_impl; [exact IH|]. simpl. auto.
      * destruct (level <=? 3); repeat constructor.
Qed.

(** C6.  In header mode a topic at depth [level] (the root at depth 1, a
    child one deeper than its parent) first pushes, when [level <= 6],
    [level] hashes, a space and its title, and when [level > 6],
    [level - 7] two-space indents, [- ] and its title; its note and its
    children follow.  No line pushed starts with more than 6 hashes; when
    no pushed line holds a line feed (no title does), these are the lines
    of the rendered text. *)
Theorem header_mode_clamp (t : topic) (level : nat) (out : list str) :
  exists rest,
    toHeaderMd t level out
      = out ++
        (if level <=? 6
         then str_repeat [HASH] level ++ [SPACE] ++ display_title t
         else str_repeat indent2 (level - 7) ++ dash ++ display_title t)
        :: rest /\
    rest = header_note_lines t ++
           concat (map (fun c => toHeaderMd c (level + 1) []) (getChildren t))
           ++ (if level <=? 3 then [[]] else []) /\
    Forall (fun l => leading_hashes l <= 6) (toHeaderMd t level []) /\
    leading_hashes (str_repeat [HASH] level ++ [SPACE] ++ display_title t)
    = level /\
    (Forall (fun l => ~ In LF l) (toHeaderMd t level []) ->
     Forall (fun l => leading_hashes l <= 6)
            (str_split LF (str_join [LF] (toHeaderMd t level [])))).
Proof.
  eexists. split; [|split; [reflexivity|split; [|split]]].
  - rewrite toHeaderMd_appends, toHeaderMd_lines. reflexivity.
  - apply toHeaderMd_hashes.
  - apply leading_hashes_repeat. simpl. discriminate.
  - intros Hfree. rewrite str_split_join; [apply toHeaderMd_hashes | | exact Hfree].
    rewrite toHeaderMd_lines. discriminate.
Qed.

(** *** Several sheets *)

Lemma str_join_app sep (l1 l2 : list str) :
  l1 <> [] -> l2 <> [] ->
  str_join sep (l1 ++ l2) = str_join sep l1 ++ sep ++ str_join sep l2.
Proof.
  induction l1 as [|x l1 IH]; intros H1 H2; [congruence|].
  destruct l1 as [|y l1].
  - simpl. destruct l2; [congruence | reflexivity].
  - change (str_join sep ((x :: y :: l1) ++ l2))
      with (x ++ sep ++ str_join sep ((y :: l1) ++ l2)).
    rewrite IH by (assumption || discriminate).
    change (str_join sep (x :: y :: l1))
      with (x ++ sep ++ str_join sep (y :: l1)).
    rewrite <- !app_assoc. reflexivity.
Qed.

(** Joining the joined blocks is joining all the lines. *)
Lemma str_join_concat sep (blocks : list (list str)) :
  Forall (fun b => b <> []) blocks ->
  str_join sep (map (str_join sep) blocks) = str_join sep (concat blocks).
Proof.
  induction 1 as [|b blocks Hb Hf IH]; [reflexivity|].
  destruct blocks as [|b' blocks].
  - simpl. rewrite app_nil_r. reflexivity.
  - change (str_join sep (map (str_join sep) (b :: b' :: blocks)))
      with (str_join sep b ++ sep ++ str_join sep (map (str_join sep) (b' :: blocks))).
    rewrite IH.
    change (concat (b :: b' :: blocks)) with (b ++ concat (b' :: blocks)).
    rewrite str_join_app; [reflexivity | assumption |].
    inversion Hf; subst. simpl. destruct b'; [congruence | discriminate].
Qed.

Lemma toHeaderMd_root_ends_blank t :
  exists body, toHeaderMd t 1 [] = body ++ [[]] /\ body <> [].
Proof.
  rewrite toHeaderMd_lines. simpl.
  eexists (_ :: _). rewrite app_assoc. split; [reflexivity | discriminate].
Qed.

Lemma render_nonempty format t : render format t <> [].
Proof.
  unfold render. destruct (bool_decide _).
  - rewrite toListMd_lines. discriminate.
  - rewrite toHeaderMd_lines. discriminate.
Qed.

Lemma list_note_lines_nonblank t level :
  Forall (fun l => l <> []) (list_note_lines t level).
Proof.
  unfold list_note_lines. destruct (truthy _); [|constructor].
  apply Forall_fmap, Forall_forall. intros l _. simpl.
  intros H. apply app_eq_nil in H as [_ H]. discriminate.
Qed.

(** Below the root, list mode pushes no blank line. *)
Lemma toListMd_nonblank t : forall level,
  1 <= level -> Forall (fun l => l <> []) (toListMd t level []).
Proof.
  induction t as [t IH] using topic_children_ind. intros level Hl.
  rewrite toListMd_lines.
  destruct (level =? 0) eqn:E; [apply Nat.eqb_eq in E; lia|].
  apply Forall_app. split.
  - repeat constructor. intros H. apply app_eq_nil in H as [_ H]. discriminate.
  - apply Forall_app. split; [apply list_note_lines_nonblank|].
    apply Forall_concat, Forall_fmap.
    eapply Forall_impl; [exact IH|]. simpl. intros c Hc. apply Hc. lia.
Qed.

(** In list mode the lines of a root with a child end with a line that is
    not blank. *)
Lemma toListMd_root_ends_nonblank t c cs :
  getChildren t = c :: cs ->
  exists body l, toListMd t 0 [] = body ++ [l] /\ l <> [].
Proof.
  intros Hc. rewrite toListMd_lines, Hc. simpl Nat.eqb. cbv iota.
  set (kids := concat (map (fun c0 => toListMd c0 (0 + 1) []) (c :: cs))).
  assert (Hk : Forall (fun l => l <> []) kids).
  { apply Forall_concat, Forall_fmap, Forall_forall. intros x _.
    apply toListMd_nonblank. lia. }
  assert (Hne : kids <> []).
  { subst kids. simpl. rewrite toListMd_lines. discriminate. }
  destruct kids as [|l kids' _] using rev_ind; [congruence|].
  exists ([h1_prefix ++ display_title t; []] ++ list_note_lines t 0 ++ kids'), l.
  split; [rewrite <- !app_assoc; reflexivity|].
  apply Forall_app in Hk as [_ Hk]. inversion Hk. assumption.
Qed.

(** C9 (amended).  The outputs of the sheets are joined by one line feed
    and nothing else: the lines of the text are the lines of the sheets,
    one sheet after the other.  In header mode the lines of a sheet end
    with a blank line, which separates it from the next sheet.  In list
    mode the lines of a sheet whose root has a child end with a line that
    is not blank, and the heading of the next sheet follows it
    directly. *)
Theorem sheets_joined_by_line_feed (JSON_parse : str -> option data)
    (z : gmap (list N) (list N)) (format : str) :
  xmindZipToMarkdown JSON_parse z format =
    match load_data JSON_parse z with
    | Ok d =>
        Ok (str_join [LF]
              (concat (map (render format) (root_topics (sheets_of d)))))
    | Err e => Err e
    end /\
  (forall t, format <> list_format ->
     exists body, render format t = body ++ [[]] /\ body <> []) /\
  (forall t c cs, format = list_format -> getChildren t = c :: cs ->
     exists body l, render format t = body ++ [l] /\ l <> []).
Proof.
  split; [|split].
  - unfold xmindZipToMarkdown, outputs. destruct (load_data JSON_parse z); [|reflexivity].
    f_equal. rewrite <- str_join_concat.
    + rewrite map_map. reflexivity.
    + apply Forall_fmap, Forall_forall. intros t _. apply render_nonempty.
  - intros t Hf. unfold render. rewrite bool_decide_eq_false_2 by assumption.
    apply toHeaderMd_root_ends_blank.
  - intros t c cs Hf Hc. unfold render. rewrite bool_decide_eq_true_2 by assumption.
    eapply toListMd_root_ends_nonblank. exact Hc.
Qed.

(** C9, as stated, fails in list mode: the last bullet of a sheet is
    followed by the heading of the next sheet, with no blank line
    between. *)
Lemma list_mode_no_blank_separator :
  let leaf := fun t : string => Topic None None (Some (lit t)) None None None in
  let first :=
    Topic None None (Some (lit "T")) None None
          (Some (Children (Some [leaf "a"%string]) None)) in
  let d :=
    DArray [Sheet None None None (Some first) None;
            Sheet None None None (Some (leaf "U"%string)) None] in
  outputs list_format d = [lit "# T" ++ [LF; LF] ++ lit "- a"; lit "# U" ++ [LF]] /\
  xmindZipToMarkdown (fun _ => Some d) {[ content_json := [] ]} list_format
  = Ok (lit "# T" ++ [LF; LF] ++ lit "- a" ++ [LF] ++ lit "# U" ++ [LF]) /\
  str_split LF (str_join [LF] (outputs list_format d))
  = [lit "# T"; []; lit "- a"; lit "# U"; []].
Proof. vm_compute. repeat split; reflexivity. Qed.

(** ** Reading a package *)

Lemma parseXMindXML_some xmlStr sheets :
  parseXMindXML xmlStr = Some sheets ->
  sheets <> [] /\
  Forall (fun s => exists t, s_rootTopic s = Some t) sheets.
Proof.
  unfold parseXMindXML. destruct (match_all sheet_re xmlStr) as [|m ms]; [discriminate|].
  destruct (concat (map xml_sheet (m :: ms))) as [|s ss] eqn:E; [discriminate|].
  intros [= <-]. split; [discriminate|]. rewrite <- E.
  apply Forall_concat, Forall_fmap, Forall_forall. intros x _.
  unfold compose, xml_sheet.
  destruct (exec topic_re x) as [[pre tm]|]; [|constructor].
  destruct (parseXMLTopic (whole tm)); [|constructor].
  constructor; [simpl; eauto | constructor].
Qed.

(** C8 (amended).  The reader looks for a JSON content entry under the
    exact names [content.json] and [Content.json]: when one is there the
    result is what parsing it gives, a parse error when its text is not
    valid JSON, and the XML entry is not consulted.  Otherwise it looks for
    an XML entry under the exact names [content.xml] and [Content.xml]:
    when one is there the result is its sheets, all with a root topic and
    at least one, or a parse error; when there is none the error is
    "unsupported format".  An error of the reader is the error of
    [packageToTree] and of [xmindZipToMarkdown]. *)
Theorem load_data_cases (JSON_parse : str -> option data)
    (z : gmap (list N) (list N)) :
  let json := first_of (z !! content_json) (z !! Content_json) in
  let xml := first_of (z !! content_xml) (z !! Content_xml) in
  (forall jsonStr, json = Some jsonStr ->
     load_data JSON_parse z =
       match JSON_parse jsonStr with
       | Some d => Ok d
       | None => Err JsonParseFailed
       end) /\
  (forall xmlStr, json = None -> xml = Some xmlStr ->
     load_data JSON_parse z =
       match parseXMindXML xmlStr with
       | Some sheets => Ok (DArray sheets)
       | None => Err XmlParseFailed
       end /\
     (forall sheets, parseXMindXML xmlStr = Some sheets ->
        sheets <> [] /\
        Forall (fun s => exists t, s_rootTopic s = Some t) sheets)) /\
  (json = None -> xml = None -> load_data JSON_parse z = Err UnsupportedFormat) /\
  (forall e, load_data JSON_parse z = Err e ->
     packageToTree JSON_parse z = Err e /\
     forall format, xmindZipToMarkdown JSON_parse z format = Err e).
Proof.
  intros json xml. unfold load_data. fold json. fold xml.
  split; [|split; [|split]].
  - intros jsonStr ->. reflexivity.
  - intros xmlStr -> ->. split; [reflexivity|]. apply parseXMindXML_some.
  - intros -> ->. reflexivity.
  - intros e He. unfold packageToTree, xmindZipToMarkdown, load_data.
    fold json. fold xml. rewrite He. auto.
Qed.

(** C8, as stated, fails: the name of the JSON entry is matched exactly,
    so an archive whose only entry is [CONTENT.JSON] is refused as an
    unsupported format although its text parses. *)
Lemma upper_case_entry_not_found :
  let z : gmap (list N) (list N) := {[ lit "CONTENT.JSON" := lit "[]" ]} in
  load_data (fun _ => Some (DArray [])) z = Err UnsupportedFormat /\
  packageToTree (fun _ => Some (DArray [])) z = Err UnsupportedFormat.
Proof. vm_compute. split; reflexivity. Qed.

(** ** Writing a package and reading it back *)

(** Induction on nodes through [children]. *)
Lemma node_children_ind (P : node -> Prop) :
  (forall n, Forall P (children n) -> P n) -> forall n, P n.
Proof.
  intros H. fix F 1. intros n. apply H.
  destruct n as [t nt l]. simpl.
  induction l as [|x l IH]; constructor; [apply F | exact IH].
Qed.

Lemma foldl_snoc_map {A B : Type} (f : A -> B) (l : list A) : forall acc,
  foldl (fun acc x => acc ++ [f x]) acc l = acc ++ map f l.
Proof.
  induction l as [|x l IH]; intros acc; simpl.
  - rewrite app_nil_r. reflexivity.
  - rewrite IH, <- app_assoc. reflexivity.
Qed.

(** [topicToNode] through [getChildren]. *)
Lemma topicToNode_eq t :
  topicToNode t
  = Node (display_title t) (getNote t) (map topicToNode (getChildren t)).
Proof.
  destruct t. cbn [topicToNode].
  rewrite fold_children_getChildren, foldl_snoc_map. reflexivity.
Qed.

Section RoundTrip.
Variable uid : nat -> str.

Lemma buildTopic_eq n k :
  buildTopic uid n k =
    let '(kids, k') := map_counted (buildTopic uid) (children n) (S k) in
    (Topic (Some (uid k)) (Some topic_class) (Some (or_else (title n) []))
       (if truthy (note n) then Some (Notes (Some (Plain (Some (note n)))))
        else None)
       None
       (match kids with
        | [] => None
        | _ :: _ => Some (Children (Some kids) None)
        end),
     k').
Proof. destruct n. reflexivity. Qed.

(** The topic built for a node stands for that node, when titles are not
    empty. *)
Lemma topicToNode_buildTopic n : forall k,
  titled n = true -> topicToNode (fst (buildTopic uid n k)) = n.
Proof.
  induction n as [n IH] using node_children_ind. intros k Ht.
  rewrite buildTopic_eq.
  destruct n as [t nt l]. cbn [title note children titled] in *.
  apply andb_prop in Ht as [Ht Hl].
  assert (Hkids : forall k0,
    map topicToNode (fst (map_counted (buildTopic uid) l k0)) = l).
  { clear Ht. induction l as [|c l IHl]; intros k0; [reflexivity|].
    cbn [forallb] in Hl. apply andb_prop in Hl as [Hc Hl].
    inversion IH as [|? ? IHc IHrest]; subst.
    cbn [map_counted]. specialize (IHc k0 Hc).
    destruct (buildTopic uid c k0) as [tc k1]. cbn [fst] in IHc.
    specialize (IHl IHrest Hl k1).
    change ((fix go (l0 : list node) (k2 : nat) {struct l0} : list topic * nat :=
               match l0 with
               | [] => ([], k2)
               | x :: l' =>
                   let '(y, k3) := buildTopic uid x k2 in
                   let '(ys, k4) := go l' k3 in (y :: ys, k4)
               end) l k1)
      with (map_counted (buildTopic uid) l k1).
    destruct (map_counted (buildTopic uid) l k1) as [ts k2]. cbn [fst map] in *.
    congruence. }
  specialize (Hkids (S k)).
  destruct (map_counted (buildTopic uid) l (S k)) as [kids k']. cbn [fst] in *.
  rewrite topicToNode_eq. unfold display_title, getNote, getChildren.
  cbn [t_title t_notes t_note t_children default attached detached].
  assert (Htitle : or_else (or_else t []) unnamed_topic = t).
  { destruct t; [discriminate | reflexivity]. }
  unfold id. rewrite Htitle. f_equal.
  - destruct nt; reflexivity.
  - destruct kids; exact Hkids.
Qed.

Variable JSON_parse : str -> option data.
Variable JSON_stringify : document -> str.

Lemma load_built_content structure :
  load_data JSON_parse (buildXMindZipFromStructure JSON_stringify uid structure)
  = match JSON_parse
            (JSON_stringify (ContentDoc (fst (build_content uid structure)))) with
    | Some d => Ok d
    | None => Err JsonParseFailed
    end.
Proof.
  unfold load_data, buildXMindZipFromStructure.
  destruct (build_content uid structure) as [content k]. simpl.
  rewrite lookup_insert_ne by discriminate.
  rewrite lookup_insert_ne by discriminate.
  rewrite lookup_insert_eq. reflexivity.
Qed.

Lemma read_back_written (structure : node) :
  JSON_parse (JSON_stringify (ContentDoc (fst (build_content uid structure))))
    = Some (fst (build_content uid structure)) ->
  titled structure = true ->
  note structure = [] ->
  packageToTree JSON_parse
    (buildXMindZipFromStructure JSON_stringify uid structure)
  = Ok [structure].
Proof.
  intros Hjson Ht Hn. unfold packageToTree.
  rewrite load_built_content, Hjson. f_equal.
  unfold build_content.
  destruct structure as [t nt l]. simpl in Hn. subst nt.
  assert (Htitle : or_else t mind_map = t).
  { simpl in Ht. apply andb_prop in Ht as [Ht _].
    destruct t; [discriminate | reflexivity]. }
  simpl title. simpl children. rewrite Htitle.
  pose proof (topicToNode_buildTopic (Node t [] l) 0 Ht) as Hroot.
  destruct (buildTopic uid (Node t [] l) 0) as [root k]. simpl in *.
  rewrite Hroot. reflexivity.
Qed.

(** The pipeline Markdown to package, read back: the tree of the parser. *)
Lemma read_back_parsed (content : str) (n : node) :
  parseMarkdownToStructure content = Some n ->
  JSON_parse (JSON_stringify (ContentDoc (fst (build_content uid n))))
    = Some (fst (build_content uid n)) ->
  packageToTree JSON_parse (buildXMindZipFromStructure JSON_stringify uid n)
  = Ok [n].
Proof.
  intros Hp Hjson. destruct (parsed_tree_titled _ _ Hp) as [Ht Hn].
  apply read_back_written; assumption.
Qed.

(** C2 (amended).  For every tree whose nodes all have a title that is not
    empty and whose root carries no note, reading back the package the
    writer produced gives one tree, equal to the tree written: same title
    and note at every node, same children in the same order at every
    level.  The identifiers are arbitrary and play no part.  The JSON
    library is assumed to parse what it printed.  Every tree the Markdown
    parser returns is such a tree. *)
Theorem package_round_trip (structure : node) :
  JSON_parse (JSON_stringify (ContentDoc (fst (build_content uid structure))))
    = Some (fst (build_content uid structure)) ->
  titled structure = true ->
  note structure = [] ->
  packageToTree JSON_parse
    (buildXMindZipFromStructure JSON_stringify uid structure)
  = Ok [structure] /\
  (forall content n,
     parseMarkdownToStructure content = Some n ->
     titled n = true /\ note n = []).
Proof.
  intros Hjson Ht Hn. split.
  - apply read_back_written; assumption.
  - apply parsed_tree_titled.
Qed.

End RoundTrip.

Lemma package_round_trip_witness :
  let uid := fun k : nat => [N.of_nat k] in
  let tree :=
    Node (lit "R") []
         [Node (lit "a") (lit "n") [Node (lit "b") [] []]; Node (lit "c") [] []] in
  packageToTree (fun _ => Some (fst (build_content uid tree)))
    (buildXMindZipFromStructure (fun _ => []) uid tree)
  = Ok [tree].
Proof.
  intros uid tree.
  refine (proj1 (package_round_trip uid
                   (fun _ => Some (fst (build_content uid tree)))
                   (fun _ => []) tree _ _ _)); reflexivity.
Defined.

(** C2, as stated, fails: the writer rebuilds the root from its title and
    children only, so a note on the root is lost, and a node whose title is
    empty is read back under the placeholder title. *)
Lemma root_note_and_empty_title_lost :
  let uid := fun k : nat => [N.of_nat k] in
  let tree := Node (lit "R") (lit "n") [Node [] [] []] in
  map topicToNode (root_topics (sheets_of (fst (build_content uid tree))))
  = [Node (lit "R") [] [Node unnamed_topic [] []]] /\
  packageToTree (fun _ => Some (fst (build_content uid tree)))
    (buildXMindZipFromStructure (fun _ => []) uid tree)
  = Ok [Node (lit "R") [] [Node unnamed_topic [] []]].
Proof. vm_compute. split; reflexivity. Qed.

(** ** The XML reader *)

Lemma matches_rlit cls l : forall s s' caps,
  matches (rlit cls l) s s' caps ->
  exists m, s = m ++ s' /\ Forall2 (fun p c => cls p c = true) l m /\ caps = [].
Proof.
  induction l as [|p l IH]; intros s s' caps H; simpl in H.
  - destruct H as [-> ->]. exists []. repeat split. constructor.
  - destruct H as (s1 & c1 & c2 & [(c & -> & Hc) ->] & H2 & ->).
    destruct (IH _ _ _ H2) as (m & -> & Hm & ->).
    exists (c :: m). repeat split. constructor; assumption.
Qed.

Lemma matches_rseq_cons r rs s s' caps :
  matches (rseq (r :: rs)) s s' caps ->
  exists s1 c1 c2, matches r s s1 c1 /\ matches (rseq rs) s1 s' c2 /\
                   caps = c1 ++ c2.
Proof. intros H. exact H. Qed.

(** A match of [<name ...> ... </name>] ends with the closing tag. *)
Lemma any_tag_closing name s s' caps :
  matches (any_tag name) s s' caps ->
  exists body close,
    s = body ++ close ++ s' /\
    ci_eq (lit "</" ++ lit name ++ lit ">") close.
Proof.
  unfold any_tag. intros H.
  apply matches_rseq_cons in H as (s1 & ? & ? & H1 & H & _).
  apply matches_rseq_cons in H as (s2 & ? & ? & H2 & H & _).
  apply matches_rseq_cons in H as (s3 & ? & ? & H3 & H & _).
  apply matches_rseq_cons in H as (s4 & ? & ? & H4 & H & _).
  apply matches_rseq_cons in H as (s5 & ? & ? & H5 & H & _).
  simpl in H. destruct H as [-> _].
  apply matches_suffix in H1 as [m1 ->]. apply matches_suffix in H2 as [m2 ->].
  apply matches_suffix in H3 as [m3 ->]. apply matches_suffix in H4 as [m4 ->].
  apply matches_rlit in H5 as (close & -> & Hc & _).
  exists (m1 ++ m2 ++ m3 ++ m4), close. split; [|exact Hc].
  rewrite <- !app_assoc. reflexivity.
Qed.

(** Every string [match_all] returns is a match found in place. *)
Lemma match_from_in r m : forall s skip,
  In m (match_from r skip s) ->
  exists pre post mm,
    s = pre ++ m ++ post /\ exec_here r (m ++ post) = Some mm /\ whole mm = m.
Proof.
  induction s as [|c s IH]; intros skip H.
  - destruct skip; simpl in H; [|contradiction].
    destruct (exec_here r []) as [mm|] eqn:E; [|contradiction].
    destruct H as [<-|[]]. destruct (exec_here_sound _ _ _ E) as [_ Hs].
    symmetry in Hs. apply app_eq_nil in Hs as [Hw Ha].
    exists [], [], mm. rewrite Hw. simpl. auto.
  - destruct skip as [|n]; simpl in H.
    + destruct (exec_here r (c :: s)) as [mm|] eqn:E.
      * destruct H as [<-|H].
        -- destruct (exec_here_sound _ _ _ E) as [_ Hs].
           exists [], (after mm), mm. simpl. rewrite <- Hs. auto.
        -- destruct (IH _ H) as (pre & post & mm' & -> & H1 & H2).
           exists (c :: pre), post, mm'. auto.
      * destruct (IH _ H) as (pre & post & mm' & -> & H1 & H2).
        exists (c :: pre), post, mm'. auto.
    + destruct (IH _ H) as (pre & post & mm' & -> & H1 & H2).
      exists (c :: pre), post, mm'. auto.
Qed.

Lemma match_all_closing name m s :
  In m (match_all (any_tag name) s) ->
  exists pre post body close,
    s = pre ++ m ++ post /\ m = body ++ close /\
    ci_eq (lit "</" ++ lit name ++ lit ">") close.
Proof.
  intros H. apply match_from_in in H as (pre & post & mm & -> & He & Hw).
  destruct (exec_here_sound _ _ _ He) as [M Hs].
  rewrite Hw in Hs. apply app_inv_head in Hs. rewrite <- Hs in M.
  apply any_tag_closing in M as (body & close & Hm & Hc).
  rewrite app_assoc in Hm. apply app_inv_tail in Hm.
  exists pre, post, body, close. auto.
Qed.

Lemma ci_s_not_c c : ci 115 c = true -> ci 99 c = true -> False.
Proof.
  unfold ci. intros H1 H2. apply N.eqb_eq in H1, H2.
  rewrite H1 in H2. discriminate.
Qed.







(** *** Title *)



(** *** Notes *)











(** ** Scenarios of the specification, run on the model *)

Example scenario_parse :
  parseMarkdownToStructure (lit "# Root
## Sec
### Sub
body text")
  = Some (Node (lit "Root") []
            [Node (lit "Sec") []
               [Node (lit "Sub") (lit "body text") []]]).
Proof. vm_compute. reflexivity. Qed.

Example scenario_restructure :
  let text := lit "## A
### B
text
## C
### D
" in
  convertMdToMd text = text.
Proof. vm_compute. reflexivity. Qed.

Example scenario_restructure_unlabelled :
  convertMdToMd (lit "### B") = lit "## " ++ default_label ++ [LF] ++ lit "### B".
Proof. vm_compute. reflexivity. Qed.

Example scenario_xml_note :
  let xml := lit "<sheet id='s'><topic id='t'><title>Root</title><notes><plain>a <b>bold</b> note </plain></notes></topic></sheet>" in
  packageToTree (fun _ => None) {[ content_xml := xml ]}
  = Ok [Node (lit "Root") (lit "a bold note") []].
Proof. vm_compute. reflexivity. Qed.

Example scenario_header_mode :
  let tree :=
    Node (lit "R") [] [Node (lit "a") (lit "n") [Node (lit "b") [] []]] in
  let uid := fun k : nat => [N.of_nat k] in
  outputs (lit "header") (fst (build_content uid tree))
  = [lit "# R
## a

> n

### b


"].
Proof. vm_compute. reflexivity. Qed.

Example scenario_malformed_json :
  xmindZipToMarkdown (fun _ => None) {[ content_json := lit "{" ]} (lit "header")
  = Err JsonParseFailed.
Proof. vm_compute. reflexivity. Qed.

(** * Further properties of the code *)

(** ** Line patterns: the lines that are recognised *)

(** A greedy quantifier that can take a whole run, after which the rest of
    the pattern succeeds at once, returns that first success. *)
Lemma rep_greedy_run {A : Type} p (k : str -> option A) x (s' : str) :
  forall (m : str) lo hi,
  forallb p m = true -> lo <= length m ->
  match hi with Some h => length m <= h | None => True end ->
  match s' with c :: _ => p c = false | [] => True end ->
  k s' = Some x ->
  rep_greedy p lo hi (m ++ s') k = Some x.
Proof.
  induction m as [|c m IH]; intros lo hi Hp Hlo Hhi Hs Hk.
  - simpl in Hlo. assert (lo = 0) by lia. subst lo.
    simpl app. destruct s' as [|d s'']; simpl; rewrite ?Hs;
      destruct (hi_zero hi); assumption.
  - simpl in Hp. apply andb_prop in Hp as [Hc Hm].
    change ((c :: m) ++ s') with (c :: (m ++ s')).
    cbn [rep_greedy].
    assert (Hz : hi_zero hi = false).
    { destruct hi as [[|h]|]; simpl in *; [lia | reflexivity | reflexivity]. }
    rewrite Hz, Hc.
    rewrite (IH (pred lo) (hi_pred hi)); [reflexivity | assumption | simpl in Hlo; lia | | assumption | assumption].
    destruct hi as [h|]; simpl in *; [lia | exact I].
Qed.

Lemma forallb_str_repeat (p : char -> bool) c n :
  p c = true -> forallb p (str_repeat [c] n) = true.
Proof. intros H. induction n; simpl; [reflexivity|]. rewrite H. exact IHn. Qed.

Lemma length_str_repeat c n : length (str_repeat [c] n) = n.
Proof. induction n; simpl; auto. Qed.

Lemma ws_not_hash c : is_ws c = true -> chr HASH c = false.
Proof.
  unfold chr. intros H. destruct (N.eqb c HASH) eqn:E; [|reflexivity].
  apply N.eqb_eq in E. subst. discriminate.
Qed.

Lemma ws_not_marker c : is_ws c = true -> is_marker c = false.
Proof.
  intros H. destruct (is_marker c) eqn:E; [|reflexivity].
  apply marker_not_ws in E. congruence.
Qed.

Lemma match_heading_forward (level : nat) (w : str) (c : char) (t : str) :
  1 <= level <= 6 ->
  w <> [] -> forallb is_ws w = true ->
  is_ws c = false -> forallb dot (c :: t) = true ->
  match_heading (str_repeat [HASH] level ++ w ++ c :: t)
  = Some (level, c :: t).
Proof.
  intros Hl Hw Hws Hc Hd.
  unfold match_heading, exec_here, heading_re, plus. cbn [rseq run].
  erewrite rep_greedy_run; [| apply forallb_str_repeat; reflexivity
                             | rewrite length_str_repeat; lia
                             | rewrite length_str_repeat; lia
                             | destruct w as [|x w']; [congruence|];
                               simpl in Hws; apply andb_prop in Hws as [Hx _];
                               simpl; apply ws_not_hash; exact Hx
                             | ].
  2:{ cbv beta. cbn [run].
      erewrite rep_greedy_run; [| exact Hws
                                 | destruct w; [congruence | simpl; lia]
                                 | exact I
                                 | exact Hc
                                 | ].
      2:{ cbv beta. cbn [run].
          erewrite rep_greedy_all; [reflexivity | exact Hd | simpl; lia | reflexivity]. }
      reflexivity. }
  cbn [groups app].
  rewrite !length_app, length_str_repeat.
  replace (level + (length w + length (c :: t)) - (length w + length (c :: t)))
    with level by lia.
  rewrite <- (length_str_repeat HASH level) at 1.
  rewrite take_app_length, length_str_repeat.
  rewrite Nat.sub_0_r, take_ge by lia. reflexivity.
Qed.

(** X1.  Every line made of 1 to 6 hashes, white space and a text that
    starts with a unit that is not white space and holds no line
    terminator is a heading line: its level is the number of hashes and
    the captured text is the text. *)
Theorem match_heading_complete (level : nat) (w : str) (c : char) (t : str) :
  1 <= level <= 6 ->
  w <> [] -> forallb is_ws w = true ->
  is_ws c = false -> forallb dot (c :: t) = true ->
  match_heading (str_repeat [HASH] level ++ w ++ c :: t)
  = Some (level, c :: t).
Proof. apply match_heading_forward. Qed.

Lemma match_heading_complete_witness :
  match_heading (lit "###   Title here") = Some (3, lit "Title here").
Proof.
  apply (match_heading_complete 3 (lit "   ") 84 (lit "itle here"));
    first [lia | discriminate | reflexivity].
Defined.

Lemma match_bullet_forward (w1 : str) (mk : char) (w2 : str) (c : char)
    (t : str) :
  forallb is_ws w1 = true -> is_marker mk = true ->
  w2 <> [] -> forallb is_ws w2 = true ->
  is_ws c = false -> forallb dot (c :: t) = true ->
  match_bullet (w1 ++ mk :: w2 ++ c :: t) = Some (length w1, c :: t).
Proof.
  intros Hw1 Hmk Hw2 Hws2 Hc Hd.
  unfold match_bullet, exec_here, bullet_re, plus, star. cbn [rseq run].
  erewrite rep_greedy_run; [| exact Hw1 | lia | exact I
                             | simpl; apply marker_not_ws; exact Hmk | ].
  2:{ cbv beta. cbn [run]. rewrite Hmk.
      erewrite rep_greedy_run; [| exact Hws2
                                 | destruct w2; [congruence | simpl; lia]
                                 | exact I | exact Hc | ].
      2:{ cbv beta. cbn [run].
          erewrite rep_greedy_all; [reflexivity | exact Hd | simpl; lia | reflexivity]. }
      reflexivity. }
  cbn [groups app].
  rewrite !length_app. cbn [length]. rewrite !length_app. cbn [length].
  replace (length w1 + S (length w2 + S (length t)) - S (length w2 + S (length t)))
    with (length w1) by lia.
  rewrite take_app_length.
  rewrite Nat.sub_0_r.
  change (S (length t)) with (length (c :: t)).
  rewrite take_ge by lia. reflexivity.
Qed.

(** X2.  Every line made of white space, a marker, white space and a text
    that starts with a unit that is not white space and holds no line
    terminator is a bullet line: its indent is the length of the leading
    white space and the captured text is the text. *)
Theorem match_bullet_complete (w1 : str) (mk : char) (w2 : str) (c : char)
    (t : str) :
  forallb is_ws w1 = true -> is_marker mk = true ->
  w2 <> [] -> forallb is_ws w2 = true ->
  is_ws c = false -> forallb dot (c :: t) = true ->
  match_bullet (w1 ++ mk :: w2 ++ c :: t) = Some (length w1, c :: t).
Proof. apply match_bullet_forward. Qed.

Lemma match_bullet_complete_witness :
  match_bullet (lit "    * item one") = Some (4, lit "item one").
Proof.
  apply (match_bullet_complete (lit "    ") 42 (lit " ") 105 (lit "tem one"));
    first [discriminate | reflexivity].
Defined.

Lemma str_repeat_split c n m :
  m < n ->
  str_repeat [c] n = str_repeat [c] m ++ c :: str_repeat [c] (n - m - 1).
Proof.
  revert n. induction m as [|m IH]; intros n H.
  - destruct n; [lia|]. simpl. rewrite Nat.sub_0_r. reflexivity.
  - destruct n; [lia|]. simpl. f_equal. apply IH. lia.
Qed.

(** X3.  A line that starts with seven or more hashes is not a heading
    line, and neither is a line whose hashes are directly followed by a
    unit that is neither a hash nor white space. *)
Theorem match_heading_rejects (n : nat) (rest : str) :
  (7 <= n -> match_heading (str_repeat [HASH] n ++ rest) = None) /\
  (forall c, c <> HASH -> is_ws c = false ->
     match_heading (str_repeat [HASH] n ++ c :: rest) = None).
Proof.
  split.
  - intros Hn.
    destruct (match_heading _) as [[level h2]|] eqn:E; [|reflexivity].
    exfalso.
    destruct (match_heading_shape _ _ _ E) as (w & Hs & Hl & Hw & Hws & _).
    rewrite (str_repeat_split HASH n level) in Hs by lia.
    rewrite <- app_assoc in Hs. apply app_inv_head in Hs.
    destruct w as [|x w]; [congruence|]. simpl in Hs, Hws.
    injection Hs as <- _. discriminate.
  - intros c Hc Hws.
    destruct (match_heading _) as [[level h2]|] eqn:E; [|reflexivity].
    exfalso.
    destruct (match_heading_shape _ _ _ E) as (w & Hs & Hl & Hw & Hwsw & _).
    destruct w as [|x w]; [congruence|]. simpl in Hwsw.
    apply andb_prop in Hwsw as [Hx _].
    destruct (Nat.lt_trichotomy n level) as [Hlt|[->|Hgt]].
    + rewrite (str_repeat_split HASH level n) in Hs by lia.
      rewrite <- app_assoc in Hs. apply app_inv_head in Hs.
      simpl in Hs. injection Hs as -> _. congruence.
    + apply app_inv_head in Hs. simpl in Hs. injection Hs as -> _. congruence.
    + rewrite (str_repeat_split HASH n level) in Hs by lia.
      rewrite <- app_assoc in Hs. apply app_inv_head in Hs.
      simpl in Hs. injection Hs as <- _. discriminate.
Qed.

(** ** The parser: line endings, the title of the root *)

Lemma trimEnd_app_ws (s w : str) :
  forallb is_ws w = true -> trimEnd (s ++ w) = trimEnd s.
Proof.
  intros H. unfold trimEnd. rewrite rev_app_distr, trimStart_skip; [reflexivity|].
  rewrite forallb_rev. exact H.
Qed.

(** Removing a final carriage return before [trimEnd] changes nothing:
    [trimEnd] removes it as well. *)
Lemma clean_trimEnd raw : clean raw = trimEnd raw.
Proof.
  unfold clean, replace_first.
  destruct (exec cr_end_re raw) as [[pre m]|] eqn:E; [|reflexivity].
  apply exec_sound in E as [Hs M].
  unfold cr_end_re in M.
  apply matches_rseq_cons in M as (s1 & ? & ? & [(c & Hc & Hp) _] & M & _).
  apply matches_rseq_cons in M as (s2 & ? & ? & [[-> ->] _] & M & _).
  simpl in M. destruct M as [Ha _].
  unfold chr in Hp. apply N.eqb_eq in Hp. subst c.
  rewrite <- Ha. rewrite Hs, Hc, app_nil_r.
  symmetry. apply trimEnd_app_ws. reflexivity.
Qed.

Lemma step_trimEnd st raw raw' :
  trimEnd raw = trimEnd raw' -> step st raw = step st raw'.
Proof.
  intros H. unfold step. rewrite !clean_trimEnd, H. reflexivity.
Qed.

Lemma run_trimEnd ls : forall ls' st,
  Forall2 (fun a b => trimEnd a = trimEnd b) ls ls' ->
  foldl step st ls = foldl step st ls'.
Proof.
  induction ls as [|l ls IH]; intros ls' st H; inversion H; subst; [reflexivity|].
  simpl. erewrite step_trimEnd by eassumption. apply IH. assumption.
Qed.

Lemma str_split_join_map_cr (ls : list str) :
  ls <> [] -> Forall (fun l => ~ In LF l) ls ->
  str_split LF (str_join [LF] (map (fun l => l ++ [CR]) ls))
  = map (fun l => l ++ [CR]) ls.
Proof.
  intros Hne Hf. apply str_split_join.
  - destruct ls; [congruence | discriminate].
  - apply Forall_fmap. eapply Forall_impl; [exact Hf|].
    simpl. intros l Hl Hin. apply in_app_or in Hin as [Hin|[Hin|[]]]; [auto|].
    discriminate.
Qed.

(** X4.  White space at the end of a line, a carriage return included,
    does not matter to the parser: a step on a line followed by white
    space is the step on the line, and a document whose lines end with
    CR LF is parsed into the same store, hence the same tree, as the
    document with LF alone. *)
Theorem parser_ignores_line_endings (st : pstate) (raw w : str)
    (ls : list str) :
  forallb is_ws w = true ->
  ls <> [] -> Forall (fun l => ~ In LF l) ls ->
  step st (raw ++ w) = step st raw /\
  parse (str_join [LF] (map (fun l => l ++ [CR]) ls))
  = parse (str_join [LF] ls) /\
  parseMarkdownToStructure (str_join [LF] (map (fun l => l ++ [CR]) ls))
  = parseMarkdownToStructure (str_join [LF] ls).
Proof.
  intros Hw Hne Hf.
  assert (Hp : parse (str_join [LF] (map (fun l => l ++ [CR]) ls))
               = parse (str_join [LF] ls)).
  { unfold parse. rewrite str_split_join_map_cr by assumption.
    rewrite str_split_join by assumption.
    apply run_trimEnd. clear. induction ls as [|l ls IH]; constructor; [|exact IH].
    apply trimEnd_app_ws. reflexivity. }
  split; [|split].
  - apply step_trimEnd, trimEnd_app_ws, Hw.
  - exact Hp.
  - unfold parseMarkdownToStructure. rewrite Hp. reflexivity.
Qed.

Lemma parser_ignores_line_endings_witness :
  parseMarkdownToStructure
    (str_join [LF] (map (fun l => l ++ [CR]) [lit "# R"; lit "- a"]))
  = parseMarkdownToStructure (str_join [LF] [lit "# R"; lit "- a"]).
Proof.
  refine (proj2 (proj2 (parser_ignores_line_endings initial [] [SPACE]
                          [lit "# R"; lit "- a"] _ _ _))).
  - reflexivity.
  - discriminate.
  - repeat constructor; vm_compute; intuition discriminate.
Defined.

Lemma step_without_h1 st raw :
  wf_state st -> is_h1 raw = false ->
  root_title (step st raw) = root_title st.
Proof.
  intros Hwf Hh. unfold step, is_h1 in *.
  destruct (negb (truthy (trim (clean raw)))); [reflexivity|].
  destruct (match_heading (trim (clean raw))) as [[level h2]|].
  - unfold on_heading.
    destruct level as [|[|level]]; [| discriminate |]; simpl;
      apply root_title_insert_node; assumption.
  - destruct (match_bullet (clean raw)) as [[indent l3]|].
    + apply root_title_insert_node. assumption.
    + apply root_title_on_text.
Qed.

Lemma run_without_h1 ls : forall st,
  wf_state st -> existsb is_h1 ls = false ->
  root_title (foldl step st ls) = root_title st.
Proof.
  induction ls as [|raw ls IH]; intros st Hwf H; [reflexivity|].
  simpl in *. apply orb_false_elim in H as [H1 H2].
  rewrite IH; [apply step_without_h1 | apply wf_step |]; assumption.
Qed.

(** X5.  A document without any level-1 heading line yields a tree whose
    root has the default title. *)
Theorem root_title_default (content : str) :
  existsb is_h1 (str_split LF content) = false ->
  exists n, parseMarkdownToStructure content = Some n /\
            title n = default_root_title.
Proof.
  intros H. destruct (parseMarkdownToStructure_total content) as [n Hn].
  exists n. split; [assumption|].
  unfold parseMarkdownToStructure in Hn. apply reify_title in Hn.
  pose proof (run_without_h1 _ initial wf_initial H) as Hr.
  unfold root_title in Hr. unfold parse in Hn. rewrite Hr in Hn.
  simpl in Hn. congruence.
Qed.

Lemma root_title_default_witness :
  exists n, parseMarkdownToStructure (lit "## A
- b") = Some n /\ title n = default_root_title.
Proof. apply root_title_default. reflexivity. Defined.

(** ** The restructurer: what its output looks like *)

Lemma str_join_split sep (s : str) : str_join [sep] (str_split sep s) = s.
Proof.
  induction s as [|c s IH]; [reflexivity|].
  simpl. destruct (N.eqb c sep) eqn:E.
  - apply N.eqb_eq in E. subst c.
    destruct (str_split sep s) as [|l ls] eqn:Es;
      [exfalso; exact (str_split_nonempty _ _ Es)|].
    simpl. f_equal. exact IH.
  - destruct (str_split sep s) as [|l ls] eqn:Es;
      [exfalso; exact (str_split_nonempty _ _ Es)|].
    destruct ls; simpl in *; congruence.
Qed.

Lemma relabel_no_sections ls : forall c,
  Forall (fun l => line_level l <> 2 /\ line_level l <> 3) ls ->
  relabel c ls = ls.
Proof.
  induction ls as [|l ls IH]; intros c H; [reflexivity|].
  inversion H as [|? ? [H2 H3] Hf]; subst.
  rewrite relabel_cons. unfold line_level in H2, H3.
  destruct (match_heading (trim l)) as [[lv t]|].
  - destruct (lv =? 2) eqn:E2; [apply Nat.eqb_eq in E2; congruence|].
    destruct (lv =? 3) eqn:E3; [apply Nat.eqb_eq in E3; congruence|].
    rewrite IH by assumption. reflexivity.
  - rewrite IH by assumption. reflexivity.
Qed.

(** X6.  A text without level-2 and level-3 heading lines is returned
    unchanged. *)
Theorem convertMdToMd_no_sections (content : str) :
  Forall (fun l => line_level l <> 2 /\ line_level l <> 3)
         (str_split LF content) ->
  convertMdToMd content = content.
Proof.
  intros H. rewrite convertMdToMd_relabel, relabel_no_sections by assumption.
  apply str_join_split.
Qed.

Lemma convertMdToMd_no_sections_witness :
  convertMdToMd (lit "# Title
text
#### deep
- item") = lit "# Title
text
#### deep
- item".
Proof.
  apply convertMdToMd_no_sections.
  apply (bool_decide_unpack _). vm_compute. exact I.
Defined.

Lemma line_level_synthesized c :
  good_label c -> line_level (h2_prefix ++ c) = 2.
Proof.
  intros Hg. destruct (match_heading_synthesized c Hg) as [Ht Hm].
  unfold line_level. rewrite Ht, Hm. reflexivity.
Qed.

Lemma line_level_some l lv t :
  match_heading (trim l) = Some (lv, t) -> line_level l = lv.
Proof. intros E. unfold line_level. rewrite E. reflexivity. Qed.

Lemma line_level_none l :
  match_heading (trim l) = None -> line_level l = 0.
Proof. intros E. unfold line_level. rewrite E. reflexivity. Qed.

Lemma relabel_paired ls : forall c,
  good_label c -> paired (relabel c ls) = true.
Proof.
  induction ls as [|l ls IH]; intros c Hg; [reflexivity|].
  rewrite relabel_cons.
  destruct (match_heading (trim l)) as [[lv t]|] eqn:E.
  - destruct (lv =? 2) eqn:E2.
    + apply IH. eapply heading_title_good. exact E.
    + destruct (lv =? 3) eqn:E3.
      * cbn [paired]. rewrite (line_level_synthesized c Hg).
        rewrite (line_level_some _ _ _ E), E3. simpl. apply IH. exact Hg.
      * cbn [paired]. rewrite (line_level_some _ _ _ E), E2, E3.
        apply IH. exact Hg.
  - cbn [paired]. rewrite (line_level_none _ E). simpl. apply IH. exact Hg.
Qed.

Lemma count_level_cons lv l ls :
  count_level lv (l :: ls) =
  (if line_level l =? lv then 1 else 0) + count_level lv ls.
Proof.
  unfold count_level. rewrite filter_cons.
  destruct (decide (line_level l = lv)) as [H|H].
  - apply Nat.eqb_eq in H. rewrite H. reflexivity.
  - apply Nat.eqb_neq in H. rewrite H. reflexivity.
Qed.

Lemma relabel_length ls : forall c,
  length (relabel c ls) + count_level 2 ls = length ls + count_level 3 ls.
Proof.
  induction ls as [|l ls IH]; intros c; [reflexivity|].
  rewrite relabel_cons, !count_level_cons.
  destruct (match_heading (trim l)) as [[lv t]|] eqn:E.
  - rewrite (line_level_some _ _ _ E).
    destruct (lv =? 2) eqn:E2.
    + apply Nat.eqb_eq in E2. subst lv. specialize (IH (trim t)). simpl. lia.
    + destruct (lv =? 3) eqn:E3; specialize (IH c); simpl; lia.
  - rewrite (line_level_none _ E). specialize (IH c). simpl. lia.
Qed.

Lemma relabel_counts ls : forall c,
  good_label c ->
  count_level 3 (relabel c ls) = count_level 3 ls /\
  count_level 2 (relabel c ls) = count_level 3 ls.
Proof.
  induction ls as [|l ls IH]; intros c Hg; [split; reflexivity|].
  rewrite relabel_cons, count_level_cons.
  destruct (match_heading (trim l)) as [[lv t]|] eqn:E.
  - rewrite (line_level_some _ _ _ E).
    destruct (lv =? 2) eqn:E2.
    + apply Nat.eqb_eq in E2. subst lv. simpl.
      apply IH. eapply heading_title_good. exact E.
    + destruct (lv =? 3) eqn:E3.
      * rewrite !count_level_cons, (line_level_synthesized c Hg),
          (line_level_some _ _ _ E), E2, E3.
        destruct (IH c Hg) as [-> ->]. split; reflexivity.
      * rewrite !count_level_cons, (line_level_some _ _ _ E), E2, E3.
        apply IH. exact Hg.
  - rewrite (line_level_none _ E), !count_level_cons, (line_level_none _ E).
    apply IH. exact Hg.
Qed.

Lemma paired_single_empty : paired [[]] = true.
Proof. reflexivity. Qed.

(** X7.  In the text [convertMdToMd] returns, every level-3 heading line
    directly follows a level-2 heading line and every level-2 heading
    line is directly followed by a level-3 heading line; the level-3
    heading lines are those of the input, and the output has one line
    more for each of them and one line less for each level-2 heading line
    of the input (a text that loses all its lines becomes the empty
    text, which has one empty line). *)
Theorem convertMdToMd_output_shape (content : str) :
  let lines := str_split LF content in
  let out := str_split LF (convertMdToMd content) in
  paired out = true /\
  count_level 3 out = count_level 3 lines /\
  count_level 2 out = count_level 3 lines /\
  (length out + count_level 2 lines =
   length lines + count_level 3 lines \/
   (out = [[]] /\ length lines = count_level 2 lines /\
    count_level 3 lines = 0)).
Proof.
  cbv zeta. rewrite convertMdToMd_relabel.
  set (ls := str_split LF content).
  pose proof (relabel_paired ls _ good_default_label) as Hp.
  pose proof (relabel_counts ls _ good_default_label) as [H3 H2].
  pose proof (relabel_length ls default_label) as Hl.
  assert (Hfree : Forall (fun l => ~ In LF l) (relabel default_label ls)).
  { apply relabel_free; [apply good_default_label | apply str_split_free]. }
  destruct (relabel default_label ls) as [|x xs] eqn:Er.
  - simpl str_join. cbn [str_split]. repeat split; try reflexivity.
    + exact H3.
    + exact H2.
    + right. simpl in Hl. change (count_level 3 []) with 0 in H3.
      split; [reflexivity|]. lia.
  - rewrite str_split_join by (exact Hfree || discriminate).
    repeat split; try assumption. left. exact Hl.
Qed.

(** ** Reading rendered Markdown back *)

(** *** The store of a tree *)

Lemma layout_eq k n :
  layout k n =
  Cell (title n) (note n) (refs (S k) (children n)) :: layouts (S k) (children n).
Proof.
  destruct n as [t nt cs]. reflexivity.
Qed.

Lemma size_eq n : size n = S (list_sum (map size (children n))).
Proof. destruct n. reflexivity. Qed.

Lemma length_layouts k l :
  Forall (fun n => forall k, length (layout k n) = size n) l ->
  length (layouts k l) = list_sum (map size l).
Proof.
  intros H. revert k. induction H as [|c l Hc _ IH]; intros k; [reflexivity|].
  cbn [layouts map list_sum]. rewrite length_app, Hc, IH. reflexivity.
Qed.

Lemma length_layout n : forall k, length (layout k n) = size n.
Proof.
  induction n as [n IH] using node_children_ind. intros k.
  rewrite layout_eq, size_eq. cbn [length]. f_equal.
  apply length_layouts. exact IH.
Qed.

Lemma length_layouts_sum k l : length (layouts k l) = list_sum (map size l).
Proof.
  apply length_layouts. apply Forall_forall. intros n _. apply length_layout.
Qed.

Lemma add_children_nil c : add_children [] c = c.
Proof. destruct c. unfold add_children. simpl. rewrite app_nil_r. reflexivity. Qed.

Lemma add_children_push k rs c :
  add_children rs (push_child k c) = add_children (k :: rs) c.
Proof.
  unfold add_children, push_child. simpl. rewrite <- app_assoc. reflexivity.
Qed.

(** *** Insertions in document order build the tree *)

Lemma top_snoc pre k : top (pre ++ [k]) = k.
Proof. unfold top. rewrite last_snoc. reflexivity. Qed.

Lemma insert_node_at st d t pre suf :
  pathStack st = pre ++ suf -> length pre = d -> 1 <= d ->
  top pre < length (heap st) ->
  insert_node d t st =
    PState (alter (push_child (length (heap st))) (top pre) (heap st)
              ++ [Cell t [] []])
           (pre ++ [length (heap st)]) (firstH1Found st).
Proof.
  intros Hs Hl Hd Ht. unfold insert_node. cbv zeta.
  rewrite Hs, (take_app_length' pre suf d) by congruence.
  destruct pre as [|x pre]; [simpl in Hl; lia|].
  rewrite alter_app_l by assumption. reflexivity.
Qed.

Lemma on_text_at st pre k H t nt line :
  pathStack st = pre ++ [k] -> pre <> [] ->
  heap st = H ++ [Cell t nt []] -> length H = k ->
  on_text line st =
    PState (H ++ [Cell t (if truthy nt then nt ++ ([LF] ++ line) else line) []])
           (pathStack st) (firstH1Found st).
Proof.
  intros Hs Hp Hh Hk. unfold on_text.
  assert (Hlen : (1 <? length (pathStack st)) = true).
  { apply Nat.ltb_lt. rewrite Hs, length_app. simpl.
    destruct pre; [congruence | simpl; lia]. }
  rewrite Hlen, Hs, top_snoc, Hh.
  rewrite <- Hk, list_lookup_middle by reflexivity. cbn [c_children c_note].
  replace (length H) with (length H + 0) by lia.
  rewrite alter_app_r. reflexivity.
Qed.

(** The note the text lines of a node add up to. *)
Lemma text_lines_fold lines : forall st pre k H t nt,
  pathStack st = pre ++ [k] -> pre <> [] ->
  heap st = H ++ [Cell t nt []] -> length H = k ->
  foldl play st (map Text lines) =
    PState (H ++ [Cell t (foldl (fun nt l => if truthy nt then nt ++ [LF] ++ l
                                             else l) nt lines) []])
           (pathStack st) (firstH1Found st).
Proof.
  induction lines as [|l lines IH]; intros st pre k H t nt Hs Hp Hh Hk.
  - simpl. rewrite <- Hh. destruct st; reflexivity.
  - cbn [map foldl play].
    rewrite (on_text_at st pre k H t nt l Hs Hp Hh Hk).
    erewrite IH; [reflexivity | exact Hs | exact Hp | reflexivity | exact Hk].
Qed.

Lemma note_fold_join lines : forall acc,
  acc <> [] ->
  foldl (fun nt l => if truthy nt then nt ++ [LF] ++ l else l) acc lines
  = str_join [LF] (acc :: lines).
Proof.
  induction lines as [|l lines IH]; intros acc Ha; [reflexivity|].
  cbn [foldl]. rewrite (truthy_true _ Ha).
  rewrite IH by (destruct acc; [congruence | discriminate]).
  destruct lines as [|l' lines]; simpl; rewrite <- ?app_assoc; reflexivity.
Qed.

Lemma text_lines lines st pre k H t :
  pathStack st = pre ++ [k] -> pre <> [] ->
  heap st = H ++ [Cell t [] []] -> length H = k ->
  forallb truthy lines = true ->
  foldl play st (map Text lines) =
    PState (H ++ [Cell t (str_join [LF] lines) []])
           (pathStack st) (firstH1Found st).
Proof.
  intros Hs Hp Hh Hk Hl.
  rewrite (text_lines_fold lines st pre k H t [] Hs Hp Hh Hk).
  destruct lines as [|l lines]; [reflexivity|].
  simpl in Hl. apply andb_prop in Hl as [Hl _].
  cbn [foldl truthy]. rewrite note_fold_join; [reflexivity|].
  destruct l; [discriminate | congruence].
Qed.

Lemma lines_of_join (nt : str) : str_join [LF] (lines_of nt) = nt.
Proof.
  unfold lines_of. destruct nt as [|c nt]; [reflexivity|].
  cbn [truthy]. apply str_join_split.
Qed.

Lemma refs_app l1 : forall k l2,
  refs k (l1 ++ l2) = refs k l1 ++ refs (k + list_sum (map size l1)) l2.
Proof.
  induction l1 as [|c l1 IH]; intros k l2; simpl.
  - rewrite Nat.add_0_r. reflexivity.
  - rewrite IH. do 3 f_equal. lia.
Qed.

(** Siblings, one after the other. *)
Lemma play_siblings cs :
  Forall builds cs ->
  forall d st pre suf,
    1 <= d -> pathStack st = pre ++ suf -> length pre = d ->
    top pre < length (heap st) ->
    forallb (every note_ok) cs = true ->
    exists suf',
      foldl play st (concat (map (script d) cs)) =
        PState (alter (add_children (refs (length (heap st)) cs)) (top pre)
                  (heap st)
                  ++ layouts (length (heap st)) cs)
               (pre ++ suf') (firstH1Found st).
Proof.
  induction 1 as [|c cs Hc _ IH]; intros d st pre suf Hd Hs Hl Ht Hn.
  - exists suf. simpl. rewrite app_nil_r.
    rewrite list_alter_id by apply add_children_nil.
    rewrite <- Hs. destruct st; reflexivity.
  - simpl in Hn. apply andb_prop in Hn as [Hn1 Hn2].
    cbn [map concat]. rewrite foldl_app.
    destruct (Hc d st pre suf Hd Hs Hl Ht Hn1) as [spine ->].
    edestruct (IH d) as [suf' ->]; [exact Hd | reflexivity | exact Hl | | exact Hn2 |].
    + cbn [heap]. rewrite length_app, length_alter. lia.
    + exists suf'. cbn [heap firstH1Found].
      rewrite length_app, length_alter, length_layout.
      rewrite alter_app_l by (rewrite length_alter; exact Ht).
      rewrite list_alter_alter_eq.
      rewrite <- app_assoc. cbn [refs layouts].
      f_equal. f_equal. apply list_alter_ext; [|reflexivity].
      intros x _. apply add_children_push.
Qed.

Lemma builds_all n : builds n.
Proof.
  induction n as [n IH] using node_children_ind.
  intros d st pre suf Hd Hs Hl Ht Hn.
  destruct n as [t nt cs]. cbn [children] in IH.
  cbn [every] in Hn. apply andb_prop in Hn as [Hn1 Hn2].
  unfold note_ok in Hn1. cbn [note] in Hn1.
  cbn [script title note children]. cbn [foldl play].
  rewrite (insert_node_at st d t pre suf Hs Hl Hd Ht).
  rewrite foldl_app.
  assert (Hp : pre <> []) by (destruct pre; [simpl in Hl; lia | discriminate]).
  erewrite text_lines; [| reflexivity | exact Hp | reflexivity
                         | apply length_alter | exact Hn1].
  rewrite lines_of_join. cbn [pathStack firstH1Found].
  edestruct (play_siblings cs IH (S d)) as [suf' ->];
    [lia | rewrite <- (app_nil_r (pre ++ [length (heap st)])); reflexivity
     | rewrite length_app; simpl; lia | | exact Hn2 |].
  - rewrite top_snoc. cbn [heap]. rewrite length_app, length_alter. simpl. lia.
  - exists suf'. cbn [heap firstH1Found]. rewrite top_snoc.
    rewrite length_app, length_alter. cbn [length].
    rewrite alter_app_r_alt by (rewrite length_alter; lia).
    rewrite length_alter, Nat.sub_diag.
    rewrite layout_eq. cbn [title note children].
    replace (length (heap st) + 1) with (S (length (heap st))) by lia.
    rewrite <- !app_assoc. reflexivity.
Qed.

(** *** The tree of a store laid out in document order *)

Lemma size_pos n : 1 <= size n.
Proof. rewrite size_eq. lia. Qed.

Lemma reify_layouts fuel (h : list cell) cs :
  Forall (fun c => forall k,
            size c <= fuel ->
            (forall i x, layout k c !! i = Some x -> h !! (k + i) = Some x) ->
            reify fuel h k = Some c) cs ->
  forall k,
    list_sum (map size cs) <= fuel ->
    (forall i x, layouts k cs !! i = Some x -> h !! (k + i) = Some x) ->
    mapM (reify fuel h) (refs k cs) = Some cs.
Proof.
  induction 1 as [|c cs Hc _ IH]; intros k Hf Hh; [reflexivity|].
  cbn [refs map layouts] in *.
  change (list_sum (size c :: map size cs))
    with (size c + list_sum (map size cs)) in Hf.
  apply mapM_Some_2. constructor.
  - apply Hc; [lia|]. intros i x Hi. apply Hh.
    rewrite lookup_app_l; [exact Hi|]. apply lookup_lt_Some in Hi. exact Hi.
  - apply mapM_Some. apply IH; [lia|]. intros i x Hi.
    replace (k + size c + i) with (k + (size c + i)) by lia. apply Hh.
    rewrite lookup_app_r by (rewrite length_layout; lia).
    rewrite length_layout.
    replace (size c + i - size c) with i by lia. exact Hi.
Qed.

Lemma reify_layout n : forall fuel h k,
  size n <= fuel ->
  (forall i x, layout k n !! i = Some x -> h !! (k + i) = Some x) ->
  reify fuel h k = Some n.
Proof.
  induction n as [n IH] using node_children_ind. intros fuel h k Hf Hh.
  rewrite size_eq in Hf. destruct fuel as [|fuel]; [lia|].
  cbn [reify]. rewrite layout_eq in Hh.
  pose proof (Hh 0 _ eq_refl) as H0. rewrite Nat.add_0_r in H0.
  rewrite H0. cbn [c_children c_title c_note].
  rewrite (reify_layouts fuel h (children n)).
  - destruct n; reflexivity.
  - eapply Forall_impl; [exact IH|]. intros c Hc k' Hs Hl. apply Hc; assumption.
  - lia.
  - intros i x Hi. replace (S k + i) with (k + S i) by lia. apply Hh. exact Hi.
Qed.

(** The store that is nothing but the cells of a tree gives the tree. *)
Lemma reify_whole n : reify (length (layout 0 n)) (layout 0 n) structure = Some n.
Proof.
  apply reify_layout; [rewrite length_layout; lia|]. intros i x Hi. exact Hi.
Qed.

(** *** The lines of the renderers, as the parser classifies them *)

Lemma tidy_shape T :
  tidy T = true ->
  exists c t u d, T = c :: t /\ T = u ++ [d] /\
    is_ws c = false /\ is_ws d = false /\ forallb dot T = true.
Proof.
  unfold tidy. destruct T as [|c t]; [discriminate|].
  destruct (rev (c :: t)) as [|d r] eqn:Er; [discriminate|].
  intros H. apply andb_prop in H as [H Hd]. apply andb_prop in H as [Hc Hl].
  apply negb_true_iff in Hc, Hl.
  exists c, t, (rev r), d. repeat split; try assumption.
  rewrite <- (rev_involutive (c :: t)), Er. reflexivity.
Qed.

Lemma tidy_good T : tidy T = true -> good_label T.
Proof.
  intros H. destruct (tidy_shape T H) as (c & t & u & d & Hc & Hu & Hwc & Hwd & Hdot).
  split; [rewrite Hc; discriminate|]. split; [|exact Hdot].
  rewrite Hc. apply trim_fix; [exact Hwc|].
  intros u' d' E. rewrite <- Hc, Hu in E.
  apply app_inj_tail in E as [_ <-]. exact Hwd.
Qed.

Lemma tidy_trimEnd s T : tidy T = true -> trimEnd (s ++ T) = s ++ T.
Proof.
  intros H. destruct (tidy_shape T H) as (c & t & u & d & _ & Hu & _ & Hwd & _).
  rewrite Hu, app_assoc. apply trimEnd_snoc. exact Hwd.
Qed.

Lemma forallb_repeat_str (p : char -> bool) (s : str) n :
  forallb p s = true -> forallb p (str_repeat s n) = true.
Proof.
  intros H. induction n as [|n IH]; simpl; [reflexivity|].
  rewrite forallb_app, H, IH. reflexivity.
Qed.

Lemma length_repeat_str (s : str) n :
  length (str_repeat s n) = n * length s.
Proof. induction n as [|n IH]; simpl; [reflexivity|]. rewrite length_app, IH. reflexivity. Qed.

Lemma step_blank st : step st [] = st.
Proof. unfold step. rewrite clean_trimEnd. reflexivity. Qed.

(** A bullet line of list mode, and of header mode below level 6. *)
Lemma step_bullet_line st m T :
  tidy T = true ->
  step st (str_repeat indent2 m ++ dash ++ T) = insert_node (S m) T st.
Proof.
  intros H. pose proof (tidy_good T H) as (_ & Htrim & _).
  destruct (tidy_shape T H) as (c & t & _ & _ & Hc & _ & Hwc & _ & Hdot).
  assert (Hm : match_bullet (str_repeat indent2 m ++ dash ++ T)
               = Some (length (str_repeat indent2 m), T)).
  { rewrite Hc in *. apply (match_bullet_forward _ 45%N [SPACE] c t);
      [apply forallb_repeat_str | | | | |]; first [reflexivity | discriminate | assumption]. }
  unfold step. rewrite clean_trimEnd.
  rewrite app_assoc, (tidy_trimEnd _ T H), <- app_assoc.
  rewrite (bullet_nonblank _ _ _ Hm), (bullet_not_heading _ _ _ Hm), Hm.
  cbn [negb]. unfold on_bullet. cbv zeta. rewrite Htrim.
  rewrite length_repeat_str. change (length indent2) with 2.
  rewrite Nat.div_mul by lia. f_equal. lia.
Qed.

(** A heading line of header mode. *)
Lemma step_heading_line st level T :
  tidy T = true -> 1 <= level <= 6 ->
  step st (str_repeat [HASH] level ++ [SPACE] ++ T) = on_heading level T st.
Proof.
  intros H Hl. pose proof (tidy_good T H) as (_ & Htrim & _).
  destruct (tidy_shape T H) as (c & t & _ & _ & Hc & _ & Hwc & _ & Hdot).
  assert (Hclean : clean (str_repeat [HASH] level ++ [SPACE] ++ T)
                   = str_repeat [HASH] level ++ [SPACE] ++ T).
  { rewrite clean_trimEnd, app_assoc, (tidy_trimEnd _ T H), <- app_assoc.
    reflexivity. }
  assert (Htr : trim (str_repeat [HASH] level ++ [SPACE] ++ T)
                = str_repeat [HASH] level ++ [SPACE] ++ T).
  { destruct level as [|level]; [lia|].
    change (str_repeat [HASH] (S level) ++ [SPACE] ++ T)
      with ([] ++ HASH :: (str_repeat [HASH] level ++ [SPACE] ++ T)).
    rewrite (trim_skip_ws [] HASH) by reflexivity.
    cbn [app]. f_equal.
    pose proof (tidy_trimEnd (str_repeat [HASH] level ++ [SPACE]) T H) as E.
    rewrite <- app_assoc in E. exact E. }
  rewrite (step_heading st _ level T); [rewrite Htrim; reflexivity|].
  rewrite Hclean, Htr. rewrite Hc in *.
  apply match_heading_forward; first [assumption | discriminate | reflexivity].
Qed.

Lemma heading_line_inserts st level T :
  tidy T = true -> 2 <= level <= 6 ->
  step st (str_repeat [HASH] level ++ [SPACE] ++ T)
  = insert_node (level - 1) T st.
Proof.
  intros H Hl. rewrite step_heading_line by (assumption || lia).
  unfold on_heading.
  destruct (level =? 1) eqn:E; [apply Nat.eqb_eq in E; lia|].
  cbn [andb]. rewrite heading_depth_eq by lia. rewrite E. reflexivity.
Qed.

Lemma trimEnd_keep_prefix (w y : str) :
  trimEnd y <> [] -> trimEnd (w ++ y) = w ++ trimEnd y.
Proof.
  intros Hy. destruct (trimEnd_prefix y) as (w2 & Hw2 & Hws).
  apply (trimEnd_spec _ _ w2); [rewrite <- app_assoc, <- Hw2; reflexivity | exact Hws |].
  right. destruct (trimEnd y) as [|d u _] eqn:Eu using rev_ind; [congruence|].
  exists (w ++ u), d. split; [rewrite app_assoc; reflexivity|].
  eapply trimEnd_last. exact Eu.
Qed.

(** A quoted line is plain text. *)
Lemma clean_quote_line (w l : str) :
  clean (w ++ quote ++ l) = w ++ GT :: trimEnd (SPACE :: l).
Proof.
  rewrite clean_trimEnd. change (quote ++ l) with (GT :: SPACE :: l).
  rewrite trimEnd_keep_prefix; rewrite (trimEnd_cons_keep GT) by reflexivity;
    [reflexivity | discriminate].
Qed.

Lemma step_quote_line st (w l : str) :
  forallb is_ws w = true ->
  step st (w ++ quote ++ l) = on_text (clean (w ++ quote ++ l)) st.
Proof.
  intros Hw. unfold step. rewrite clean_quote_line.
  rewrite (trim_skip_ws w GT) by (assumption || reflexivity).
  cbn [truthy negb].
  destruct (match_heading _) as [[lv h2]|] eqn:E.
  { destruct (match_heading_shape _ _ _ E) as (w' & Hs & [Hl _] & _).
    destruct lv; [lia|]. discriminate. }
  destruct (match_bullet _) as [[indent l3]|] eqn:Eb; [|reflexivity].
  destruct (match_bullet_shape _ _ _ Eb) as (w1 & mk & w2 & Hs & _ & Hw1 & Hmk & _).
  pose proof (leading_ws_unique _ _ _ _ _ _ Hs Hw Hw1 eq_refl (marker_not_ws _ Hmk)) as <-.
  apply app_inv_head in Hs. injection Hs as <- _. discriminate.
Qed.

Lemma quote_lines_play st (w : str) (ls : list str) :
  forallb is_ws w = true ->
  foldl step st (map (fun line => w ++ quote ++ line) ls)
  = foldl play st (map Text (map clean (map (fun line => w ++ quote ++ line) ls))).
Proof.
  intros Hw. revert st. induction ls as [|l ls IH]; intros st; [reflexivity|].
  cbn [map foldl play]. rewrite step_quote_line by exact Hw. apply IH.
Qed.

(** *** From the lines of a topic to the events of its tree *)

Lemma foldl_concat_eq {S A B C : Type} (f : S -> A -> S) (g : S -> B -> S)
    (F : C -> list A) (G : C -> list B) (l : list C) :
  Forall (fun c => forall st, foldl f st (F c) = foldl g st (G c)) l ->
  forall st, foldl f st (concat (map F l)) = foldl g st (concat (map G l)).
Proof.
  induction 1 as [|c l Hc _ IH]; intros st; [reflexivity|].
  cbn [map concat]. rewrite !foldl_app, Hc. apply IH.
Qed.

Lemma list_note_lines_quote t level :
  list_note_lines t level = list_quote level (getNote t).
Proof. reflexivity. Qed.

Lemma header_note_lines_quote t level :
  header_note_lines t =
  if truthy (trim (getNote t)) then [[]] ++ header_quote level (getNote t) ++ [[]]
  else [].
Proof.
  unfold header_note_lines, header_quote.
  destruct (truthy (trim (getNote t))); reflexivity.
Qed.

Lemma in_trimEnd x (s : str) : In x (trimEnd s) -> In x s.
Proof.
  intros H. destruct (trimEnd_prefix s) as (w & Hs & _). rewrite Hs.
  apply in_or_app. left. exact H.
Qed.

(** The cleaned quoted lines are the lines of the note they add up to. *)
Lemma cleaned_lines (w : str) (ls : list str) :
  ~ In LF w -> Forall (fun l => ~ In LF l) ls ->
  let cls := map clean (map (fun line => w ++ quote ++ line) ls) in
  lines_of (str_join [LF] cls) = cls /\ forallb truthy cls = true.
Proof.
  intros Hw Hls. cbv zeta. rewrite map_map.
  assert (Hc : Forall (fun c => ~ In LF c /\ c <> [])
                 (map (fun x => clean (w ++ quote ++ x)) ls)).
  { apply Forall_fmap. eapply Forall_impl; [exact Hls|].
    intros l Hl. unfold compose. rewrite clean_quote_line. split.
    - intros Hin. apply in_app_or in Hin as [Hin | [Hin | Hin]];
        [auto | discriminate |].
      apply in_trimEnd in Hin. destruct Hin as [Hin | Hin]; [discriminate | auto].
    - destruct w; discriminate. }
  split.
  - unfold lines_of.
    destruct (map _ ls) as [|c cs] eqn:E; [reflexivity|].
    inversion Hc as [|? ? [Hc1 Hc2] Hcs]; subst.
    assert (Ht : truthy (str_join [LF] (c :: cs)) = true).
    { destruct c as [|x c]; [congruence|]. destruct cs; reflexivity. }
    rewrite Ht. apply str_split_join; [discriminate|].
    eapply Forall_impl; [exact Hc|]. intros ? [? _]. assumption.
  - apply forallb_forall. intros c Hin.
    rewrite Forall_forall in Hc. apply list_elem_of_In in Hin.
    destruct (Hc c Hin) as [_ Hne]. destruct c; [congruence | reflexivity].
Qed.

Lemma indent_free level : ~ In LF (str_repeat indent2 level).
Proof.
  induction level as [|level IH]; simpl; [auto|].
  intros [H | [H | H]]; [discriminate | discriminate | auto].
Qed.

Lemma every_children p n c :
  every p n = true -> In c (children n) -> every p c = true.
Proof.
  destruct n as [t nt cs]. cbn [every children]. intros H Hin.
  apply andb_prop in H as [_ H]. rewrite forallb_forall in H. auto.
Qed.

Lemma every_here p n : every p n = true -> p n = true.
Proof. destruct n. cbn [every]. intros H. apply andb_prop in H as [H _]. exact H. Qed.

(** In list mode, below the root. *)
Lemma list_lines_script t : forall level st,
  1 <= level ->
  every (fun n => tidy (title n)) (topicToNode t) = true ->
  foldl step st (toListMd t level [])
  = foldl play st (script level (requote list_quote level (topicToNode t))).
Proof.
  induction t as [t IH] using topic_children_ind. intros level st Hl He.
  rewrite toListMd_lines, topicToNode_eq.
  rewrite topicToNode_eq in He.
  pose proof (every_here _ _ He) as Ht. cbn [title] in Ht.
  destruct (level =? 0) eqn:E0; [apply Nat.eqb_eq in E0; lia|].
  cbn [requote script title note children].
  cbn [app foldl play].
  rewrite step_bullet_line by exact Ht.
  replace (S (level - 1)) with level by lia.
  rewrite !foldl_app.
  assert (Hnote : forall st0,
            foldl step st0 (list_note_lines t level)
            = foldl play st0
                (map Text (lines_of (str_join [LF]
                   (map clean (list_quote level (getNote t))))))).
  { intros st0. rewrite list_note_lines_quote. unfold list_quote.
    destruct (truthy (trim (getNote t))); [|reflexivity].
    destruct (cleaned_lines (str_repeat indent2 level)
                (str_split LF (trim (getNote t))) (indent_free level)
                (str_split_free _ _)) as [-> _].
    apply quote_lines_play. apply forallb_repeat_str. reflexivity. }
  rewrite Hnote, !map_map.
  apply foldl_concat_eq.
  rewrite Forall_forall in IH. apply Forall_forall. intros c Hc st'.
  rewrite Nat.add_1_r. apply IH; [exact Hc | lia |].
  eapply every_children; [exact He|]. cbn [children].
  apply in_map. apply list_elem_of_In. exact Hc.
Qed.

Lemma height_eq n : height n = S (foldr Nat.max 0 (map height (children n))).
Proof. destruct n. reflexivity. Qed.

Lemma height_child n c : In c (children n) -> S (height c) <= height n.
Proof.
  rewrite (height_eq n). generalize (children n). intros l Hin.
  apply le_n_S. induction l as [|x l IH]; [destruct Hin|].
  cbn [map foldr]. destruct Hin as [-> | Hin]; [lia|].
  specialize (IH Hin). lia.
Qed.

(** In header mode, below the root, as long as headings are used. *)
Lemma header_lines_script t : forall level st,
  2 <= level -> level + height (topicToNode t) <= 7 ->
  every (fun n => tidy (title n)) (topicToNode t) = true ->
  foldl step st (toHeaderMd t level [])
  = foldl play st
      (script (level - 1) (requote header_quote level (topicToNode t))).
Proof.
  induction t as [t IH] using topic_children_ind. intros level st Hl Hh He.
  rewrite toHeaderMd_lines.
  pose proof (height_eq (topicToNode t)) as Hht.
  rewrite topicToNode_eq in *.
  pose proof (every_here _ _ He) as Ht. cbn [title] in Ht.
  cbn [requote script title note children].
  cbn [foldl play].
  unfold header_line.
  destruct (level <=? 6) eqn:E6; [|apply Nat.leb_gt in E6; lia].
  rewrite heading_line_inserts by (exact Ht || lia).
  rewrite !foldl_app.
  assert (Hnote : forall st0,
            foldl step st0 (header_note_lines t)
            = foldl play st0
                (map Text (lines_of (str_join [LF]
                   (map clean (header_quote level (getNote t))))))).
  { intros st0. rewrite (header_note_lines_quote t level). unfold header_quote.
    destruct (truthy (trim (getNote t))); [|reflexivity].
    destruct (cleaned_lines [] (str_split LF (trim (getNote t)))
                (fun H => H) (str_split_free _ _)) as [E _].
    change (fun line : list N => [] ++ quote ++ line)
      with (fun line : list N => quote ++ line) in E.
    rewrite E.
    cbn [app foldl]. rewrite step_blank, foldl_app. cbn [foldl].
    rewrite step_blank.
    apply (quote_lines_play st0 []). reflexivity. }
  rewrite Hnote.
  assert (Hend : forall st0,
            foldl step st0 (if level <=? 3 then [[]] else []) = st0).
  { intros st0. destruct (level <=? 3); [apply step_blank | reflexivity]. }
  rewrite Hend, !map_map.
  apply foldl_concat_eq.
  rewrite Forall_forall in IH. apply Forall_forall. intros c Hc st'.
  assert (Hin : In (topicToNode c)
                   (children (Node (display_title t) (getNote t)
                                   (map topicToNode (getChildren t))))).
  { cbn [children]. apply in_map. apply list_elem_of_In. exact Hc. }
  rewrite Nat.add_1_r.
  replace (S (level - 1)) with (S level - 1) by lia.
  apply IH; [exact Hc | lia | | eapply every_children; [exact He | exact Hin]].
  apply height_child in Hin. lia.
Qed.

(** *** The lines hold no line feed *)

Lemma quote_lines_free (w : str) (nt : str) :
  ~ In LF w ->
  Forall (fun l => ~ In LF l)
    (map (fun line => w ++ quote ++ line) (str_split LF nt)).
Proof.
  intros Hw. apply Forall_fmap. eapply Forall_impl; [apply str_split_free|].
  intros l Hl. unfold compose. intros Hin.
  apply in_app_or in Hin as [Hin | [Hin | [Hin | Hin]]];
    [auto | discriminate | discriminate | auto].
Qed.

Lemma tidy_free T : tidy T = true -> ~ In LF T.
Proof. intros H. apply dot_not_LF. apply (tidy_good T H). Qed.

Lemma forall_concat_map {A B : Type} (P : B -> Prop) (F : A -> list B) l :
  Forall (fun x => Forall P (F x)) l -> Forall P (concat (map F l)).
Proof.
  induction 1 as [|x l Hx _ IH]; [constructor|].
  cbn [map concat]. apply Forall_app. split; assumption.
Qed.

Lemma list_lines_free t : forall level,
  every (fun n => tidy (title n)) (topicToNode t) = true ->
  Forall (fun l => ~ In LF l) (toListMd t level []).
Proof.
  induction t as [t IH] using topic_children_ind. intros level He.
  rewrite toListMd_lines. rewrite topicToNode_eq in He.
  pose proof (tidy_free _ (every_here _ _ He)) as Ht. cbn [title] in Ht.
  apply Forall_app. split; [|apply Forall_app; split].
  - destruct (level =? 0).
    + repeat constructor; [|intros []].
      intros [H | [H | H]]; [discriminate | discriminate | auto].
    + repeat constructor. intros Hin.
      apply in_app_or in Hin as [Hin | [Hin | [Hin | Hin]]];
        [exact (indent_free _ Hin) | discriminate | discriminate | auto].
  - rewrite list_note_lines_quote. unfold list_quote.
    destruct (truthy _); [|constructor].
    apply quote_lines_free. apply indent_free.
  - apply forall_concat_map. rewrite Forall_forall in IH.
    apply Forall_forall. intros c Hc. apply IH; [exact Hc|].
    eapply every_children; [exact He|]. cbn [children].
    apply in_map. apply list_elem_of_In. exact Hc.
Qed.

Lemma hashes_free n : ~ In LF (str_repeat [HASH] n).
Proof.
  induction n as [|n IH]; simpl; [auto|].
  intros [H | H]; [discriminate | auto].
Qed.

Lemma header_lines_free t : forall level,
  every (fun n => tidy (title n)) (topicToNode t) = true ->
  Forall (fun l => ~ In LF l) (toHeaderMd t level []).
Proof.
  induction t as [t IH] using topic_children_ind. intros level He.
  rewrite toHeaderMd_lines. rewrite topicToNode_eq in He.
  pose proof (tidy_free _ (every_here _ _ He)) as Ht. cbn [title] in Ht.
  constructor; [|apply Forall_app; split; [|apply Forall_app; split]].
  - unfold header_line. destruct (level <=? 6); intros Hin.
    + apply in_app_or in Hin as [Hin | [Hin | Hin]];
        [exact (hashes_free _ Hin) | discriminate | auto].
    + apply in_app_or in Hin as [Hin | [Hin | [Hin | Hin]]];
        [exact (indent_free _ Hin) | discriminate | discriminate | auto].
  - rewrite (header_note_lines_quote t level). unfold header_quote.
    destruct (truthy _); [|constructor].
    constructor; [intros []|]. apply Forall_app. split.
    + apply (quote_lines_free []). intros [].
    + repeat constructor. intros [].
  - apply forall_concat_map. rewrite Forall_forall in IH.
    apply Forall_forall. intros c Hc. apply IH; [exact Hc|].
    eapply every_children; [exact He|]. cbn [children].
    apply in_map. apply list_elem_of_In. exact Hc.
  - destruct (level <=? 3); repeat constructor. intros [].
Qed.

(** *** The notes that are read back *)

Lemma requote_note_ok quoted n :
  (forall level nt, exists (w : str) ls,
      ~ In LF w /\ Forall (fun l => ~ In LF l) ls /\
      quoted level nt = map (fun line => w ++ quote ++ line) ls) ->
  forall level, every note_ok (requote quoted level n) = true.
Proof.
  intros Hq. induction n as [n IH] using node_children_ind. intros level.
  destruct n as [t nt cs]. cbn [children] in IH.
  cbn [requote every title note children]. apply andb_true_intro. split.
  - unfold note_ok. cbn [note].
    destruct (Hq level nt) as (w & ls & Hw & Hls & ->).
    destruct (cleaned_lines w ls Hw Hls) as [-> H]. exact H.
  - apply forallb_forall. intros c Hin. apply in_map_iff in Hin as (x & <- & Hx).
    rewrite Forall_forall in IH. apply IH. apply list_elem_of_In. exact Hx.
Qed.

Lemma list_quote_shape level nt : exists (w : str) ls,
  ~ In LF w /\ Forall (fun l => ~ In LF l) ls /\
  list_quote level nt = map (fun line => w ++ quote ++ line) ls.
Proof.
  unfold list_quote. destruct (truthy (trim nt)).
  - exists (str_repeat indent2 level), (str_split LF (trim nt)).
    split; [apply indent_free|]. split; [apply str_split_free | reflexivity].
  - exists [], []. split; [intros []|]. split; [constructor | reflexivity].
Qed.

Lemma header_quote_shape level nt : exists (w : str) ls,
  ~ In LF w /\ Forall (fun l => ~ In LF l) ls /\
  header_quote level nt = map (fun line => w ++ quote ++ line) ls.
Proof.
  unfold header_quote. destruct (truthy (trim nt)).
  - exists [], (str_split LF (trim nt)).
    split; [intros []|]. split; [apply str_split_free | reflexivity].
  - exists [], []. split; [intros []|]. split; [constructor | reflexivity].
Qed.

(** Without notes nothing is requoted. *)
Lemma requote_no_notes quoted n :
  (forall level, quoted level [] = []) ->
  every (fun n => negb (truthy (note n))) n = true ->
  forall level, requote quoted level n = n.
Proof.
  intros Hq. induction n as [n IH] using node_children_ind. intros He level.
  destruct n as [t nt cs]. cbn [children] in IH.
  cbn [every note children] in He. apply andb_prop in He as [Hn Hc].
  apply negb_true_iff, truthy_false in Hn. subst nt.
  cbn [requote title note children]. rewrite Hq. cbn [map str_join]. f_equal.
  rewrite forallb_forall in Hc. rewrite Forall_forall in IH.
  induction cs as [|c cs IHcs]; [reflexivity|].
  cbn [map]. f_equal.
  - apply IH; [left | apply Hc; left; reflexivity].
  - apply IHcs; intros x Hx; [apply IH | apply Hc]; right; exact Hx.
Qed.

(** *** A sheet *)

Lemma root_text_dropped st r line : pathStack st = [r] -> on_text line st = st.
Proof. intros H. unfold on_text. rewrite H. reflexivity. Qed.

Lemma root_quotes_dropped (w : str) (ls : list str) : forall st r,
  pathStack st = [r] -> forallb is_ws w = true ->
  foldl step st (map (fun line => w ++ quote ++ line) ls) = st.
Proof.
  induction ls as [|l ls IH]; intros st r Hs Hw; [reflexivity|].
  cbn [map foldl]. rewrite step_quote_line by exact Hw.
  rewrite (root_text_dropped st r _ Hs). eapply IH; eassumption.
Qed.

Lemma root_heading T :
  tidy T = true ->
  step initial (str_repeat [HASH] 1 ++ [SPACE] ++ T)
  = PState [Cell T [] []] [structure] true.
Proof. intros H. rewrite step_heading_line by (exact H || lia). reflexivity. Qed.

Lemma root_built T cs :
  forallb (every note_ok) cs = true ->
  exists stack,
    foldl play (PState [Cell T [] []] [structure] true)
          (concat (map (script 1) cs))
    = PState (layout 0 (Node T [] cs)) stack true.
Proof.
  intros Hn.
  assert (Hb : Forall builds cs).
  { apply Forall_forall. intros n _. apply builds_all. }
  destruct (play_siblings cs Hb 1 (PState [Cell T [] []] [structure] true)
              [structure] [] (le_n 1) eq_refl eq_refl) as [suf' E];
    [unfold top, structure; simpl; lia | exact Hn |].
  exists ([structure] ++ suf'). rewrite E. reflexivity.
Qed.

Lemma reread_no_notes quoted level n :
  (forall level, quoted level [] = []) ->
  every (fun n => negb (truthy (note n))) n = true ->
  reread quoted level n = n.
Proof.
  intros Hq He. destruct n as [t nt cs]. unfold reread. cbn [title children].
  pose proof (every_here _ _ He) as Hn. cbn [note] in Hn.
  apply negb_true_iff, truthy_false in Hn. subst nt. f_equal.
  induction cs as [|c cs IH]; [reflexivity|]. cbn [map]. f_equal.
  - apply requote_no_notes; [exact Hq|].
    eapply every_children; [exact He | left; reflexivity].
  - apply IH. cbn [every note children truthy negb andb] in *.
    apply andb_prop in He as [_ He]. exact He.
Qed.

Lemma sheet_read_back T cs (mid kids tail : list str) :
  tidy T = true ->
  (forall st r, pathStack st = [r] -> foldl step st mid = st) ->
  (forall st, foldl step st kids
              = foldl play st (concat (map (script 1) cs))) ->
  (forall st, foldl step st tail = st) ->
  forallb (every note_ok) cs = true ->
  Forall (fun l => ~ In LF l) (mid ++ kids ++ tail) ->
  parseMarkdownToStructure
    (str_join [LF] ((str_repeat [HASH] 1 ++ [SPACE] ++ T) :: mid ++ kids ++ tail))
  = Some (Node T [] cs).
Proof.
  intros HT Hmid Hkids Htail Hn Hfree.
  unfold parseMarkdownToStructure, parse.
  rewrite str_split_join; [|discriminate|].
  2:{ constructor; [|exact Hfree]. intros Hin.
      apply in_app_or in Hin as [Hin | [Hin | Hin]];
        [exact (hashes_free 1 Hin) | discriminate | exact (tidy_free T HT Hin)]. }
  cbn [foldl]. rewrite (root_heading T HT).
  rewrite !foldl_app.
  rewrite (Hmid (PState [Cell T [] []] [structure] true) structure eq_refl).
  rewrite Hkids, Htail.
  destruct (root_built T cs Hn) as [stack ->]. cbn [heap].
  apply reify_whole.
Qed.

Lemma requote_children_ok quoted level (l : list node) :
  (forall level nt, exists (w : str) ls,
      ~ In LF w /\ Forall (fun l => ~ In LF l) ls /\
      quoted level nt = map (fun line => w ++ quote ++ line) ls) ->
  forallb (every note_ok) (map (requote quoted level) l) = true.
Proof.
  intros Hq. apply forallb_forall. intros c Hin.
  apply in_map_iff in Hin as (x & <- & _). apply requote_note_ok. exact Hq.
Qed.

Lemma list_sheet_read_back t :
  every (fun n => tidy (title n)) (topicToNode t) = true ->
  parseMarkdownToStructure (str_join [LF] (toListMd t 0 []))
  = Some (reread list_quote 0 (topicToNode t)).
Proof.
  intros He. pose proof (list_lines_free t 0 He) as Hfree.
  rewrite toListMd_lines in *. rewrite topicToNode_eq in *.
  pose proof (every_here _ _ He) as HT. cbn [title] in HT.
  unfold reread. cbn [title children]. cbn [Nat.eqb app] in *.
  rewrite <- (app_nil_r (concat _)).
  change ([] :: list_note_lines t 0 ++ ?k ++ [])
    with (([] :: list_note_lines t 0) ++ k ++ []).
  apply sheet_read_back.
  - exact HT.
  - intros st r Hs. cbn [app foldl]. rewrite step_blank.
    rewrite list_note_lines_quote. unfold list_quote.
    destruct (truthy _); [|reflexivity].
    eapply root_quotes_dropped; [exact Hs | reflexivity].
  - intros st. rewrite !map_map. apply foldl_concat_eq.
    apply Forall_forall. intros c Hc st'. apply list_lines_script; [lia|].
    eapply every_children; [exact He|]. cbn [children].
    apply in_map. apply list_elem_of_In. exact Hc.
  - reflexivity.
  - apply requote_children_ok. apply list_quote_shape.
  - inversion Hfree as [|? ? _ Hf]; subst. rewrite app_nil_r. exact Hf.
Qed.

Lemma header_sheet_read_back t :
  height (topicToNode t) <= 6 ->
  every (fun n => tidy (title n)) (topicToNode t) = true ->
  parseMarkdownToStructure (str_join [LF] (toHeaderMd t 1 []))
  = Some (reread header_quote 1 (topicToNode t)).
Proof.
  intros Hh He. pose proof (header_lines_free t 1 He) as Hfree.
  rewrite toHeaderMd_lines in *.
  assert (Hkid : forall c, c ∈ getChildren t ->
            2 + height (topicToNode c) <= 7 /\
            every (fun n => tidy (title n)) (topicToNode c) = true).
  { intros c Hc. rewrite topicToNode_eq in Hh, He.
    assert (Hin : In (topicToNode c)
                     (children (Node (display_title t) (getNote t)
                                     (map topicToNode (getChildren t))))).
    { cbn [children]. apply in_map. apply list_elem_of_In. exact Hc. }
    split; [apply height_child in Hin; lia|].
    eapply every_children; [exact He | exact Hin]. }
  rewrite topicToNode_eq in *.
  pose proof (every_here _ _ He) as HT. cbn [title] in HT.
  unfold reread. cbn [title children].
  change (header_line 1 (display_title t))
    with (str_repeat [HASH] 1 ++ [SPACE] ++ display_title t) in *.
  apply sheet_read_back.
  - exact HT.
  - intros st r Hs. rewrite (header_note_lines_quote t 1). unfold header_quote.
    destruct (truthy _); [|reflexivity].
    cbn [app foldl]. rewrite step_blank, foldl_app. cbn [foldl].
    rewrite (root_quotes_dropped [] _ st r Hs eq_refl). apply step_blank.
  - intros st. rewrite !map_map. apply foldl_concat_eq.
    apply Forall_forall. intros c Hc st'.
    destruct (Hkid c Hc) as [H1 H2].
    apply (header_lines_script c 2 st'); [lia | exact H1 | exact H2].
  - intros st. apply step_blank.
  - apply requote_children_ok. apply header_quote_shape.
  - inversion Hfree as [|? ? _ Hf]; subst. exact Hf.
Qed.

(** X8.  Markdown rendered in list mode is read back by the parser as
    the tree of the topic: same titles, same children in the same order
    at every level, whatever the depth.  Notes do not come back as they
    were: the note of the root is lost and every other note is replaced
    by its quoted lines, indentation and quote mark included.  It holds
    when every displayed title is tidy (no white space at either end, no
    line terminator); a tree without notes comes back unchanged. *)
Theorem list_mode_read_back (t : topic) :
  every (fun n => tidy (title n)) (topicToNode t) = true ->
  parseMarkdownToStructure (str_join [LF] (render list_format t))
  = Some (reread list_quote 0 (topicToNode t)) /\
  (every (fun n => negb (truthy (note n))) (topicToNode t) = true ->
   parseMarkdownToStructure (str_join [LF] (render list_format t))
   = Some (topicToNode t)).
Proof.
  intros He. unfold render. rewrite bool_decide_eq_true_2 by reflexivity.
  rewrite (list_sheet_read_back t He). split; [reflexivity|].
  intros Hn. rewrite reread_no_notes; [reflexivity | reflexivity | exact Hn].
Qed.

(** X9.  Markdown rendered in header mode is read back by the parser as
    the tree of the topic (titles and children at every level, notes
    replaced by their quoted lines, the note of the root lost) when the
    tree has at most 6 levels, so that every topic is rendered as a
    heading, and every displayed title is tidy; a tree without notes
    comes back unchanged. *)
Theorem header_mode_read_back (format : str) (t : topic) :
  format <> list_format ->
  height (topicToNode t) <= 6 ->
  every (fun n => tidy (title n)) (topicToNode t) = true ->
  parseMarkdownToStructure (str_join [LF] (render format t))
  = Some (reread header_quote 1 (topicToNode t)) /\
  (every (fun n => negb (truthy (note n))) (topicToNode t) = true ->
   parseMarkdownToStructure (str_join [LF] (render format t))
   = Some (topicToNode t)).
Proof.
  intros Hf Hh He. unfold render. rewrite bool_decide_eq_false_2 by exact Hf.
  rewrite (header_sheet_read_back t Hh He). split; [reflexivity|].
  intros Hn. rewrite reread_no_notes; [reflexivity | reflexivity | exact Hn].
Qed.

Lemma list_mode_read_back_witness :
  let leaf := fun s : string => Topic None None (Some (lit s)) None None None in
  let t :=
    Topic None None (Some (lit "Plan")) None None
      (Some (Children
         (Some [Topic None None (Some (lit "Goals")) None None
                  (Some (Children (Some [leaf "Ship it"%string]) None));
                leaf "Risks"%string]) None)) in
  parseMarkdownToStructure (str_join [LF] (render list_format t))
  = Some (topicToNode t).
Proof.
  intros leaf t.
  refine (proj2 (list_mode_read_back t _) _); vm_compute; reflexivity.
Defined.

Lemma header_mode_read_back_witness :
  let leaf := fun s : string => Topic None None (Some (lit s)) None None None in
  let t :=
    Topic None None (Some (lit "Plan")) None None
      (Some (Children
         (Some [Topic None None (Some (lit "Goals")) None None
                  (Some (Children (Some [leaf "Ship it"%string]) None));
                leaf "Risks"%string]) None)) in
  parseMarkdownToStructure (str_join [LF] (render (lit "header") t))
  = Some (topicToNode t).
Proof.
  intros leaf t.
  refine (proj2 (header_mode_read_back (lit "header") t _ _ _) _);
    first [discriminate | vm_compute; lia | vm_compute; reflexivity].
Defined.

(** ** The legacy XML content: what the lazy patterns find *)

(** A lazy quantifier stops at the first place where the rest of the
    pattern succeeds. *)
Lemma rep_lazy_first {A : Type} p (k : str -> option A) x : forall s,
  rep_lazy p 0 None s k = Some x ->
  exists m s', s = m ++ s' /\ forallb p m = true /\ k s' = Some x /\
    forall m1 m2, m = m1 ++ m2 -> m2 <> [] -> k (m2 ++ s') = None.
Proof.
  induction s as [|c s IH]; intros H.
  - simpl in H. destruct (k []) eqn:Hk; [|discriminate]. injection H as ->.
    exists [], []. repeat split; auto.
    intros m1 m2 E Hne. symmetry in E. apply app_eq_nil in E as [_ ->]. congruence.
  - simpl in H. destruct (k (c :: s)) eqn:Hk.
    + injection H as ->. exists [], (c :: s). repeat split; auto.
      intros m1 m2 E Hne. symmetry in E. apply app_eq_nil in E as [_ ->]. congruence.
    + destruct (p c) eqn:Hp; [|discriminate].
      destruct (IH H) as (m & s' & -> & Hm & Hx & Hmin).
      exists (c :: m), s'. repeat split; auto.
      * simpl. rewrite Hp. exact Hm.
      * intros m1 m2 E Hne. destruct m1 as [|d m1].
        -- simpl in E. subst m2. exact Hk.
        -- injection E as _ E. exact (Hmin m1 m2 E Hne).
Qed.

(** A literal matches where it stands. *)
Lemma run_rlit {A : Type} l : forall (m r : str) caps
    (k : str -> list str -> option A),
  Forall2 (fun p c => ci p c = true) l m ->
  run (rlit ci l) (m ++ r) caps k = k r caps.
Proof.
  induction l as [|p l IH]; intros m r caps k H; inversion H; subst.
  - reflexivity.
  - cbn [rlit run app]. rewrite H2. apply IH. assumption.
Qed.

Lemma ci_eq_no_GT l m :
  ci_eq l m -> ~ In GT l -> ~ In GT m.
Proof.
  induction 1 as [|p c l m Hpc _ IH]; intros Hl [].
  - subst c. apply Hl. left. unfold ci in Hpc. apply N.eqb_eq in Hpc.
    change (canon GT) with 62%N in Hpc. unfold canon in Hpc. unfold GT.
    destruct (N.leb 97 p && N.leb p 122) eqn:E.
    + apply andb_prop in E as [E1 E2].
      apply N.leb_le in E1, E2. lia.
    + symmetry. exact Hpc.
  - apply IH; [|assumption]. intros Hin. apply Hl. right. exact Hin.
Qed.

(** The shape of a match of a name tag pattern: an opening tag free of
    [>] but for its last unit, a body, and the closing tag, which does
    not occur earlier in the body. *)
Lemma any_tag_first name s mm :
  exec_here (any_tag name) s = Some mm ->
  exists o a B C,
    whole mm = o ++ a ++ GT :: B ++ C /\
    ci_eq (lit "<" ++ lit name) o /\
    forallb (chr_not GT) a = true /\
    ci_eq (lit "</" ++ lit name ++ lit ">") C /\
    forall B1 B2 C' r,
      B = B1 ++ B2 -> B2 <> [] -> B2 ++ C ++ after mm = C' ++ r ->
      ~ ci_eq (lit "</" ++ lit name ++ lit ">") C'.
Proof.
  intros H. destruct (exec_here_sound _ _ _ H) as [_ Hs].
  unfold exec_here, any_tag in H. cbn [rseq run] in H.
  apply run_sound in H as (s1 & c1 & M1 & H).
  apply matches_rlit in M1 as (o & Ho & Hoc & ->).
  apply rep_greedy_sound in H as (a & s2 & Ha & Hap & _ & _ & H).
  destruct s2 as [|g s3]; [discriminate|].
  destruct (chr GT g) eqn:Hg; [|discriminate].
  unfold chr in Hg. apply N.eqb_eq in Hg. subst g.
  apply rep_lazy_first in H as (B & s4 & HB & _ & H & Hmin).
  pose proof H as H'.
  apply run_sound in H' as (s5 & c5 & M5 & H').
  apply matches_rlit in M5 as (C & HC & HCc & ->).
  cbn [run] in H'. injection H' as Hmm.
  assert (Hafter : after mm = s5) by (rewrite <- Hmm; reflexivity).
  assert (Hwhole : whole mm = o ++ a ++ GT :: B ++ C).
  { apply (app_inv_tail (after mm)). rewrite <- Hs, Hafter.
    rewrite Ho, Ha, HB, HC. rewrite <- !app_assoc. cbn [app].
    rewrite <- !app_assoc. reflexivity. }
  exists o, a, B, C. repeat split; try assumption.
  intros B1 B2 C' r EB Hne E Hci.
  specialize (Hmin B1 B2 EB Hne). rewrite HC, <- Hafter, E in Hmin.
  cbn [run] in Hmin. rewrite (run_rlit _ C' r) in Hmin by exact Hci.
  discriminate.
Qed.

Lemma exec_exec_here r : forall s pre m,
  exec r s = Some (pre, m) -> exec_here r (whole m ++ after m) = Some m.
Proof.
  induction s as [|c s IH]; intros pre m H; simpl in H.
  - destruct (exec_here r []) eqn:E; [|discriminate]. injection H as <- <-.
    destruct (exec_here_sound _ _ _ E) as [_ Hs]. rewrite <- Hs. exact E.
  - destruct (exec_here r (c :: s)) eqn:E.
    + injection H as <- <-.
      destruct (exec_here_sound _ _ _ E) as [_ Hs]. rewrite <- Hs. exact E.
    + destruct (exec r s) as [[pre' m']|] eqn:E'; [|discriminate].
      injection H as <- <-. eapply IH. reflexivity.
Qed.

Lemma split_at_first {A : Type} (g : A) (x : list A) : forall y P z,
  x ++ g :: y = P ++ g :: z -> ~ In g x -> exists Z, y = Z ++ z.
Proof.
  induction x as [|c x IH]; intros y P z E Hx.
  - destruct P as [|d P]; simpl in E.
    + injection E as ->. exists []. reflexivity.
    + injection E as _ ->. exists (P ++ [g]). rewrite <- app_assoc. reflexivity.
  - destruct P as [|d P]; simpl in E.
    + injection E as -> _. exfalso. apply Hx. left. reflexivity.
    + injection E as _ E. apply (IH _ _ _ E). intros Hin. apply Hx. right. exact Hin.
Qed.

Lemma ci_eq_length l m : ci_eq l m -> length m = length l.
Proof. intros H. symmetry. eapply Forall2_length. exact H. Qed.

Lemma closings_differ (x y Cc Cs : str) :
  ci_eq (lit "</topic>") Cc -> ci_eq (lit "</topics>") Cs ->
  x ++ Cc = y ++ Cs -> False.
Proof.
  intros Hc Hs E. unfold ci_eq in Hc, Hs. cbv -[ci] in Hc, Hs.
  repeat match goal with
         | H : Forall2 _ (_ :: _) _ |- _ => inversion H; clear H; subst
         | H : Forall2 _ [] _ |- _ => inversion H; clear H; subst
         end.
  apply (f_equal (@rev N)) in E. rewrite !rev_app_distr in E.
  simpl in E. injection E as _ E _. subst.
  eapply ci_s_not_c; eassumption.
Qed.

(** The block of the root topic of a sheet ends at the first closing tag
    after its opening tag: no child block is found in it. *)
Lemma root_block_childless s mm :
  exec_here topic_re s = Some mm -> xml_child_blocks (whole mm) = [].
Proof.
  intros H. destruct (xml_child_blocks (whole mm)) as [|b bs] eqn:Eb; [reflexivity|].
  exfalso.
  assert (Hb : In b (xml_child_blocks (whole mm))) by (rewrite Eb; left; reflexivity).
  clear Eb bs. unfold xml_child_blocks in Hb.
  apply in_concat in Hb as (l & Hl & Hb).
  apply in_map_iff in Hl as (tm & <- & Htm).
  apply match_all_closing in Htm as (pre & post & body & Cs & HW & Htm & HCs).
  apply match_from_in in Hb as (pre' & post' & mb & Hsplit & Hmb & Hwb).
  apply any_tag_first in Hmb as (oc & ac & Bc & Cc & Hb & _ & _ & HCc & _).
  rewrite Hwb in Hb.
  apply any_tag_first in H as (o & a & B & C & Hw & Ho & Ha & HC & Hmin).
  assert (HnoGT : ~ In GT (o ++ a)).
  { intros Hin. apply in_app_or in Hin as [Hin | Hin].
    - revert Hin. eapply ci_eq_no_GT; [exact Ho|].
      cbv. intuition discriminate.
    - rewrite forallb_forall in Ha. specialize (Ha _ Hin). discriminate. }
  assert (E : (o ++ a) ++ GT :: (B ++ C)
              = (pre ++ pre' ++ oc ++ ac) ++ GT :: (Bc ++ Cc ++ post' ++ post)).
  { rewrite <- app_assoc, <- Hw, HW, Hsplit, Hb.
    rewrite <- !app_assoc. cbn [app]. rewrite <- !app_assoc. reflexivity. }
  apply split_at_first in E as [Z E]; [|exact HnoGT].
  rewrite app_assoc in E.
  apply app_eq_app in E as [l [[E1 E2] | [E1 E2]]].
  - (* the closing tag of the child starts inside the body *)
    destruct l as [|x l].
    + simpl in E2. rewrite app_nil_r in E1.
      assert (Hq : post' ++ post = []).
      { apply (f_equal (@length N)) in E2. rewrite length_app in E2.
        rewrite (ci_eq_length _ _ HC), (ci_eq_length _ _ HCc) in E2.
        destruct (post' ++ post); [reflexivity | simpl in E2; lia]. }
      apply app_eq_nil in Hq as [-> ->].
      rewrite app_nil_r, Hb in Hsplit. rewrite Htm in Hsplit.
      apply (closings_differ (pre' ++ oc ++ ac ++ GT :: Bc) body Cc Cs HCc HCs).
      rewrite Hsplit, <- !app_assoc. reflexivity.
    + apply (Hmin (Z ++ Bc) (x :: l) Cc (post' ++ post ++ after mm) E1);
        [discriminate | | exact HCc].
      rewrite app_assoc, <- E2, <- !app_assoc. reflexivity.
  - (* it starts in the closing tag of the root *)
    assert (Hl : l = [] /\ post' ++ post = []).
    { apply (f_equal (@length N)) in E2. rewrite !length_app in E2.
      rewrite (ci_eq_length _ _ HC), (ci_eq_length _ _ HCc) in E2.
      split; [destruct l | destruct post'; [destruct post|]];
        first [reflexivity | simpl in E2; lia]. }
    destruct Hl as [-> Hq]. apply app_eq_nil in Hq as [-> ->].
    rewrite app_nil_r, Hb in Hsplit. rewrite Htm in Hsplit.
    apply (closings_differ (pre' ++ oc ++ ac ++ GT :: Bc) body Cc Cs HCc HCs).
    rewrite Hsplit, <- !app_assoc. reflexivity.
Qed.

Lemma parseXMLTopic_within_childless fuel topicXML t :
  xml_child_blocks topicXML = [] ->
  parseXMLTopic_within fuel topicXML = Some t ->
  t_children t = None /\ getChildren t = [] /\
  t_title t = Some (xml_title topicXML).
Proof.
  intros Hc H. destruct fuel as [|fuel]; [discriminate|].
  simpl in H. rewrite Hc in H. simpl in H. injection H as <-.
  repeat split.
Qed.

(** X10.  The reader of the legacy XML content never finds the children
    of a topic: the block of the root topic of a sheet ends at the first
    closing topic tag, so no complete list of subtopics lies inside it.
    Every sheet [parseXMindXML] returns is a root topic without
    children, whatever the text. *)
Theorem xml_sheets_are_single_topics (xmlStr : str) (sheets : list sheet) :
  parseXMindXML xmlStr = Some sheets ->
  Forall (fun s => exists t, s_rootTopic s = Some t /\
                             t_children t = None /\ getChildren t = [])
         sheets.
Proof.
  unfold parseXMindXML.
  destruct (match_all sheet_re xmlStr) as [|m ms]; [discriminate|].
  destruct (concat (map xml_sheet (m :: ms))) as [|s ss] eqn:E; [discriminate|].
  intros [= <-]. rewrite <- E.
  apply Forall_concat, Forall_fmap, Forall_forall. intros x _.
  unfold compose, xml_sheet.
  destruct (exec topic_re x) as [[pre tm]|] eqn:Et; [|constructor].
  destruct (parseXMLTopic (whole tm)) as [t|] eqn:Ep; [|constructor].
  constructor; [|constructor]. exists t. split; [reflexivity|].
  apply exec_exec_here in Et. apply root_block_childless in Et.
  destruct (parseXMLTopic_within_childless _ _ _ Et Ep) as (H1 & H2 & _).
  split; assumption.
Qed.

Lemma xml_sheets_are_single_topics_witness :
  let xmlStr :=
    lit "<sheet><topic id='r'><title>Root</title><children><topics type='attached'><topic id='a'><title>Child</title></topic></topics></children></topic></sheet>" in
  let sheets :=
    [Sheet None None None
       (Some (Topic None None (Some (lit "Root")) None None None)) None] in
  parseXMindXML xmlStr = Some sheets /\
  Forall (fun s => exists t, s_rootTopic s = Some t /\
                             t_children t = None /\ getChildren t = [])
         sheets.
Proof.
  intros xmlStr sheets.
  assert (H : parseXMindXML xmlStr = Some sheets) by (vm_compute; reflexivity).
  split; [exact H | exact (xml_sheets_are_single_topics xmlStr sheets H)].
Defined.

(** ** The server *)





Section ServerFacts.
Variable toLowerCase : str -> str.
Variable latin1_to_utf8 : str -> str.
Variable path_name : str -> str.
Variable utf8_text : list N -> str.
Variable loadAsync : list N -> option archive.
Variable JSON_parse : str -> option data.
Variable JSON_stringify : document -> str.
Variable encodeURIComponent : str -> str.

Local Abbreviation convert :=
  (convert toLowerCase latin1_to_utf8 path_name utf8_text loadAsync
           JSON_parse JSON_stringify).
Local Abbreviation serve :=
  (serve toLowerCase latin1_to_utf8 path_name utf8_text loadAsync
         JSON_parse JSON_stringify).
Local Abbreviation download := (download encodeURIComponent).

(** The second branch of [to_package] is never taken. *)
Lemma to_package_total ids text :
  is_Some (to_package JSON_stringify ids text).
Proof.
  unfold to_package.
  destruct (parseMarkdownToStructure_total text) as [n ->]. eauto.
Qed.

(** X12.  What a request does to the cached download.  A request that
    fails leaves the four variables as they were.  A text conversion
    caches its text under the file name of the reply and keeps the
    package cached before, if any.  A conversion that builds a package
    caches it under the file name of the reply and drops the cached
    text. *)
Theorem convert_updates_cache (c : cache) (req : request) :
  match snd (convert c req) with
  | Failure _ => fst (convert c req) = c
  | Success (Some md) filename =>
      fst (convert c req)
      = Cache (lastBinary c) (Some filename) (Some md) markdown_type
  | Success None filename =>
      exists package,
        fst (convert c req)
        = Cache (Some package) (Some filename) None (lastContentType c)
  end.
Proof.
  unfold Server.convert.
  destruct (direction_of _ _) as [direction|]; [|reflexivity].
  destruct (format_of _) as [format|]; [|reflexivity].
  destruct (r_file req) as [file|]; [|reflexivity].
  cbv zeta.
  repeat match goal with
         | |- context [bool_decide ?P] => destruct (bool_decide P)
         | |- context [to_markdown ?a ?b ?c ?d] =>
             destruct (to_markdown a b c d)
         | |- context [to_package ?a ?b ?c] => destruct (to_package a b c)
         end; cbn [fst snd]; eauto.
Qed.








End ServerFacts.

(** A package built by one request is what a download sends after a later
    text conversion, under the name of the text. *)
Example package_served_under_text_name :
  let to_md := Request (Some (FString md_to_md)) None
                 (Some (Upload (lit "notes.md") (lit "# T"))) (fun _ => []) in
  let to_xmind := Request (Some (FString md_to_xmind)) None
                    (Some (Upload (lit "map.md") (lit "# T"))) (fun _ => []) in
  let stem := fun name : str => take (length name - 3) name in
  let c := serve (fun s => s) (fun s => s) stem (fun b => b) (fun _ => None)
             (fun _ => None) (fun _ => []) fresh [to_xmind; to_md] in
  exists package,
    lastFilename c = Some (lit "notes" ++ converted_suffix) /\
    download (fun s => s) c
    = Attachment (lit "notes_____.md") (lit "notes" ++ converted_suffix)
        octet_stream (Binary package).
Proof. intros. eexists. split; vm_compute; reflexivity. Qed.

(** ** One-click optimisation: the title of the map *)

Lemma heading_line_match level T :
  tidy T = true -> 1 <= level <= 6 ->
  match_heading (trim (str_repeat [HASH] level ++ [SPACE] ++ T))
  = Some (level, T).
Proof.
  intros H Hl.
  destruct (tidy_shape T H) as (c & t & _ & _ & Hc & _ & Hwc & _ & Hdot).
  assert (Htr : trim (str_repeat [HASH] level ++ [SPACE] ++ T)
                = str_repeat [HASH] level ++ [SPACE] ++ T).
  { destruct level as [|level]; [lia|].
    change (str_repeat [HASH] (S level) ++ [SPACE] ++ T)
      with ([] ++ HASH :: (str_repeat [HASH] level ++ [SPACE] ++ T)).
    rewrite (trim_skip_ws [] HASH) by reflexivity.
    cbn [app]. f_equal.
    pose proof (tidy_trimEnd (str_repeat [HASH] level ++ [SPACE]) T H) as E.
    rewrite <- app_assoc in E. exact E. }
  rewrite Htr. rewrite Hc in *.
  apply match_heading_forward; first [assumption | discriminate | reflexivity].
Qed.

(** A text whose first line is a level-1 heading line is parsed to a tree
    with the title of that line. *)
Lemma title_of_first_line T (content : str) (ls : list str) :
  tidy T = true ->
  str_split LF content = (str_repeat [HASH] 1 ++ [SPACE] ++ T) :: ls ->
  exists n, parseMarkdownToStructure content = Some n /\ title n = T.
Proof.
  intros HT Hs. destruct (parseMarkdownToStructure_total content) as [n Hn].
  exists n. split; [exact Hn|].
  unfold parseMarkdownToStructure in Hn. apply reify_title in Hn.
  change (c_title <$> heap (parse content) !! structure)
    with (root_title (parse content)) in Hn.
  unfold parse in Hn. rewrite Hs in Hn. cbn [foldl] in Hn.
  rewrite (root_heading T HT) in Hn.
  rewrite run_after_h1 in Hn.
  - injection Hn as <-. reflexivity.
  - rewrite <- (root_heading T HT). apply wf_step, wf_initial.
  - reflexivity.
Qed.

Lemma str_join_first (x y : str) (l : list str) :
  str_join [LF] (x :: y :: l) = x ++ LF :: str_join [LF] (y :: l).
Proof. reflexivity. Qed.

Lemma header_render_first t :
  exists R, str_join [LF] (toHeaderMd t 1 [])
            = (str_repeat [HASH] 1 ++ [SPACE] ++ display_title t) ++ LF :: R.
Proof.
  rewrite toHeaderMd_lines. cbn [Nat.leb].
  destruct (header_note_lines t ++
            concat (map (fun c => toHeaderMd c (1 + 1) []) (getChildren t)) ++ [[]])
    as [|y l] eqn:E.
  - exfalso. apply app_eq_nil in E as [_ E]. apply app_eq_nil in E as [_ E].
    discriminate.
  - eexists. apply str_join_first.
Qed.

Section OneClick.
Variable JSON_parse : str -> option data.
Variable uid : nat -> str.

(** X14.  One-click optimisation keeps the title of the map.  When the
    package can be read and the displayed title of the root topic of
    its first sheet is tidy, the Markdown rendered in header mode,
    restructured by [convertMdToMd] and parsed again gives a tree whose
    root has that title, and the sheet of the package built from the
    tree carries it. *)
Theorem one_click_keeps_title (z : archive) (d : data) (t : topic)
    (rest : list topic) :
  load_data JSON_parse z = Ok d ->
  root_topics (sheets_of d) = t :: rest ->
  tidy (display_title t) = true ->
  exists md n s,
    xmindZipToMarkdown JSON_parse z header_format = Ok md /\
    parseMarkdownToStructure (convertMdToMd md) = Some n /\
    title n = display_title t /\
    sheets_of (fst (build_content uid n)) = [s] /\
    s_title s = Some (display_title t).
Proof.
  intros Hload Hroots HT.
  unfold xmindZipToMarkdown. rewrite Hload.
  unfold outputs. rewrite Hroots. cbn [map]. unfold render at 1.
  rewrite bool_decide_eq_false_2 by discriminate.
  destruct (header_render_first t) as [R HR].
  set (H1 := str_repeat [HASH] 1 ++ [SPACE] ++ display_title t) in *.
  assert (Hmd : exists R',
             str_join [LF] (str_join [LF] (toHeaderMd t 1 []) ::
                            map (fun t0 => str_join [LF] (render header_format t0)) rest)
             = H1 ++ LF :: R').
  { rewrite HR. destruct (map _ rest) as [|o os].
    - exists R. reflexivity.
    - eexists. rewrite str_join_first, <- app_assoc. reflexivity. }
  destruct Hmd as [R' Hmd]. rewrite Hmd.
  assert (Hfree : ~ In LF H1).
  { unfold H1. intros Hin. apply in_app_or in Hin as [Hin | [Hin | Hin]];
      [exact (hashes_free 1 Hin) | discriminate | exact (tidy_free _ HT Hin)]. }
  assert (Hlines : str_split LF (convertMdToMd (H1 ++ LF :: R'))
                   = H1 :: relabel default_label (str_split LF R')).
  { rewrite convertMdToMd_relabel, (str_split_cons_free LF H1 R' Hfree).
    rewrite relabel_cons. unfold H1 at 1.
    rewrite (heading_line_match 1 _ HT) by lia. cbn [Nat.eqb].
    apply str_split_join; [discriminate|].
    constructor; [exact Hfree|].
    apply relabel_free; [apply good_default_label | apply str_split_free]. }
  destruct (title_of_first_line _ _ _ HT Hlines) as (n & Hn & Htitle).
  exists (H1 ++ LF :: R'), n.
  unfold build_content.
  destruct (buildTopic uid _ 0) as [root k]. cbn [fst sheets_of].
  eexists. split; [reflexivity|]. split; [exact Hn|]. split; [exact Htitle|].
  split; [reflexivity|].
  cbn [s_title]. rewrite Htitle. unfold or_else.
  destruct (tidy_shape _ HT) as (c & t' & _ & _ & -> & _). reflexivity.
Qed.

End OneClick.

Lemma one_click_keeps_title_witness :
  let t :=
    Topic None None (Some (lit "Plan")) None None
      (Some (Children
         (Some [Topic None None (Some (lit "Goals")) None None
                  (Some (Children
                     (Some [Topic None None (Some (lit "Ship")) None None None])
                     None))]) None)) in
  let d := DArray [Sheet None None None (Some t) None] in
  let z : archive := {[ content_json := [] ]} in
  exists md n s,
    xmindZipToMarkdown (fun _ => Some d) z header_format = Ok md /\
    parseMarkdownToStructure (convertMdToMd md) = Some n /\
    title n = lit "Plan" /\
    sheets_of (fst (build_content (fun k => [N.of_nat k]) n)) = [s] /\
    s_title s = Some (lit "Plan").
Proof.
  intros t d z.
  apply (one_click_keeps_title (fun _ => Some d) (fun k => [N.of_nat k]) z d t []);
    reflexivity.
Defined.

(** ** The identifiers of a package *)

Lemma foldl_app_concat {A B : Type} (f : A -> list B) (l : list A) : forall acc,
  foldl (fun acc x => acc ++ f x) acc l = acc ++ concat (map f l).
Proof.
  induction l as [|x l IH]; intros acc; simpl.
  - rewrite app_nil_r. reflexivity.
  - rewrite IH, <- app_assoc. reflexivity.
Qed.

Lemma topic_ids_eq t :
  topic_ids t = t_id t :: concat (map topic_ids (getChildren t)).
Proof.
  destruct t. cbn [topic_ids].
  rewrite fold_children_getChildren, foldl_app_concat. reflexivity.
Qed.

Section Ids.
Variable uid : nat -> str.

Lemma map_counted_ids (l : list node) :
  Forall (fun n => forall k,
            topic_ids (fst (buildTopic uid n k))
            = map (fun i => Some (uid i)) (seq k (size n)) /\
            snd (buildTopic uid n k) = k + size n) l ->
  forall k,
    concat (map topic_ids (fst (map_counted (buildTopic uid) l k)))
    = map (fun i => Some (uid i)) (seq k (list_sum (map size l))) /\
    snd (map_counted (buildTopic uid) l k) = k + list_sum (map size l).
Proof.
  induction 1 as [|n l Hn _ IH]; intros k.
  - simpl. split; [reflexivity | lia].
  - cbn [map_counted]. destruct (Hn k) as [H1 H2].
    destruct (buildTopic uid n k) as [y k1]. cbn [fst snd] in H1, H2.
    destruct (IH k1) as [H3 H4].
    destruct (map_counted (buildTopic uid) l k1) as [ys k2].
    cbn [fst snd] in *. cbn [map concat].
    change (list_sum (size n :: map size l))
      with (size n + list_sum (map size l)).
    rewrite H1, H3, H2. split; [|lia].
    rewrite seq_app, map_app. reflexivity.
Qed.

Lemma buildTopic_ids n : forall k,
  topic_ids (fst (buildTopic uid n k))
  = map (fun i => Some (uid i)) (seq k (size n)) /\
  snd (buildTopic uid n k) = k + size n.
Proof.
  induction n as [n IH] using node_children_ind. intros k.
  rewrite buildTopic_eq, size_eq.
  destruct (map_counted_ids (children n) IH (S k)) as [H1 H2].
  destruct (map_counted (buildTopic uid) (children n) (S k)) as [kids k'].
  cbn [fst snd] in *. split; [|lia].
  rewrite topic_ids_eq. cbn [t_id seq map]. f_equal.
  rewrite <- H1. destruct kids; reflexivity.
Qed.

(** X15.  The writer draws one identifier for every node of the tree, in
    document order, then one for the sheet: the topics of the package
    carry the first identifiers drawn, the sheet the next one.  When the
    identifiers drawn are pairwise different, so are the identifiers of
    the package. *)
Theorem package_ids_fresh (structure : node) :
  exists s root,
    fst (build_content uid structure) = DArray [s] /\
    s_rootTopic s = Some root /\
    topic_ids root = map (fun i => Some (uid i)) (seq 0 (size structure)) /\
    s_id s = Some (uid (size structure)) /\
    snd (build_content uid structure) = S (size structure) /\
    ((forall i j, uid i = uid j -> i = j) ->
     NoDup (s_id s :: topic_ids root)).
Proof.
  unfold build_content.
  set (n := Node (or_else (title structure) mind_map) [] (children structure)).
  assert (Hsize : size n = size structure) by (rewrite !size_eq; reflexivity).
  destruct (buildTopic_ids n 0) as [H1 H2]. rewrite Hsize in H1, H2.
  destruct (buildTopic uid n 0) as [root k]. cbn [fst snd] in *. subst k.
  eexists. exists root. split; [reflexivity|]. split; [reflexivity|].
  split; [exact H1|]. split; [reflexivity|]. split; [reflexivity|].
  intros Hinj. cbn [s_id]. rewrite H1.
  change (0 + size structure) with (size structure).
  change (Some (uid (size structure)) ::
          map (fun i => Some (uid i)) (seq 0 (size structure)))
    with (map (fun i => Some (uid i)) (size structure :: seq 0 (size structure))).
  apply NoDup_fmap_2.
  - intros i j [= E]. exact (Hinj i j E).
  - apply NoDup_cons. split; [|apply NoDup_seq].
    rewrite list_elem_of_In, in_seq. lia.
Qed.

End Ids.

(** ** The parser keeps the order of the lines *)

Lemma layouts_app l1 : forall k l2,
  layouts k (l1 ++ l2)
  = layouts k l1 ++ layouts (k + list_sum (map size l1)) l2.
Proof.
  induction l1 as [|c l1 IH]; intros k l2; simpl.
  - rewrite Nat.add_0_r. reflexivity.
  - rewrite IH, <- app_assoc. do 3 f_equal. lia.
Qed.

Lemma size_snoc n cs c :
  children n = cs ++ [c] ->
  size n = S (list_sum (map size cs) + size c).
Proof.
  intros H. rewrite size_eq, H, map_app, list_sum_app. simpl. lia.
Qed.

Lemma layout_snoc k n cs c :
  children n = cs ++ [c] ->
  layout k n =
    Cell (title n) (note n)
         (refs (S k) cs ++ [S k + list_sum (map size cs)])
    :: layouts (S k) cs ++ layout (S k + list_sum (map size cs)) c.
Proof.
  intros H. rewrite layout_eq, H, refs_app, layouts_app. simpl.
  rewrite app_nil_r. reflexivity.
Qed.

Lemma depths_eq e n :
  depths e n = (title n, e) :: concat (map (depths (S e)) (children n)).
Proof. destruct n. reflexivity. Qed.

Lemma depths_snoc e n cs c :
  children n = cs ++ [c] ->
  depths e n
  = (title n, e) :: concat (map (depths (S e)) cs) ++ depths (S e) c.
Proof.
  intros H. rewrite depths_eq, H, map_app, concat_app. simpl.
  rewrite app_nil_r. reflexivity.
Qed.

Lemma on_spine_bounds stack : forall k n,
  on_spine stack k n -> Forall (fun r => k <= r < k + size n) stack.
Proof.
  induction stack as [|r rest IH]; intros k n H; [constructor|].
  destruct H as [-> H]. constructor; [pose proof (size_pos n); lia|].
  destruct rest as [|r2 rest]; [constructor|].
  destruct H as (cs & c & Hc & H). apply IH in H.
  eapply Forall_impl; [exact H|]. intros r. cbv beta.
  rewrite (size_snoc n cs c Hc). lia.
Qed.

Lemma on_spine_prefix s : forall x k n,
  on_spine (s ++ [x]) k n -> on_spine s k n.
Proof.
  induction s as [|r rest IH]; intros x k n H; [exact I|].
  destruct H as [-> H]. split; [reflexivity|].
  destruct rest as [|r2 rest]; [exact I|].
  destruct H as (cs & c & Hc & H). exists cs, c. split; [exact Hc|].
  eapply IH. exact H.
Qed.

Lemma top_cons x y (l : list nat) : top (x :: y :: l) = top (y :: l).
Proof. reflexivity. Qed.

Lemma top_in (l : list nat) : l <> [] -> In (top l) l.
Proof.
  intros H. unfold top. destruct (last l) as [r|] eqn:E.
  - simpl. apply list_elem_of_In. eapply last_Some_elem_of. exact E.
  - apply last_None in E. congruence.
Qed.

(** A leaf appended below an entry of the stack. *)
Lemma graft_leaf t stack : forall k n d,
  on_spine stack k n -> stack <> [] -> 1 <= d ->
  exists n',
    layout k n' =
      alter (push_child (k + size n)) (top (take d stack) - k) (layout k n)
      ++ [Cell t [] []] /\
    on_spine (take d stack ++ [k + size n]) k n' /\
    size n' = S (size n) /\
    forall e, depths e n' = depths e n ++ [(t, e + length (take d stack))].
Proof.
  induction stack as [|r rest IH]; intros k n d H Hne Hd; [congruence|].
  destruct H as [-> H].
  assert (Hroot :
    take d (k :: rest) = [k] ->
    exists n',
      layout k n' =
        alter (push_child (k + size n)) (top (take d (k :: rest)) - k) (layout k n)
        ++ [Cell t [] []] /\
      on_spine (take d (k :: rest) ++ [k + size n]) k n' /\
      size n' = S (size n) /\
      forall e, depths e n' = depths e n
                              ++ [(t, e + length (take d (k :: rest)))]).
  { intros ->.
    set (n' := Node (title n) (note n) (children n ++ [Node t [] []])).
    exists n'.
    assert (Hk : k + size n = S k + list_sum (map size (children n)))
      by (rewrite size_eq; lia).
    split; [|split; [|split]].
    4:{ intros e. rewrite (depths_snoc e n' (children n) (Node t [] []) eq_refl).
        rewrite (depths_eq e n). cbn [title depths children map concat length].
        rewrite Nat.add_1_r, app_comm_cons. reflexivity. }
    - rewrite (layout_snoc k n' (children n) (Node t [] []) eq_refl).
      cbn [title note]. unfold top. cbn [last default].
      rewrite Nat.sub_diag, (layout_eq k n), Hk. reflexivity.
    - split; [reflexivity|]. exists (children n), (Node t [] []).
      split; [reflexivity|]. split; [exact Hk | exact I].
    - rewrite (size_snoc n' (children n) (Node t [] []) eq_refl), (size_eq n).
      simpl. lia. }
  destruct d as [|[|d]]; [lia | apply Hroot; reflexivity |].
  destruct rest as [|r2 rest]; [apply Hroot; reflexivity|].
  destruct H as (cs & c & Hc & H).
  set (kc := S k + list_sum (map size cs)) in *.
  destruct (IH kc c (S d) H ltac:(discriminate) ltac:(lia))
    as (c' & Hl & Hs & Hsz & Hdep).
  assert (HK : kc + size c = k + size n)
    by (rewrite (size_snoc n cs c Hc); unfold kc; lia).
  rewrite HK in Hl, Hs.
  set (n' := Node (title n) (note n) (cs ++ [c'])).
  exists n'.
  assert (Hp : kc <= top (take (S d) (r2 :: rest))).
  { pose proof (on_spine_bounds _ _ _ H) as Hb. rewrite Forall_forall in Hb.
    assert (Hin : top (take (S d) (r2 :: rest)) ∈ r2 :: rest).
    { apply (subseteq_take (S d)). apply list_elem_of_In. apply top_in. discriminate. }
    apply Hb in Hin. lia. }
  split; [|split; [|split]].
  4:{ intros e. rewrite (depths_snoc e n' cs c' eq_refl), (depths_snoc e n cs c Hc).
      cbn [title]. rewrite Hdep.
      change (take (S (S d)) (k :: r2 :: rest)) with (k :: take (S d) (r2 :: rest)).
      cbn [length]. rewrite Nat.add_succ_r. cbn [Nat.add].
      cbn [app]. rewrite <- !app_assoc. reflexivity. }
  - rewrite (layout_snoc k n' cs c' eq_refl), (layout_snoc k n cs c Hc).
    cbn [title note]. fold kc. rewrite Hl.
    change (take (S (S d)) (k :: r2 :: rest)) with (k :: take (S d) (r2 :: rest)).
    change (take (S d) (r2 :: rest)) with (r2 :: take d rest) at 2.
    rewrite top_cons.
    change (r2 :: take d rest) with (take (S d) (r2 :: rest)).
    set (p := top (take (S d) (r2 :: rest))) in *.
    replace (p - k) with (S (length (layouts (S k) cs) + (p - kc)))
      by (rewrite length_layouts_sum; unfold kc; lia).
    cbn [alter list_alter]. rewrite alter_app_r.
    cbn [app]. rewrite <- !app_assoc. reflexivity.
  - change (take (S (S d)) (k :: r2 :: rest)) with (k :: r2 :: take d rest).
    split; [reflexivity|]. exists cs, c'. split; [reflexivity|].
    exact Hs.
  - rewrite (size_snoc n' cs c' eq_refl), (size_snoc n cs c Hc), Hsz. lia.
Qed.

(** The note of the entry on top of the stack is set. *)
Lemma set_note_spine x stack : forall k n,
  on_spine stack k n -> stack <> [] ->
  exists n',
    layout k n' = alter (set_note x) (top stack - k) (layout k n) /\
    on_spine stack k n' /\ size n' = size n /\
    forall e, depths e n' = depths e n.
Proof.
  induction stack as [|r rest IH]; intros k n H Hne; [congruence|].
  destruct H as [-> H].
  destruct rest as [|r2 rest].
  - exists (Node (title n) x (children n)). split; [|split; [|split]].
    + unfold top. cbn [last default]. rewrite Nat.sub_diag, !layout_eq. reflexivity.
    + split; [reflexivity | exact I].
    + rewrite !size_eq. reflexivity.
    + intros e. rewrite !depths_eq. reflexivity.
  - destruct H as (cs & c & Hc & H).
    set (kc := S k + list_sum (map size cs)) in *.
    destruct (IH kc c H ltac:(discriminate)) as (c' & Hl & Hs & Hsz & Hdep).
    set (n' := Node (title n) (note n) (cs ++ [c'])).
    exists n'.
    assert (Hp : kc <= top (r2 :: rest)).
    { pose proof (on_spine_bounds _ _ _ H) as Hb. rewrite Forall_forall in Hb.
      assert (Hin : In (top (r2 :: rest)) (r2 :: rest)) by (apply top_in; discriminate).
      apply list_elem_of_In in Hin. apply Hb in Hin. lia. }
    split; [|split; [|split]].
    4:{ intros e. rewrite (depths_snoc e n' cs c' eq_refl), (depths_snoc e n cs c Hc).
        cbn [title]. rewrite Hdep. reflexivity. }
    + rewrite (layout_snoc k n' cs c' eq_refl), (layout_snoc k n cs c Hc).
      cbn [title note]. fold kc. rewrite Hl, top_cons.
      set (p := top (r2 :: rest)) in *.
      replace (p - k) with (S (length (layouts (S k) cs) + (p - kc)))
        by (rewrite length_layouts_sum; unfold kc; lia).
      cbn [alter list_alter]. rewrite alter_app_r. reflexivity.
    + split; [reflexivity|]. exists cs, c'. split; [reflexivity | exact Hs].
    + rewrite (size_snoc n' cs c' eq_refl), (size_snoc n cs c Hc), Hsz. lia.
Qed.

Lemma spine_initial : spine_state initial.
Proof.
  exists (Node default_root_title [] []). split; [reflexivity|].
  split; [reflexivity | exact I].
Qed.

Lemma spine_stack_nonempty st : wf_state st -> pathStack st <> [].
Proof. intros ([rest Hs] & _). rewrite Hs. discriminate. Qed.

Lemma spine_insert_node st d t :
  wf_state st -> spine_state st -> 1 <= d ->
  spine_state (insert_node d t st).
Proof.
  intros Hwf (n & Hh & Hs) Hd.
  destruct (insert_node_stack st d t Hwf Hd) as (_ & -> & _).
  destruct (top_kept st d Hwf Hd) as [_ Htop].
  destruct (graft_leaf t _ 0 n d Hs (spine_stack_nonempty st Hwf) Hd)
    as (n' & Hl & Hs' & _).
  exists n'. cbn [heap pathStack]. rewrite alter_app_l by exact Htop.
  rewrite Nat.sub_0_r in Hl. cbn [Nat.add] in Hl, Hs'.
  rewrite Hh, length_layout. split; [symmetry; exact Hl | exact Hs'].
Qed.

Lemma spine_on_heading st level t :
  wf_state st -> spine_state st -> spine_state (on_heading level t st).
Proof.
  intros Hwf Hsp. unfold on_heading.
  destruct ((level =? 1) && negb (firstH1Found st)).
  - destruct Hsp as (n & Hh & Hs).
    exists (Node t (note n) (children n)). cbn [heap pathStack]. split.
    + rewrite Hh, !layout_eq. reflexivity.
    + destruct Hwf as ([rest Hr] & _). rewrite Hr. cbn [take].
      rewrite take_0. split; [reflexivity | exact I].
  - apply spine_insert_node; [assumption | assumption |].
    unfold heading_depth. cbv zeta.
    destruct (_ <? 1) eqn:E; [lia|]. apply Nat.ltb_ge in E. exact E.
Qed.

Lemma spine_on_text st line :
  wf_state st -> spine_state st -> spine_state (on_text line st).
Proof.
  intros Hwf Hsp. unfold on_text.
  destruct (1 <? length (pathStack st)); [|assumption].
  destruct (heap st !! top (pathStack st)) as [c0|] eqn:E0; [|assumption].
  pose proof (lookup_lt_Some _ _ _ E0) as Hp.
  destruct Hsp as (n & Hh & Hs).
  pose proof (spine_stack_nonempty st Hwf) as Hne.
  destruct (c_children c0).
  - destruct (set_note_spine
                (if truthy (c_note c0) then c_note c0 ++ [LF] ++ line else line)
                _ 0 n Hs Hne) as (n' & Hl & Hs' & _).
    exists n'. cbn [heap pathStack]. rewrite Nat.sub_0_r in Hl.
    rewrite Hh. split; [symmetry; exact Hl | exact Hs'].
  - destruct (graft_leaf line _ 0 n (length (pathStack st)) Hs Hne)
      as (n' & Hl & Hs' & _).
    { destruct (pathStack st); [congruence | simpl; lia]. }
    rewrite take_ge in Hl, Hs' by lia.
    exists n'. cbn [heap pathStack]. rewrite alter_app_l by exact Hp.
    rewrite Nat.sub_0_r in Hl. cbn [Nat.add] in Hl, Hs'.
    rewrite Hh, length_layout. split; [symmetry; exact Hl|].
    eapply on_spine_prefix. exact Hs'.
Qed.

Lemma spine_step st raw :
  wf_state st -> spine_state st -> spine_state (step st raw).
Proof.
  intros Hwf Hsp. unfold step.
  destruct (negb (truthy (trim (clean raw)))); [assumption|].
  destruct (match_heading (trim (clean raw))) as [[level h2]|].
  - apply spine_on_heading; assumption.
  - destruct (match_bullet (clean raw)) as [[indent l3]|].
    + apply spine_insert_node; [assumption | assumption |].
      cbv zeta. lia.
    + apply spine_on_text; assumption.
Qed.

Lemma spine_run ls : forall st,
  wf_state st -> spine_state st -> spine_state (foldl step st ls).
Proof.
  induction ls as [|raw ls IH]; intros st Hwf Hsp; [exact Hsp|].
  cbn [foldl]. apply IH; [apply wf_step | apply spine_step]; assumption.
Qed.

(** The store at the end is the tree returned, in document order. *)
Lemma parse_layout content :
  exists n, parseMarkdownToStructure content = Some n /\
            heap (parse content) = layout 0 n.
Proof.
  destruct (spine_run (str_split LF content) initial wf_initial spine_initial)
    as (n & Hh & _).
  exists n. unfold parseMarkdownToStructure. fold (parse content) in Hh.
  split; [|exact Hh]. rewrite Hh. apply reify_whole.
Qed.

Lemma titles_layouts d cs :
  Forall (fun n => forall k d, map c_title (layout k n) = map fst (depths d n)) cs ->
  forall k,
    map c_title (layouts k cs) = map fst (concat (map (depths d) cs)).
Proof.
  induction 1 as [|c cs Hc _ IH]; intros k; [reflexivity|].
  cbn [layouts map concat]. rewrite !map_app, (Hc k d), IH. reflexivity.
Qed.

Lemma titles_layout n : forall k d,
  map c_title (layout k n) = map fst (depths d n).
Proof.
  induction n as [n IH] using node_children_ind. intros k d.
  rewrite layout_eq. destruct n as [t nt cs]. cbn [children] in IH.
  cbn [depths map fst title note children c_title]. f_equal.
  apply titles_layouts. exact IH.
Qed.

Lemma titles_alter (f : cell -> cell) i (h : list cell) :
  (forall c, c_title (f c) = c_title c) ->
  map c_title (alter f i h) = map c_title h.
Proof.
  intros Hf. revert i. induction h as [|c h IH]; intros [|i]; simpl;
    rewrite ?Hf; try reflexivity.
  f_equal. apply IH.
Qed.

Lemma titles_insert_node st d t :
  map c_title (heap (insert_node d t st)) = map c_title (heap st) ++ [t].
Proof.
  unfold insert_node. cbn [heap].
  rewrite titles_alter by reflexivity. rewrite map_app. reflexivity.
Qed.

Lemma tail_app_nonempty {A : Type} (x y : list A) :
  x <> [] -> tail (x ++ y) = tail x ++ y.
Proof. destruct x; [congruence | reflexivity]. Qed.

Lemma outline_cons found raw rest :
  outline found (raw :: rest)
  = outline found [raw] ++ outline (found || is_h1 raw) rest.
Proof.
  unfold is_h1. cbn [outline]. cbv zeta.
  destruct (truthy (trim (clean raw))) eqn:Hb; cbn [negb].
  - destruct (match_heading (trim (clean raw))) as [[level h2]|].
    + destruct level as [|[|level]]; destruct found; reflexivity.
    + rewrite orb_false_r.
      destruct (match_bullet (clean raw)) as [[indent l3]|]; reflexivity.
  - apply truthy_false in Hb. rewrite Hb.
    change (match_heading []) with (@None (nat * str)).
    rewrite orb_false_r. reflexivity.
Qed.

(** *** Plain text never adds a node *)

Lemma leaf_top_initial : leaf_top initial.
Proof. intros H. simpl in H. lia. Qed.

Lemma leaf_top_insert_node st d t :
  wf_state st -> 1 <= d -> leaf_top (insert_node d t st).
Proof.
  intros Hwf Hd _.
  destruct (insert_node_stack st d t Hwf Hd) as (_ & -> & _).
  destruct (top_kept st d Hwf Hd) as [_ Htop].
  cbn [heap pathStack]. rewrite top_snoc.
  exists (Cell t [] []). split; [|reflexivity].
  rewrite list_lookup_alter_ne by lia.
  rewrite lookup_app_r by lia. rewrite Nat.sub_diag. reflexivity.
Qed.

Lemma on_text_leaf st line :
  leaf_top st ->
  on_text line st = st \/
  exists c,
    heap st !! top (pathStack st) = Some c /\ c_children c = [] /\
    on_text line st =
      PState (alter (set_note (if truthy (c_note c)
                               then c_note c ++ [LF] ++ line else line))
                    (top (pathStack st)) (heap st))
             (pathStack st) (firstH1Found st).
Proof.
  intros Hleaf. unfold on_text.
  destruct (1 <? length (pathStack st)) eqn:E; [|left; reflexivity].
  apply Nat.ltb_lt in E. destruct (Hleaf E) as (c & Hc & Hk).
  right. exists c. rewrite Hc, Hk. auto.
Qed.

Lemma leaf_top_on_text st line : leaf_top st -> leaf_top (on_text line st).
Proof.
  intros Hleaf. destruct (on_text_leaf st line Hleaf) as [-> | (c & Hc & Hk & ->)];
    [exact Hleaf|].
  intros _. cbn [heap pathStack]. rewrite list_lookup_alter_eq, Hc. cbn.
  eexists. split; [reflexivity | exact Hk].
Qed.

Lemma leaf_top_step st raw : wf_state st -> leaf_top st -> leaf_top (step st raw).
Proof.
  intros Hwf Hleaf. unfold step.
  destruct (negb (truthy (trim (clean raw)))); [assumption|].
  destruct (match_heading (trim (clean raw))) as [[level h2]|].
  - unfold on_heading. destruct ((level =? 1) && negb (firstH1Found st)).
    + intros H. cbn [pathStack] in H. rewrite length_take in H. lia.
    + apply leaf_top_insert_node; [assumption|].
      unfold heading_depth. cbv zeta.
      destruct (_ <? 1) eqn:E; [lia|]. apply Nat.ltb_ge in E. exact E.
  - destruct (match_bullet (clean raw)) as [[indent l3]|].
    + apply leaf_top_insert_node; [assumption | cbv zeta; lia].
    + apply leaf_top_on_text. assumption.
Qed.

Lemma leaf_top_run ls : forall st,
  wf_state st -> leaf_top st -> leaf_top (foldl step st ls).
Proof.
  induction ls as [|raw ls IH]; intros st Hwf Hl; [exact Hl|].
  cbn [foldl]. apply IH; [apply wf_step | apply leaf_top_step]; assumption.
Qed.

(** What a line adds to the titles of the store. *)
Lemma titles_step st raw :
  heap st <> [] -> leaf_top st ->
  tail (map c_title (heap (step st raw)))
  = tail (map c_title (heap st)) ++ outline (firstH1Found st) [raw] /\
  heap (step st raw) <> [].
Proof.
  intros Hne Hleaf.
  assert (Hmap : map c_title (heap st) <> [])
    by (destruct (heap st); [congruence | discriminate]).
  assert (Hgrow : forall d t,
            tail (map c_title (heap (insert_node d t st)))
            = tail (map c_title (heap st)) ++ [t] /\
            heap (insert_node d t st) <> []).
  { intros d t. rewrite titles_insert_node, tail_app_nonempty by exact Hmap.
    split; [reflexivity|]. intros E. apply (f_equal (map c_title)) in E.
    rewrite titles_insert_node in E. destruct (map c_title (heap st)); discriminate. }
  unfold step. cbn [outline]. cbv zeta.
  destruct (truthy (trim (clean raw))) eqn:Hb; cbn [negb].
  2:{ rewrite app_nil_r. auto. }
  destruct (match_heading (trim (clean raw))) as [[level h2]|].
  - unfold on_heading.
    destruct ((level =? 1) && negb (firstH1Found st)).
    + rewrite app_nil_r. cbn [heap]. split.
      * destruct (heap st); [congruence | reflexivity].
      * destruct (heap st); [congruence | discriminate].
    + apply Hgrow.
  - destruct (match_bullet (clean raw)) as [[indent l3]|].
    + apply Hgrow.
    + rewrite app_nil_r.
      destruct (on_text_leaf st (clean raw) Hleaf) as [-> | (c & _ & _ & ->)];
        [auto|].
      cbn [heap]. rewrite titles_alter by reflexivity. split; [reflexivity|].
      intros E. apply (f_equal (@length cell)) in E. rewrite length_alter in E.
      destruct (heap st); [congruence | discriminate].
Qed.

Lemma titles_run ls : forall st,
  wf_state st -> leaf_top st -> heap st <> [] ->
  tail (map c_title (heap (foldl step st ls)))
  = tail (map c_title (heap st)) ++ outline (firstH1Found st) ls.
Proof.
  induction ls as [|raw ls IH]; intros st Hwf Hleaf Hne.
  - simpl. rewrite app_nil_r. reflexivity.
  - cbn [foldl]. destruct (titles_step st raw Hne Hleaf) as [Hx Hne'].
    rewrite (IH (step st raw) (wf_step st raw Hwf)
                (leaf_top_step st raw Hwf Hleaf) Hne').
    rewrite firstH1Found_step, Hx, <- app_assoc, <- outline_cons. reflexivity.
Qed.

(** X16.  The parser keeps the order of the lines and makes one node of
    every heading line and every bullet line, and of nothing else.
    Walking the tree returned depth first, the titles met after the
    root are the titles of the heading lines and bullet lines of the
    text, in the order of the lines (the first level-1 heading line,
    which names the root, left out). *)
Theorem parser_keeps_outline (content : str) :
  exists n,
    parseMarkdownToStructure content = Some n /\
    tail (preorder n) = outline false (str_split LF content) /\
    size n = S (length (outline false (str_split LF content))).
Proof.
  destruct (parse_layout content) as (n & Hn & Hh).
  exists n. split; [exact Hn|].
  pose proof (titles_run (str_split LF content) initial wf_initial
                leaf_top_initial ltac:(discriminate)) as HX.
  fold (parse content) in HX. rewrite Hh, (titles_layout n 0 0) in HX.
  cbn [initial heap map tail app firstH1Found] in HX.
  assert (Hlen : length (preorder n) = size n).
  { unfold preorder.
    rewrite <- (titles_layout n 0 0), length_map, length_layout. reflexivity. }
  unfold preorder in *. split; [exact HX|].
  rewrite <- HX, <- Hlen. pose proof (size_pos n).
  destruct (map fst (depths 0 n)); simpl in *; lia.
Qed.

(** X17.  A line of plain text never adds a node.  In every state the
    loop reaches, the entry on top of the stack, when it is not the
    root, has no children: a line that is neither blank, nor a heading,
    nor a bullet is dropped when only the root is open, and is appended
    to the note of the node on top otherwise; the branch that would
    push a child titled by the line is never taken. *)
Theorem text_never_adds_node (before : list str) (raw : str) :
  is_text raw = true ->
  let st := foldl step initial before in
  pathStack (step st raw) = pathStack st /\
  length (heap (step st raw)) = length (heap st) /\
  (length (pathStack st) <= 1 -> step st raw = st) /\
  (1 < length (pathStack st) ->
   exists c,
     heap st !! top (pathStack st) = Some c /\ c_children c = [] /\
     heap (step st raw)
     = alter (set_note (if truthy (c_note c)
                        then c_note c ++ [LF] ++ clean raw else clean raw))
             (top (pathStack st)) (heap st)).
Proof.
  intros Ht st.
  assert (Hleaf : leaf_top st)
    by (apply leaf_top_run; [apply wf_initial | apply leaf_top_initial]).
  assert (Hstep : step st raw = on_text (clean raw) st).
  { unfold is_text in Ht. apply andb_prop in Ht as [Ht Hb].
    apply andb_prop in Ht as [Hn Hh]. unfold step. rewrite Hn. cbn [negb].
    destruct (match_heading (trim (clean raw))); [discriminate|].
    destruct (match_bullet (clean raw)); [discriminate | reflexivity]. }
  rewrite Hstep.
  destruct (on_text_leaf st (clean raw) Hleaf) as [E | (c & Hc & Hk & E)].
  - rewrite E. repeat split; auto.
    intros Hlen. destruct (Hleaf Hlen) as (c & Hc & Hk).
    exists c. repeat split; auto.
    unfold on_text in E. apply Nat.ltb_lt in Hlen. rewrite Hlen, Hc, Hk in E.
    rewrite <- E at 1. reflexivity.
  - rewrite E. cbn [heap pathStack]. rewrite length_alter.
    repeat split; auto.
    + intros Hlen. unfold on_text in E.
      destruct (1 <? length (pathStack st)) eqn:El; [|symmetry; rewrite <- E at 1; reflexivity].
      apply Nat.ltb_lt in El. lia.
    + intros _. exists c. auto.
Qed.

Lemma text_never_adds_node_witness :
  let before := [lit "# Map"; lit "## A"; lit "- a1"] in
  let st := foldl step initial before in
  pathStack (step st (lit "some text")) = pathStack st /\
  length (heap (step st (lit "some text"))) = length (heap st).
Proof.
  intros before st.
  destruct (text_never_adds_node before (lit "some text")) as (H1 & H2 & _);
    [vm_compute; reflexivity|].
  split; [exact H1 | exact H2].
Defined.

(** A text with plain text between its headings and bullets. *)
Example outline_with_text :
  let content := lit "stray
# Map
## A
- a1
note of a1
## B
- b1
more text
    - b2" in
  exists n,
    parseMarkdownToStructure content = Some n /\
    outline false (str_split LF content)
    = [lit "A"; lit "a1"; lit "B"; lit "b1"; lit "b2"] /\
    preorder n
    = [lit "Map"; lit "A"; lit "a1"; lit "B"; lit "b1"; lit "b2"].
Proof. intros. eexists. repeat split; vm_compute; reflexivity. Qed.

(** ** From a package to Markdown and back *)

Section MarkdownRoundTrip.
Variable uid : nat -> str.
Variable JSON_parse : str -> option data.
Variable JSON_stringify : document -> str.

(** X18.  Converting a package to Markdown and the Markdown back to a
    package loses nothing of a map without notes.  For a package with
    one sheet whose displayed titles are tidy, rendered in list mode,
    or in header mode when the map has at most 6 levels, the Markdown
    is parsed to the tree of the sheet, and the package built from it
    is read back as that same tree.  The JSON library is assumed to
    parse what the writer printed. *)
Theorem markdown_round_trip (z : archive) (d : data) (t : topic)
    (format : str) :
  load_data JSON_parse z = Ok d ->
  root_topics (sheets_of d) = [t] ->
  every (fun n => tidy (title n)) (topicToNode t) = true ->
  every (fun n => negb (truthy (note n))) (topicToNode t) = true ->
  format = list_format \/ height (topicToNode t) <= 6 ->
  JSON_parse (JSON_stringify
                (ContentDoc (fst (build_content uid (topicToNode t)))))
    = Some (fst (build_content uid (topicToNode t))) ->
  exists md,
    xmindZipToMarkdown JSON_parse z format = Ok md /\
    parseMarkdownToStructure md = Some (topicToNode t) /\
    packageToTree JSON_parse
      (buildXMindZipFromStructure JSON_stringify uid (topicToNode t))
    = packageToTree JSON_parse z.
Proof.
  intros Hload Hroots Htidy Hnotes Hmode Hjson.
  unfold xmindZipToMarkdown, packageToTree at 2. rewrite Hload.
  unfold outputs. rewrite Hroots. cbn [map str_join].
  eexists. split; [reflexivity|].
  assert (Hparse : parseMarkdownToStructure (str_join [LF] (render format t))
                   = Some (topicToNode t)).
  { unfold render. destruct (bool_decide (format = list_format)) eqn:E.
    - rewrite (list_sheet_read_back t Htidy).
      rewrite reread_no_notes; [reflexivity | reflexivity | exact Hnotes].
    - destruct Hmode as [-> | Hh];
        [rewrite bool_decide_eq_true_2 in E by reflexivity; discriminate|].
      rewrite (header_sheet_read_back t Hh Htidy).
      rewrite reread_no_notes; [reflexivity | reflexivity | exact Hnotes]. }
  split; [exact Hparse|].
  apply (read_back_parsed uid JSON_parse JSON_stringify _ _ Hparse Hjson).
Qed.

End MarkdownRoundTrip.

Lemma markdown_round_trip_witness :
  let leaf := fun s : string => Topic None None (Some (lit s)) None None None in
  let t :=
    Topic None None (Some (lit "Plan")) None None
      (Some (Children
         (Some [Topic None None (Some (lit "Goals")) None None
                  (Some (Children (Some [leaf "Ship it"%string]) None));
                leaf "Risks"%string]) None)) in
  let d := DArray [Sheet None None None (Some t) None] in
  let z : archive := {[ content_json := [] ]} in
  let uid := fun k : nat => [N.of_nat k] in
  let parse := fun s : str =>
    match s with [] => Some d | _ => Some (fst (build_content uid (topicToNode t))) end in
  exists md,
    xmindZipToMarkdown parse z list_format = Ok md /\
    parseMarkdownToStructure md = Some (topicToNode t) /\
    packageToTree parse
      (buildXMindZipFromStructure (fun _ => [1%N]) uid (topicToNode t))
    = packageToTree parse z.
Proof.
  intros leaf t d z uid parse.
  apply (markdown_round_trip uid parse (fun _ => [1%N]) z d t list_format);
    first [reflexivity | left; reflexivity | vm_compute; reflexivity].
Defined.

(** ** Where a node lands *)

Lemma length_depths n : forall e, length (depths e n) = size n.
Proof.
  intros e. rewrite <- (length_map fst), <- (titles_layout n 0 e), length_map.
  apply length_layout.
Qed.

(** An insertion in a store laid out in document order: the node comes
    last, at the depth the cut stack has. *)
Lemma tree_insert_node st d t n :
  wf_state st -> heap st = layout 0 n -> on_spine (pathStack st) 0 n ->
  1 <= d ->
  exists n',
    heap (insert_node d t st) = layout 0 n' /\
    on_spine (pathStack (insert_node d t st)) 0 n' /\
    depths 0 n' = depths 0 n ++ [(t, min d (length (pathStack st)))].
Proof.
  intros Hwf Hh Hs Hd.
  destruct (insert_node_stack st d t Hwf Hd) as (_ & -> & _).
  destruct (top_kept st d Hwf Hd) as [_ Htop].
  destruct (graft_leaf t _ 0 n d Hs (spine_stack_nonempty st Hwf) Hd)
    as (n' & Hl & Hs' & _ & Hdep).
  exists n'. cbn [heap pathStack]. rewrite alter_app_l by exact Htop.
  rewrite Nat.sub_0_r in Hl. cbn [Nat.add] in Hl, Hs'.
  rewrite Hh, length_layout. split; [symmetry; exact Hl|].
  split; [exact Hs'|]. rewrite (Hdep 0), length_take. reflexivity.
Qed.

(** A step keeps the nodes there are where they are. *)
Lemma tree_step st raw n :
  wf_state st -> heap st = layout 0 n -> on_spine (pathStack st) 0 n ->
  exists n' x,
    heap (step st raw) = layout 0 n' /\
    on_spine (pathStack (step st raw)) 0 n' /\
    tail (depths 0 n') = tail (depths 0 n) ++ x.
Proof.
  intros Hwf Hh Hs.
  assert (Hins : forall d t, 1 <= d ->
            exists n' x,
              heap (insert_node d t st) = layout 0 n' /\
              on_spine (pathStack (insert_node d t st)) 0 n' /\
              tail (depths 0 n') = tail (depths 0 n) ++ x).
  { intros d t Hd.
    destruct (tree_insert_node st d t n Hwf Hh Hs Hd) as (n' & H1 & H2 & H3).
    exists n', [(t, min d (length (pathStack st)))].
    split; [exact H1|]. split; [exact H2|].
    rewrite H3, (depths_eq 0 n). reflexivity. }
  assert (Hsame : exists n' x,
            heap st = layout 0 n' /\ on_spine (pathStack st) 0 n' /\
            tail (depths 0 n') = tail (depths 0 n) ++ x).
  { exists n, []. rewrite app_nil_r. auto. }
  unfold step.
  destruct (negb (truthy (trim (clean raw)))); [exact Hsame|].
  destruct (match_heading (trim (clean raw))) as [[level h2]|].
  - unfold on_heading.
    destruct ((level =? 1) && negb (firstH1Found st)).
    + exists (Node (trim h2) (note n) (children n)), [].
      cbn [heap pathStack]. split; [|split].
      * rewrite Hh, !layout_eq. reflexivity.
      * destruct Hwf as ([rest Hr] & _). rewrite Hr. cbn [take].
        rewrite take_0. split; [reflexivity | exact I].
      * rewrite app_nil_r, !depths_eq. reflexivity.
    + apply Hins. unfold heading_depth. cbv zeta.
      destruct (_ <? 1) eqn:E; [lia|]. apply Nat.ltb_ge in E. exact E.
  - destruct (match_bullet (clean raw)) as [[indent l3]|].
    + apply Hins. cbv zeta. lia.
    + unfold on_text.
      destruct (1 <? length (pathStack st)); [|exact Hsame].
      destruct (heap st !! top (pathStack st)) as [c0|] eqn:E0; [|exact Hsame].
      pose proof (lookup_lt_Some _ _ _ E0) as Hp.
      pose proof (spine_stack_nonempty st Hwf) as Hne.
      destruct (c_children c0).
      * destruct (set_note_spine
                    (if truthy (c_note c0) then c_note c0 ++ [LF] ++ clean raw
                     else clean raw)
                    _ 0 n Hs Hne) as (n' & Hl & Hs' & _ & Hdep).
        exists n', []. cbn [heap pathStack]. rewrite Nat.sub_0_r in Hl.
        rewrite Hh, app_nil_r, (Hdep 0).
        split; [symmetry; exact Hl|]. split; [exact Hs' | reflexivity].
      * destruct (graft_leaf (clean raw) _ 0 n (length (pathStack st)) Hs Hne)
          as (n' & Hl & Hs' & _ & Hdep).
        { destruct (pathStack st); [congruence | simpl; lia]. }
        rewrite take_ge in Hl, Hs', Hdep by lia.
        exists n', [(clean raw, 0 + length (pathStack st))].
        cbn [heap pathStack]. rewrite alter_app_l by exact Hp.
        rewrite Nat.sub_0_r in Hl. cbn [Nat.add] in Hl, Hs'.
        rewrite Hh, length_layout. split; [symmetry; exact Hl|].
        split; [eapply on_spine_prefix; exact Hs'|].
        rewrite (Hdep 0), (depths_eq 0 n). reflexivity.
Qed.

Lemma tree_run ls : forall st n,
  wf_state st -> heap st = layout 0 n -> on_spine (pathStack st) 0 n ->
  exists n' X,
    heap (foldl step st ls) = layout 0 n' /\
    on_spine (pathStack (foldl step st ls)) 0 n' /\
    tail (depths 0 n') = tail (depths 0 n) ++ X.
Proof.
  induction ls as [|raw ls IH]; intros st n Hwf Hh Hs.
  - exists n, []. rewrite app_nil_r. auto.
  - cbn [foldl].
    destruct (tree_step st raw n Hwf Hh Hs) as (n1 & x & H1 & H2 & H3).
    destruct (IH (step st raw) n1 (wf_step st raw Hwf) H1 H2)
      as (n2 & X & H4 & H5 & H6).
    exists n2, (x ++ X). rewrite H6, H3, <- app_assoc. auto.
Qed.

(** What an insertion does to the store and the stack, written out. *)
Lemma insert_node_effect st d t :
  wf_state st -> 1 <= d ->
  let node := length (heap st) in
  let kept := take d (pathStack st) in
  let st' := insert_node d t st in
  kept <> [] /\
  pathStack st' = kept ++ [node] /\
  length (pathStack st') = S (min d (length (pathStack st))) /\
  length (heap st') = S (length (heap st)) /\
  heap st' !! node = Some (Cell t [] []) /\
  (exists c, heap st !! top kept = Some c /\
             heap st' !! top kept
             = Some (Cell (c_title c) (c_note c) (c_children c ++ [node]))) /\
  (forall i, i <> top kept -> i < length (heap st) ->
             heap st' !! i = heap st !! i).
Proof.
  intros Hwf Hd node kept st'.
  destruct (insert_node_stack st d t Hwf Hd) as (Hne & Heq & Hlen).
  destruct (top_kept st d Hwf Hd) as [_ Htop].
  fold kept in Hne, Heq, Htop. fold node in Heq. fold st' in Heq, Hlen.
  split; [exact Hne|]. rewrite Heq. cbn [pathStack heap].
  split; [reflexivity|]. split; [rewrite Heq in Hlen; exact Hlen|].
  split; [rewrite length_alter, length_app; simpl; lia|].
  split.
  { rewrite list_lookup_alter_ne by (unfold node; lia).
    unfold node. rewrite lookup_app_r by lia. rewrite Nat.sub_diag. reflexivity. }
  split.
  - destruct (lookup_lt_is_Some_2 _ _ Htop) as [c Hc]. exists c.
    split; [exact Hc|].
    rewrite list_lookup_alter_eq, lookup_app_l, Hc by exact Htop. reflexivity.
  - intros i Hi Hlt. rewrite list_lookup_alter_ne by congruence.
    apply lookup_app_l. exact Hlt.
Qed.

(** The node a line inserts is, in the tree returned, at the place in
    document order and at the depth it was given when it was inserted. *)
Lemma node_lands (content : str) (pre : list str) (raw : str)
    (post : list str) d t :
  str_split LF content = pre ++ raw :: post ->
  let st := foldl step initial pre in
  step st raw = insert_node d t st -> 1 <= d ->
  exists n,
    parseMarkdownToStructure content = Some n /\
    depths 0 n !! length (heap st)
    = Some (t, min d (length (pathStack st))).
Proof.
  intros Hsplit st Hstep Hd.
  assert (Hwf : wf_state st) by apply wf_run, wf_initial.
  destruct (tree_run pre initial (Node default_root_title [] []) wf_initial
              eq_refl (conj eq_refl I)) as (n0 & X0 & Hh0 & Hs0 & _).
  fold st in Hh0, Hs0.
  destruct (tree_insert_node st d t n0 Hwf Hh0 Hs0 Hd) as (n1 & Hh1 & Hs1 & Hd1).
  rewrite <- Hstep in Hh1, Hs1.
  destruct (tree_run post (step st raw) n1 (wf_step st raw Hwf) Hh1 Hs1)
    as (n2 & X & Hh2 & _ & Hd2).
  exists n2. split.
  - unfold parseMarkdownToStructure, parse.
    rewrite Hsplit, foldl_app. cbn [foldl]. fold st. rewrite Hh2.
    apply reify_whole.
  - rewrite Hh0, length_layout, <- (length_depths n0 0).
    rewrite Hd1 in Hd2. rewrite (depths_eq 0 n0) in *.
    rewrite (depths_eq 0 n2) in *. cbn [tail app length] in *.
    rewrite Hd2, <- app_assoc. cbn [lookup list_lookup].
    apply list_lookup_middle. reflexivity.
Qed.

(** C5 (amended).  Let [raw] be a line of a document that matches the
    bullet pattern, [st] the state of the loop when it reaches [raw].
    The line is made of [indent] units of leading white space (so
    [indent] is the number of leading spaces of a line indented with
    spaces), a marker [-], [*] or [+], and a text; the heading pattern
    fails on it, and on a line where the heading pattern succeeds the
    heading branch is taken, whatever the bullet pattern would say.  The
    depth asked for is [indent / 2 + 1], unadjusted, and the insertion is
    the one headings use: the stack is cut down to its first [depth]
    entries when it is longer (never extended), a new node with the text
    as title, no note and no children is stored, its reference is
    appended to the children of the entry then on top, no other node
    changes, and the node is pushed.  It lands at depth
    [min depth (length stack)]: this is its depth in the tree the parser
    returns, where it is the node number [length (heap st)] in document
    order. *)
Theorem bullet_insertion (content : str) (pre : list str) (raw : str)
    (post : list str) (indent : nat) (l3 : str) :
  str_split LF content = pre ++ raw :: post ->
  match_bullet (clean raw) = Some (indent, l3) ->
  let st := foldl step initial pre in
  let st' := step st raw in
  let depth := indent / 2 + 1 in
  let node := length (heap st) in
  let kept := take depth (pathStack st) in
  let landed := min depth (length (pathStack st)) in
  (exists w mk rest,
     clean raw = w ++ mk :: rest /\ forallb is_ws w = true /\
     length w = indent /\ is_marker mk = true) /\
  (forall n mk rest,
     clean raw = str_repeat [SPACE] n ++ mk :: rest -> is_marker mk = true ->
     indent = n) /\
  match_heading (trim (clean raw)) = None /\
  (forall raw' level h2,
     match_heading (trim (clean raw')) = Some (level, h2) ->
     step st raw' = on_heading level (trim h2) st) /\
  (forall level t,
     (level =? 1) && negb (firstH1Found st) = false ->
     on_heading level t st = insert_node (heading_depth level) t st) /\
  st' = insert_node depth (trim l3) st /\
  kept <> [] /\
  pathStack st' = kept ++ [node] /\
  length (pathStack st') = S landed /\
  length (heap st') = S (length (heap st)) /\
  heap st' !! node = Some (Cell (trim l3) [] []) /\
  (exists c, heap st !! top kept = Some c /\
             heap st' !! top kept
             = Some (Cell (c_title c) (c_note c) (c_children c ++ [node]))) /\
  (forall i, i <> top kept -> i < length (heap st) ->
             heap st' !! i = heap st !! i) /\
  (exists n, parseMarkdownToStructure content = Some n /\
             depths 0 n !! node = Some (trim l3, landed)).
Proof.
  intros Hsplit Hm st st' depth node kept landed.
  assert (Hwf : wf_state st) by apply wf_run, wf_initial.
  assert (Hd : 1 <= depth) by (subst depth; lia).
  destruct (match_bullet_shape _ _ _ Hm)
    as (w1 & mk & w2 & Hs & Hi & Hw1 & Hmk & _).
  assert (Hstep : st' = insert_node depth (trim l3) st).
  { subst st'. unfold step.
    rewrite (bullet_nonblank _ _ _ Hm), (bullet_not_heading _ _ _ Hm), Hm.
    reflexivity. }
  split; [exists w1, mk, (w2 ++ l3); auto|].
  split.
  { intros n mk' rest Hr Hmk'. rewrite Hs in Hr. subst indent.
    assert (Hsp : forallb is_ws (str_repeat [SPACE] n) = true).
    { clear. induction n; simpl; auto. }
    rewrite (leading_ws_unique _ _ _ _ _ _ Hr Hw1 Hsp
               (marker_not_ws _ Hmk) (marker_not_ws _ Hmk')).
    clear. induction n; simpl; auto. }
  split; [eapply bullet_not_heading; eassumption|].
  split; [intros raw' level h2 Hh; apply step_heading; assumption|].
  split; [intros level t E; unfold on_heading; rewrite E; reflexivity|].
  split; [exact Hstep|].
  destruct (insert_node_effect st depth (trim l3) Hwf Hd)
    as (H1 & H2 & H3 & H4 & H5 & H6 & H7).
  rewrite <- Hstep in H2, H3, H4, H5, H6, H7.
  repeat (split; [assumption|]).
  exact (node_lands content pre raw post depth (trim l3) Hsplit Hstep Hd).
Qed.

Lemma bullet_insertion_witness :
  exists n,
    parseMarkdownToStructure (lit "- a
    - b") = Some n /\
    depths 0 n !! 2 = Some (lit "b", 2).
Proof.
  refine (proj2 (proj2 (proj2 (proj2 (proj2 (proj2 (proj2 (proj2 (proj2 (proj2
    (proj2 (proj2 (proj2
    (bullet_insertion (lit "- a
    - b") [lit "- a"] (lit "    - b") [] 4 (lit "b") _ _))))))))))))));
    vm_compute; reflexivity.
Defined.

(** C5, as stated, fails: a bullet indented by four spaces asks for depth
    [4 / 2 + 1 = 3]; met while the stack holds the root alone it becomes
    a direct child of the root, and after a bullet without indent it
    lands at depth 2. *)
Lemma bullet_above_stack :
  match_bullet (clean (lit "    - b")) = Some (4, lit "b") /\
  4 / 2 + 1 = 3 /\
  pathStack (step initial (lit "    - b")) = [structure; 1] /\
  (depths 0 <$> parseMarkdownToStructure (lit "    - b"))
    = Some [(default_root_title, 0); (lit "b", 1)] /\
  (depths 0 <$> parseMarkdownToStructure (lit "- a
    - b"))
    = Some [(default_root_title, 0); (lit "a", 1); (lit "b", 2)] /\
  1 <> 4 / 2 + 1.
Proof. vm_compute. repeat split; try reflexivity. discriminate. Qed.

(** X19.  Where the first line of a topic rendered in header mode is read
    back.  For a level from 2 on, the line asks for depth [level - 1]
    when it is a heading (levels 2 to 6) and for depth [level - 6] when
    it is a bullet (from level 7 on); the node is inserted at the
    smaller of that depth and the length of the stack, which is its
    depth in the tree returned.  So a topic six levels below the root is
    read back as a child of the root, and what follows it is attached
    below it. *)
Theorem header_line_lands (content : str) (pre post : list str)
    (level : nat) (T : str) :
  str_split LF content = pre ++ header_line level T :: post ->
  tidy T = true -> 2 <= level ->
  let st := foldl step initial pre in
  let asked := if level <=? 6 then level - 1 else level - 6 in
  step st (header_line level T) = insert_node asked T st /\
  length (pathStack (step st (header_line level T)))
  = S (min asked (length (pathStack st))) /\
  exists n,
    parseMarkdownToStructure content = Some n /\
    depths 0 n !! length (heap st)
    = Some (T, min asked (length (pathStack st))).
Proof.
  intros Hsplit HT Hl st asked.
  assert (Hwf : wf_state st) by apply wf_run, wf_initial.
  assert (Hstep : step st (header_line level T) = insert_node asked T st).
  { unfold header_line, asked. destruct (level <=? 6) eqn:E.
    - apply Nat.leb_le in E. apply heading_line_inserts; [exact HT | lia].
    - apply Nat.leb_gt in E. rewrite step_bullet_line by exact HT.
      f_equal. lia. }
  assert (Hd : 1 <= asked).
  { unfold asked. destruct (level <=? 6) eqn:E; [lia|].
    apply Nat.leb_gt in E. lia. }
  split; [exact Hstep|]. split.
  - rewrite Hstep.
    destruct (insert_node_stack st asked T Hwf Hd) as (_ & _ & H). exact H.
  - exact (node_lands content pre _ post asked T Hsplit Hstep Hd).
Qed.

Lemma header_line_lands_witness :
  exists n,
    parseMarkdownToStructure (lit "# r
- t7
#### u4") = Some n /\
    depths 0 n !! 2 = Some (lit "u4", 2).
Proof.
  refine (proj2 (proj2
    (header_line_lands (lit "# r
- t7
#### u4") [lit "# r"; lit "- t7"] [] 4 (lit "u4") _ _ _)));
    first [lia | vm_compute; reflexivity].
Defined.

(** A map seven levels deep with a second topic at level 4, rendered in
    header mode and read back: the topic of level 7 is a child of the
    root and the topic of level 4 that follows it is attached below
    it. *)
Example deep_map_read_back :
  let leaf := fun s : string => Topic None None (Some (lit s)) None None None in
  let under := fun (s : string) (l : list topic) =>
    Topic None None (Some (lit s)) None None (Some (Children (Some l) None)) in
  let t :=
    under "t1"%string [under "t2"%string [under "t3"%string
      [under "t4"%string
         [under "t5"%string [under "t6"%string [leaf "t7"%string]]];
       leaf "u4"%string]]] in
  (depths 0 <$> parseMarkdownToStructure
                  (str_join [LF] (render (lit "header") t)))
  = Some [(lit "t1", 0); (lit "t2", 1); (lit "t3", 2); (lit "t4", 3);
          (lit "t5", 4); (lit "t6", 5); (lit "t7", 1); (lit "u4", 2)].
Proof. vm_compute. reflexivity. Qed.
